(** * memcache-helper: a TTL cache over node-cache with JSON-encoded keys and values

    The repository holds three variants of one class that wraps a
    node-cache store: keys and values go through [JSON.stringify] on the
    way in and through [unstringify] on the way out, and the store's
    notifications are forwarded decoded.  The development embeds the
    canonical variant (src/unnamed/part_001, with event forwarding and
    [exists]) and the variant of src/src/index.ts, whose [unstringify]
    calls itself, and proves the properties the specification states
    about them.

    Layout:
    - [Json]: JavaScript values, [JSON.stringify] and [JSON.parse];
    - the class: its state, the store it delegates to, its methods,
      generic in the private method [unstringify] (Section [Class]), and
      the two instances [Canonical] and [IndexTs];
    - well-formed stores and the snapshot of the specification;
    - [JsonFacts], [ClassFacts]: the lemmas;
    - the properties of the specification, and their instances at
      concrete inputs. *)

From Stdlib Require Import ZArith String Ascii List Lia Decimal DecimalString DecimalFacts DecimalPos DecimalZ.
From stdpp Require Import gmap strings list fin_maps.

Set Warnings "-register-all".

Local Open Scope string_scope.
Local Open Scope list_scope.
Local Open Scope Z_scope.

(* ===================================================================== *)
(** ** JavaScript values and the JSON codec *)
(* ===================================================================== *)

Module Json.

(** The values a caller can hand to the cache.  Numbers are the integral
    ones (a [Z]; floating point is left out); strings are sequences of
    code units below 256 (a [string]); an object is the list of its own
    enumerable properties in the order [Object.keys] yields them.
    [JUndefined] and [JBigInt] are the two values on which
    [JSON.stringify] does not produce text: the first gives [undefined],
    the second throws a [TypeError]. *)
Inductive value : Type :=
| JUndefined
| JNull
| JBool (b : bool)
| JNum (n : Z)
| JBigInt (n : Z)
| JStr (s : string)
| JArr (xs : list value)
| JObj (ps : list (string * value)).

(** The double quote and the reverse solidus. *)
Definition dq : ascii := "034".
Definition bs : ascii := "092".

Definition str1 (c : ascii) : string := String c EmptyString.

(** *** Text of a string: QuoteJSONString *)

Definition hex_digit (n : N) : ascii :=
  match n with
  | 0 => "0" | 1 => "1" | 2 => "2" | 3 => "3" | 4 => "4" | 5 => "5"
  | 6 => "6" | 7 => "7" | 8 => "8" | 9 => "9" | 10 => "a" | 11 => "b"
  | 12 => "c" | 13 => "d" | 14 => "e" | _ => "f"
  end%N%char.

(** One code unit of a string, as [JSON.stringify] writes it: the two
    characters that need a reverse solidus, the five short escapes, the
    other control characters as a four-digit escape, the rest as is. *)
Definition quote_char (c : ascii) : string :=
  if (c =? dq)%char then String bs (str1 dq)
  else if (c =? bs)%char then String bs (str1 bs)
  else if (c =? "008")%char then String bs "b"
  else if (c =? "009")%char then String bs "t"
  else if (c =? "010")%char then String bs "n"
  else if (c =? "012")%char then String bs "f"
  else if (c =? "013")%char then String bs "r"
  else if (N_of_ascii c <? 32)%N then
    String bs (String "u" (String "0" (String "0"
      (String (hex_digit (N_of_ascii c / 16)) (str1 (hex_digit (N_of_ascii c mod 16)))))))
  else str1 c.

Fixpoint quote_chars (s : string) : string :=
  match s with
  | EmptyString => EmptyString
  | String c r => quote_char c +:+ quote_chars r
  end.

Definition quote (s : string) : string :=
  String dq (quote_chars s +:+ str1 dq).

(** *** Text of a number: the decimal digits, with a sign when negative *)

Definition number_to_string (n : Z) : string :=
  NilEmpty.string_of_int (Z.to_int n).

(** *** JSON.stringify *)

(** What SerializeJSONProperty gives: text, [undefined], or a thrown
    [TypeError]. *)
Inductive ser : Type :=
| SText (s : string)
| SUndef
| SThrow.

Fixpoint join (sep : string) (parts : list string) : string :=
  match parts with
  | [] => EmptyString
  | [p] => p
  | p :: rest => p +:+ sep +:+ join sep rest
  end.

(** An array element that serialises to [undefined] is written [null]; an
    object property that does is left out. *)
Definition serialize_elements (f : value -> ser) : list value -> option (list string) :=
  fix go (xs : list value) : option (list string) :=
    match xs with
    | [] => Some []
    | x :: xs' =>
        match f x with
        | SText t => cons t <$> go xs'
        | SUndef => cons "null" <$> go xs'
        | SThrow => None
        end
    end.

Definition serialize_members (f : value -> ser)
  : list (string * value) -> option (list string) :=
  fix go (ps : list (string * value)) : option (list string) :=
    match ps with
    | [] => Some []
    | (k, x) :: ps' =>
        match f x with
        | SText t => cons (quote k +:+ ":" +:+ t) <$> go ps'
        | SUndef => go ps'
        | SThrow => None
        end
    end.

Fixpoint serialize (v : value) : ser :=
  match v with
  | JUndefined => SUndef
  | JNull => SText "null"
  | JBool true => SText "true"
  | JBool false => SText "false"
  | JNum n => SText (number_to_string n)
  | JBigInt _ => SThrow
  | JStr s => SText (quote s)
  | JArr xs =>
      match serialize_elements serialize xs with
      | Some parts => SText ("[" +:+ join "," parts +:+ "]")
      | None => SThrow
      end
  | JObj ps =>
      match serialize_members serialize ps with
      | Some parts => SText ("{" +:+ join "," parts +:+ "}")
      | None => SThrow
      end
  end.

(** [JSON.stringify(x)] with one argument. *)
Definition JSON_stringify (x : value) : ser := serialize x.

(** *** JSON.parse *)

(** Result of a parsing function: a value and the text after it, a
    syntax error, or fuel exhausted ([JSON_parse] below gives enough). *)
Inductive pres (A : Type) : Type :=
| POk (a : A) (rest : string)
| PErr
| PFuel.
Arguments POk {A} a rest.
Arguments PErr {A}.
Arguments PFuel {A}.

Definition pres_map {A B} (f : A -> B) (r : pres A) : pres B :=
  match r with
  | POk a rest => POk (f a) rest
  | PErr => PErr
  | PFuel => PFuel
  end.

Definition is_ws (c : ascii) : bool :=
  ((c =? " ") || (c =? "009") || (c =? "010") || (c =? "013"))%char.

Fixpoint skip_ws (s : string) : string :=
  match s with
  | EmptyString => EmptyString
  | String c r => if is_ws c then skip_ws r else s
  end.

Fixpoint strip_prefix (p s : string) : option string :=
  match p with
  | EmptyString => Some s
  | String c p' =>
      match s with
      | EmptyString => None
      | String d s' => if (c =? d)%char then strip_prefix p' s' else None
      end
  end.

Definition literal (p : string) (v : value) (s : string) : pres value :=
  match strip_prefix p s with
  | Some rest => POk v rest
  | None => PErr
  end.

(** Strings. *)

Definition hex_value (c : ascii) : option N :=
  let n := N_of_ascii c in
  if ((48 <=? n) && (n <=? 57))%N then Some (n - 48)%N
  else if ((97 <=? n) && (n <=? 102))%N then Some (n - 87)%N
  else if ((65 <=? n) && (n <=? 70))%N then Some (n - 55)%N
  else None.

(** The code unit a four-digit escape denotes; the model holds code
    units below 256 only, so a larger one is not accepted. *)
Definition unicode_escape (h1 h2 h3 h4 : ascii) : option ascii :=
  match hex_value h1, hex_value h2, hex_value h3, hex_value h4 with
  | Some a, Some b, Some c, Some d =>
      let code := (((a * 16 + b) * 16 + c) * 16 + d)%N in
      if (code <? 256)%N then Some (ascii_of_N code) else None
  | _, _, _, _ => None
  end.

Definition simple_escape (e : ascii) : option ascii :=
  if (e =? dq)%char then Some dq
  else if (e =? bs)%char then Some bs
  else if (e =? "/")%char then Some "/"%char
  else if (e =? "b")%char then Some "008"%char
  else if (e =? "t")%char then Some "009"%char
  else if (e =? "n")%char then Some "010"%char
  else if (e =? "f")%char then Some "012"%char
  else if (e =? "r")%char then Some "013"%char
  else None.

Definition cons_char (c : ascii) (r : option (string * string)) : option (string * string) :=
  match r with
  | Some (str, rest) => Some (String c str, rest)
  | None => None
  end.

(** The characters of a string after its opening quote, up to and
    including the closing one. *)
Fixpoint parse_chars (s : string) : option (string * string) :=
  match s with
  | EmptyString => None
  | String c r =>
      if (c =? dq)%char then Some (EmptyString, r)
      else if (c =? bs)%char then
        match r with
        | EmptyString => None
        | String e r1 =>
            if (e =? "u")%char then
              match r1 with
              | String h1 (String h2 (String h3 (String h4 r2))) =>
                  match unicode_escape h1 h2 h3 h4 with
                  | Some ch => cons_char ch (parse_chars r2)
                  | None => None
                  end
              | _ => None
              end
            else
              match simple_escape e with
              | Some ch => cons_char ch (parse_chars r1)
              | None => None
              end
        end
      else if (N_of_ascii c <? 32)%N then None
      else cons_char c (parse_chars r)
  end.

(** Numbers. *)

Definition digit_of (c : ascii) : option (uint -> uint) :=
  if (c =? "0")%char then Some D0
  else if (c =? "1")%char then Some D1
  else if (c =? "2")%char then Some D2
  else if (c =? "3")%char then Some D3
  else if (c =? "4")%char then Some D4
  else if (c =? "5")%char then Some D5
  else if (c =? "6")%char then Some D6
  else if (c =? "7")%char then Some D7
  else if (c =? "8")%char then Some D8
  else if (c =? "9")%char then Some D9
  else None.

Fixpoint parse_digits (s : string) : uint * string :=
  match s with
  | EmptyString => (Nil, EmptyString)
  | String c r =>
      match digit_of c with
      | Some f => let '(d, rest) := parse_digits r in (f d, rest)
      | None => (Nil, s)
      end
  end.

(** A fraction or an exponent would denote a number outside the integral
    model, so the text is not accepted when one follows the digits. *)
Definition starts_fraction (s : string) : bool :=
  match s with
  | EmptyString => false
  | String c _ => ((c =? ".") || (c =? "e") || (c =? "E"))%char
  end.

(** An optional minus sign, then digits: a single zero or a sequence
    without a leading zero, which is what [unorm d = d] says. *)
Definition parse_number (s : string) : option (Z * string) :=
  let '(negative, s1) :=
    match s with
    | String c r => if (c =? "-")%char then (true, r) else (false, s)
    | EmptyString => (false, s)
    end in
  let '(d, rest) := parse_digits s1 in
  if uint_beq (unorm d) d && negb (starts_fraction rest)
  then Some (Z.of_int (if negative then Neg d else Pos d), rest)
  else None.

(** Objects: a member defines its property; a repeated name overwrites
    the earlier value in place.  The properties keep the order of the
    text (JavaScript lists array-index names first; a text written by
    [JSON.stringify] has them there already). *)
Fixpoint set_prop (k : string) (v : value) (ps : list (string * value))
  : list (string * value) :=
  match ps with
  | [] => [(k, v)]
  | (k', v') :: ps' =>
      if (k' =? k)%string then (k', v) :: ps' else (k', v') :: set_prop k v ps'
  end.

Definition obj_of_members (ms : list (string * value)) : list (string * value) :=
  fold_left (fun o m => set_prop m.1 m.2 o) ms [].

Definition pcons {A} (a : A) (r : pres (list A)) : pres (list A) :=
  pres_map (cons a) r.

(** Recursive descent.  [parse_elements] reads the elements of a
    non-empty array up to and including the closing bracket,
    [parse_members] the members of a non-empty object up to and including
    the closing brace. *)
Fixpoint parse_value (fuel : nat) (s : string) : pres value :=
  match fuel with
  | O => PFuel
  | S f =>
      match skip_ws s with
      | EmptyString => PErr
      | String c r =>
          if (c =? "n")%char then literal "ull" JNull r
          else if (c =? "t")%char then literal "rue" (JBool true) r
          else if (c =? "f")%char then literal "alse" (JBool false) r
          else if (c =? dq)%char then
            match parse_chars r with
            | Some (str, rest) => POk (JStr str) rest
            | None => PErr
            end
          else if (c =? "[")%char then
            match skip_ws r with
            | EmptyString => PErr
            | String c' r' =>
                if (c' =? "]")%char then POk (JArr []) r'
                else pres_map JArr (parse_elements f r)
            end
          else if (c =? "{")%char then
            match skip_ws r with
            | EmptyString => PErr
            | String c' r' =>
                if (c' =? "}")%char then POk (JObj []) r'
                else pres_map (fun ms => JObj (obj_of_members ms)) (parse_members f r)
            end
          else
            match parse_number (String c r) with
            | Some (n, rest) => POk (JNum n) rest
            | None => PErr
            end
      end
  end
with parse_elements (fuel : nat) (s : string) : pres (list value) :=
  match fuel with
  | O => PFuel
  | S f =>
      match parse_value f s with
      | POk v r =>
          match skip_ws r with
          | EmptyString => PErr
          | String c r' =>
              if (c =? ",")%char then pcons v (parse_elements f r')
              else if (c =? "]")%char then POk [v] r'
              else PErr
          end
      | PErr => PErr
      | PFuel => PFuel
      end
  end
with parse_members (fuel : nat) (s : string) : pres (list (string * value)) :=
  match fuel with
  | O => PFuel
  | S f =>
      match skip_ws s with
      | EmptyString => PErr
      | String c r =>
          if (c =? dq)%char then
            match parse_chars r with
            | None => PErr
            | Some (k, r1) =>
                match skip_ws r1 with
                | EmptyString => PErr
                | String c1 r2 =>
                    if (c1 =? ":")%char then
                      match parse_value f r2 with
                      | POk v r3 =>
                          match skip_ws r3 with
                          | EmptyString => PErr
                          | String c3 r4 =>
                              if (c3 =? ",")%char then pcons (k, v) (parse_members f r4)
                              else if (c3 =? "}")%char then POk [(k, v)] r4
                              else PErr
                          end
                      | PErr => PErr
                      | PFuel => PFuel
                      end
                    else PErr
                end
            end
          else PErr
      end
  end.

(** What [JSON.parse] gives: a value, a thrown [SyntaxError], or (in the
    model only, and never, see [JSON_parse_total]) fuel exhausted. *)
Inductive parsed : Type :=
| Parsed (v : value)
| SyntaxErr
| NoFuel.

Definition parse_fuel (text : string) : nat := 2 * String.length text + 1.

Definition JSON_parse (text : string) : parsed :=
  match parse_value (parse_fuel text) text with
  | POk v rest =>
      match skip_ws rest with
      | EmptyString => Parsed v
      | String _ _ => SyntaxErr
      end
  | PErr => SyntaxErr
  | PFuel => NoFuel
  end.

(** *** The order of the properties of an object *)

(** An array index: a property name that is the canonical decimal text
    of an integer from 0 to 2^32 - 2. *)
Definition array_index (k : string) : option N :=
  match NilEmpty.uint_of_string k with
  | Some d =>
      if uint_beq (unorm d) d && (N.of_uint d <=? 4294967294)%N
      then Some (N.of_uint d)
      else None
  | None => None
  end.

(** [Object.keys] (and with it [JSON.stringify]) lists the array-index
    names of an object first, in ascending numeric order, and then the
    other names in the order they were added.  [may_follow k k'] says
    that [k'] can be listed after [k]; a list of names is in the order
    of some object when every name can follow the ones before it. *)
Definition may_follow (k k' : string) : bool :=
  match array_index k, array_index k' with
  | Some n, Some n' => (n <? n')%N
  | Some _, None | None, None => true
  | None, Some _ => false
  end.

Fixpoint own_keys_order (ks : list string) : bool :=
  match ks with
  | [] => true
  | k :: ks' => forallb (may_follow k) ks' && own_keys_order ks'
  end.

(** *** Supported shapes *)

(** The shapes the specification calls supported: null, booleans, numbers
    (here the safe integers, which [JSON.stringify] writes in plain
    decimal), strings, ordered sequences, and mappings with unique keys,
    nested at will.  [undefined] and BigInt are not among them.  The
    properties of a mapping are listed as the object enumerates them, so
    their names are in the order of [own_keys_order]: a list with an
    array-index name after another name is the list of no object. *)
Definition safe_integer (n : Z) : bool :=
  (- 9007199254740991 <=? n) && (n <=? 9007199254740991).

Fixpoint is_supported (v : value) : bool :=
  match v with
  | JUndefined | JBigInt _ => false
  | JNull | JBool _ | JStr _ => true
  | JNum n => safe_integer n
  | JArr xs => forallb is_supported xs
  | JObj ps =>
      own_keys_order ps.*1
      && bool_decide (NoDup ps.*1)
      && forallb (fun p => is_supported p.2) ps
  end.

Definition supported (v : value) : Prop := is_supported v = true.

(** The text of a supported value, written without the error cases of
    [serialize] ([serialize_supported] shows the two agree). *)
Fixpoint text (v : value) : string :=
  match v with
  | JUndefined | JBigInt _ => EmptyString
  | JNull => "null"
  | JBool true => "true"
  | JBool false => "false"
  | JNum n => number_to_string n
  | JStr s => quote s
  | JArr xs => "[" +:+ join "," (map text xs) +:+ "]"
  | JObj ps => "{" +:+ join "," (map (fun p => quote p.1 +:+ ":" +:+ text p.2) ps) +:+ "}"
  end.

(** Fuel that [parse_value] needs on the text of a value. *)
Fixpoint size (v : value) : nat :=
  match v with
  | JArr xs => S (list_sum (map (fun x => S (size x)) xs))
  | JObj ps => S (list_sum (map (fun p => S (size p.2)) ps))
  | _ => 1
  end.

(** What may follow a value inside a text: nothing, a comma, or a closing
    bracket or brace. *)
Definition stop (rest : string) : bool :=
  match rest with
  | EmptyString => true
  | String c _ => ((c =? ",") || (c =? "]") || (c =? "}"))%char
  end.

(** The text after a number may not go on with a digit. *)
Definition no_digit_head (rest : string) : Prop :=
  match rest with
  | EmptyString => True
  | String c _ => digit_of c = None
  end.

(** The characters a value's text can begin with. *)
Definition value_start (c : ascii) : bool :=
  ((c =? "n") || (c =? "t") || (c =? "f") || (c =? dq) || (c =? "[") || (c =? "{")
   || (c =? "-") || match digit_of c with Some _ => true | None => false end)%char.

(** *** Structural equality *)

(** Equality of values by their structure, as the specification words it
    for composite literals: primitives by value, sequences element by
    element in order, mappings when they have the same keys with
    structurally equal values, whatever the order the keys were added
    in. *)
Fixpoint lookup_prop (k : string) (ps : list (string * value)) : option value :=
  match ps with
  | [] => None
  | (k', x) :: ps' => if (k' =? k)%string then Some x else lookup_prop k ps'
  end.

Fixpoint struct_eq (a b : value) : bool :=
  match a, b with
  | JUndefined, JUndefined | JNull, JNull => true
  | JBool x, JBool y => Bool.eqb x y
  | JNum x, JNum y | JBigInt x, JBigInt y => (x =? y)%Z
  | JStr x, JStr y => (x =? y)%string
  | JArr xs, JArr ys =>
      (fix all2 (xs ys : list value) : bool :=
         match xs, ys with
         | [], [] => true
         | x :: xs', y :: ys' => struct_eq x y && all2 xs' ys'
         | _, _ => false
         end) xs ys
  | JObj ps, JObj qs =>
      (length ps =? length qs)%nat
      && (fix each (ps : list (string * value)) : bool :=
            match ps with
            | [] => true
            | (k, x) :: ps' =>
                match lookup_prop k qs with
                | Some y => struct_eq x y
                | None => false
                end && each ps'
            end) ps
  | _, _ => false
  end.

(** The text of one object member. *)
Definition member_text (p : string * value) : string :=
  quote p.1 +:+ ":" +:+ text p.2.

(** [parse_value] reads a value back from its text, whatever follows. *)
Definition reads_back (x : value) : Prop :=
  forall (fuel : nat) (rest : string),
    (size x <= fuel)%nat -> stop rest = true ->
    parse_value fuel (text x +:+ rest) = POk x rest.

End Json.

Import Json.

(* ===================================================================== *)
(** ** The cache class *)
(* ===================================================================== *)

(** An entry of the store, [{ t, v }]: [t] is the absolute expiry time
    in milliseconds ([0]: never), [v] the stored value.  The class stores
    what [stringify] returned, a string or [undefined] ([None]). *)
Record entry : Type := Entry { t : Z; v : option string }.

(** The five kinds of notification the class emits. *)
Inductive event : Type :=
| EvSet (key value : Json.value)
| EvExpired (key value : Json.value)
| EvDel (key value : Json.value)
| EvFlush
| EvError.

(** The instance: the two constructor parameters (which are also the
    [stdTTL] and [checkperiod] options of [m_cache]), the [data] object
    of [m_cache] (a JavaScript object used as a map from key token to
    entry; its enumeration order is that of the finite map), and the
    notifications the instance has emitted so far, oldest first. *)
Record cache : Type := Cache {
  m_ttl : Z;
  m_checkPeriod : Z;
  data : gmap string entry;
  emitted : list event
}.

Inductive error : Type :=
| KeyNotFound     (* new Error('Key not found') *)
| EKEYTYPE        (* the store refuses a key that is neither string nor number *)
| TypeError       (* JSON.stringify on a BigInt *)
| SyntaxError.    (* JSON.parse on text that is not JSON *)

(** How a call ends: it returns, it throws, or the evaluation ran out of
    fuel (only the self-calling [unstringify] of [src/index.ts] does). *)
Inductive outcome (A : Type) : Type :=
| Ret (a : A)
| Throw (e : error)
| OutOfFuel.
Arguments Ret {A} a.
Arguments Throw {A} e.
Arguments OutOfFuel {A}.

(** A method is a function of the instance that gives an outcome and the
    instance after the call; a throw keeps the changes made before it.
    The methods are [async]: a rejected promise is a throw here.  A
    method that reads the clock takes [now], the value of [Date.now()]
    during the call, in milliseconds. *)
Definition M (A : Type) : Type := cache -> outcome A * cache.

Definition ret {A} (a : A) : M A := fun c => (Ret a, c).

Definition bind {A B} (m : M A) (k : A -> M B) : M B :=
  fun c =>
    match m c with
    | (Ret a, c') => k a c'
    | (Throw e, c') => (Throw e, c')
    | (OutOfFuel, c') => (OutOfFuel, c')
    end.

Definition throw {A} (e : error) : M A := fun c => (Throw e, c).

Definition lift {A} (o : outcome A) : M A := fun c => (o, c).

Definition read : M cache := fun c => (Ret c, c).

Definition set_data (d : gmap string entry) : M unit :=
  fun c => (Ret tt, Cache (m_ttl c) (m_checkPeriod c) d (emitted c)).

(** [this.emit(...)] of the class. *)
Definition emit (ev : event) : M unit :=
  fun c => (Ret tt, Cache (m_ttl c) (m_checkPeriod c) (data c) (emitted c ++ [ev])).

(** [try { body } catch { handler }]. *)
Definition try_catch {A} (body : M A) (handler : M A) : M A :=
  fun c =>
    match body c with
    | (Throw _, c') => handler c'
    | r => r
    end.

Declare Scope cache_scope.
Delimit Scope cache_scope with cache.
Notation "x <- m ;; k" := (bind m (fun x => k))
  (at level 62, m at next level, right associativity) : cache_scope.
Notation "m ;;; k" := (bind m (fun _ => k))
  (at level 62, right associativity) : cache_scope.
Local Open Scope cache_scope.

Fixpoint mapM {A B} (f : A -> M B) (l : list A) : M (list B) :=
  match l with
  | [] => ret []
  | a :: l' => b <- f a ;; bs <- mapM f l' ;; ret (b :: bs)
  end.

(** JavaScript truthiness of a stored value: [undefined] and the empty
    string are falsy. *)
Definition truthy (value : option string) : bool :=
  match value with
  | Some (String _ _) => true
  | Some EmptyString | None => false
  end.

(** The string an argument of [JSON.parse] is converted to. *)
Definition to_text (str : option string) : string :=
  match str with
  | Some s => s
  | None => "undefined"
  end.

(** A JavaScript [Map], as the list of its entries in insertion order.
    Keys are compared as [Map.prototype.set] does: primitives by value;
    an array or an object only equals itself, and the keys the class
    inserts are freshly decoded, so such a key is always new. *)
Definition same_value_zero (a b : Json.value) : bool :=
  match a, b with
  | JUndefined, JUndefined | JNull, JNull => true
  | JBool x, JBool y => Bool.eqb x y
  | JNum x, JNum y | JBigInt x, JBigInt y => (x =? y)%Z
  | JStr x, JStr y => (x =? y)%string
  | _, _ => false
  end.

Fixpoint map_set (k x : Json.value) (m : list (Json.value * Json.value))
  : list (Json.value * Json.value) :=
  match m with
  | [] => [(k, x)]
  | (k', x') :: m' =>
      if same_value_zero k' k then (k', x) :: m' else (k', x') :: map_set k x m'
  end.

(** A value encodes when [JSON.stringify] gives text for it. *)
Definition encodes (x : Json.value) : bool :=
  match JSON_stringify x with
  | SText _ => true
  | SUndef | SThrow => false
  end.

(** A value on which [JSON.stringify] throws. *)
Definition throws (x : Json.value) : bool :=
  match JSON_stringify x with
  | SThrow => true
  | SText _ | SUndef => false
  end.

(** Modelled from the package, not from the specification: the test of
    node-cache's [_check], [data.t !== 0 && data.t < Date.now()] (the
    package is imported at line 5 and is not under src/).  An entry is
    past its time when [t] is not [0] and lies before now.  The
    specification's section 3 says "expired when now >= expiresAt"; the
    package, on which the class runs, still serves the entry during the
    millisecond [t] itself.  The two differ at that one instant only
    (Example [get_in_time] is at it); the theorems below that fix a time
    have it strictly before or strictly after the expiry. *)
Definition expired (now : Z) (e : entry) : bool :=
  negb (t e =? 0)%Z && (t e <? now)%Z.

Section Class.

(** The private method [unstringify], in which the variants differ. *)
Variable unstringify : option string -> outcome Json.value.

(** *** Forwarding of the store's notifications (constructor) *)

(** [this.m_cache.on('set', (key, value) => this.emit('set',
    this.unstringify(key), this.unstringify(value)))], and the same for
    [expired] and [del]; [flush] is forwarded without arguments. *)

Definition on_set (key : string) (value : option string) : M unit :=
  k <- lift (unstringify (Some key)) ;;
  x <- lift (unstringify value) ;;
  emit (EvSet k x).

Definition on_expired (key : string) (value : option string) : M unit :=
  k <- lift (unstringify (Some key)) ;;
  x <- lift (unstringify value) ;;
  emit (EvExpired k x).

Definition on_del (key : string) (value : option string) : M unit :=
  k <- lift (unstringify (Some key)) ;;
  x <- lift (unstringify value) ;;
  emit (EvDel k x).

Definition on_flush : M unit := emit EvFlush.

(** *** The store behind [m_cache] *)

(* The store is the node-cache package, which the source imports
   (line 5) and which is not under src/.  The specification describes it
   in sections 3, 4.2 to 4.4 and 4.6: a mapping from key token to an
   entry with an absolute expiry, reads that treat an entry past its
   time as absent, removal that notifies only when something was
   removed, a flush that notifies once.  What the specification leaves
   open follows the documented behaviour of the package: a time to live
   is in seconds and times are in milliseconds; an expiry of 0 means no
   expiry; a key that is undefined is refused with an error; listeners
   run inside the call that notifies, so a listener that throws makes
   that call throw.

   In three places the package does not do what the specification
   says, and the definition follows the package, because the class
   runs on it; each of them says so in its comment:
     - [expired]: the entry is still served during the millisecond of
       its expiry (section 3 counts it as expired);
     - [nc_check]: a read that finds an entry past its time removes it
       and notifies del and expired (section 4.5 and the glossary: reads
       do not remove, expired comes from the sweep);
     - [nc_keys]: all keys are listed, also those of entries past their
       time (section 4.2: only the keys that are not expired).
   A property that states what only the package does says so.

   The periodic sweep is not modelled: no property below lets time
   pass. *)

(** Modelled from the spec: node-cache's [_wrap(value, ttl)].  The
    expiry is [now + ttl * 1000], and [0] when [ttl] is [0]. *)
Definition wrap (value : option string) (ttl now : Z) : entry :=
  Entry (if (ttl =? 0)%Z then 0 else now + ttl * 1000) value.

(** Modelled from the spec: node-cache's [del(keys)].  It refuses a key
    that is [undefined], removes each key that is present, notifies
    [del] with the token and the removed value, and counts the removals;
    an absent key is passed over. *)
Fixpoint nc_del (keys : list (option string)) : M nat :=
  match keys with
  | [] => ret O
  | None :: _ => throw EKEYTYPE
  | Some key :: rest =>
      c <- read ;;
      match data c !! key with
      | Some oldVal =>
          set_data (delete key (data c)) ;;;
          on_del key (v oldVal) ;;;
          n <- nc_del rest ;;
          ret (S n)
      | None => nc_del rest
      end
  end.

(** Modelled from the package, not from the specification: node-cache's
    [_check(key, data)], with the package's default [deleteOnExpire]
    (the class passes no such option).  An entry past its time is
    deleted, which notifies [del], and then [expired] is notified; the
    result says whether the entry may be used.  The specification's
    section 4.5 attributes [expired] to the periodic sweep alone and its
    glossary says that a read does not remove; the package, on which the
    class runs, removes and notifies on the read that finds the entry.
    For what a read returns the two agree: the entry is treated as
    absent. *)
Definition nc_check (key : string) (e : entry) (now : Z) : M bool :=
  if expired now e then
    nc_del [Some key] ;;;
    on_expired key (v e) ;;;
    ret false
  else ret true.

(** Modelled from the spec: node-cache's [get(key)].  The stored value
    when the entry is present and in time, [undefined] otherwise. *)
Definition nc_get (key : option string) (now : Z) : M (option string) :=
  match key with
  | None => throw EKEYTYPE
  | Some k =>
      c <- read ;;
      match data c !! k with
      | Some e =>
          ok <- nc_check k e now ;;
          if ok : bool then ret (v e) else ret None
      | None => ret None
      end
  end.

(** Modelled from the spec: node-cache's [set(key, value)], called
    without a time to live, so that the default one applies.  It
    overwrites the entry and notifies [set]. *)
Definition nc_set (key : option string) (value : option string) (now : Z) : M bool :=
  match key with
  | None => throw EKEYTYPE
  | Some k =>
      c <- read ;;
      set_data (<[k := wrap value (m_ttl c) now]> (data c)) ;;;
      on_set k value ;;;
      ret true
  end.

(** Modelled from the spec: node-cache's [ttl(key, ttl)].  A time to
    live of [0] stands for the default one; a falsy key is not looked up
    at all; an entry that is present and in time gets the new expiry, or
    is deleted when the time to live is negative. *)
Definition nc_ttl (key : option string) (ttl now : Z) : M bool :=
  c <- read ;;
  let ttl := if (ttl =? 0)%Z then m_ttl c else ttl in
  if truthy key then
    let k := to_text key in
    match data c !! k with
    | Some e =>
        ok <- nc_check k e now ;;
        if ok : bool then
          (if (0 <=? ttl)%Z
           then c' <- read ;; set_data (<[k := wrap (v e) ttl now]> (data c'))
           else nc_del [Some k] ;;; ret tt) ;;;
          ret true
        else ret false
    | None => ret false
    end
  else ret false.

(** Modelled from the spec: node-cache's [mget(keys)].  The object it
    returns has a property for every requested key that is present and
    in time; [oRet] is that object while it is being filled. *)
Fixpoint nc_mget (keys : list (option string)) (now : Z)
    (oRet : gmap string (option string)) : M (gmap string (option string)) :=
  match keys with
  | [] => ret oRet
  | None :: _ => throw EKEYTYPE
  | Some key :: rest =>
      c <- read ;;
      match data c !! key with
      | Some e =>
          ok <- nc_check key e now ;;
          if ok : bool then nc_mget rest now (<[key := v e]> oRet)
          else nc_mget rest now oRet
      | None => nc_mget rest now oRet
      end
  end.

(** Modelled from the package, not from the specification: node-cache's
    [keys()], which is [Object.keys(this.data)]: every key of [data],
    without a look at the expiry.  The specification's section 4.2 says
    that [keys()] lists the keys that are not expired; the package, on
    which the class runs, also lists a key whose entry is past its time
    and was not removed yet.  The finite map gives the keys in its own
    order, not in the order they were added: the properties below speak
    of membership only. *)
Definition nc_keys : M (list string) :=
  c <- read ;; ret (map_to_list (data c)).*1.

(** Modelled from the spec: node-cache's [flushAll()].  It replaces
    [data] by an empty object and notifies [flush]. *)
Definition nc_flushAll : M unit :=
  set_data ∅ ;;; on_flush.

(** *** The methods of the class *)

(** [stringify(str)]: [JSON.stringify(str)], which gives a string or
    [undefined], or throws. *)
Definition stringify (str : Json.value) : M (option string) :=
  match JSON_stringify str with
  | SText s => ret (Some s)
  | SUndef => ret None
  | SThrow => throw TypeError
  end.

(** [del(key)]. *)
Definition del (key : Json.value) : M unit :=
  k <- stringify key ;;
  nc_del [k] ;;;
  ret tt.

(** [flush()]. *)
Definition flush : M unit := nc_flushAll.

(** [get(key)]: a falsy value from the store is a miss. *)
Definition get (key : Json.value) (now : Z) : M Json.value :=
  set_key <- stringify key ;;
  value <- nc_get set_key now ;;
  if truthy value then lift (unstringify value)
  else throw KeyNotFound.

(** [exists(key)]: [try { await this.get(key); return true } catch
    { return false }]. *)
Definition exists_ (key : Json.value) (now : Z) : M bool :=
  try_catch (get key now ;;; ret true) (ret false).

(** [keys()]. *)
Definition keys : M (list Json.value) :=
  ks <- nc_keys ;;
  mapM (fun key => lift (unstringify (Some key))) ks.

(** [mdel(keys)]: every key is encoded, then the store removes them. *)
Definition mdel (keys : list Json.value) : M unit :=
  fetch_keys <- mapM stringify keys ;;
  nc_del fetch_keys ;;;
  ret tt.

(** The loop of [mget] over [Object.keys(data)]: a property with a
    truthy value is decoded and set in the map. *)
Fixpoint mget_values (entries : list (string * option string))
    (values : list (Json.value * Json.value)) : M (list (Json.value * Json.value)) :=
  match entries with
  | [] => ret values
  | (key, value) :: rest =>
      if truthy value then
        k <- lift (unstringify (Some key)) ;;
        x <- lift (unstringify value) ;;
        mget_values rest (map_set k x values)
      else mget_values rest values
  end.

(** [mget(keys)]. *)
Definition mget (keys : list Json.value) (now : Z) : M (list (Json.value * Json.value)) :=
  fetch_keys <- mapM stringify keys ;;
  data <- nc_mget fetch_keys now ∅ ;;
  mget_values (map_to_list data) [].

(** [list()]: [this.mget(await this.keys())]. *)
Definition list_ (now : Z) : M (list (Json.value * Json.value)) :=
  ks <- keys ;;
  mget ks now.

(** [set(key, value, ttl = this.m_ttl)]: the store sets the entry under
    its default time to live, then gives it [ttl]. *)
Definition set (key value : Json.value) (ttl : option Z) (now : Z) : M unit :=
  c <- read ;;
  let ttl := default (m_ttl c) ttl in
  set_key <- stringify key ;;
  x <- stringify value ;;
  nc_set set_key x now ;;;
  nc_ttl set_key ttl now ;;;
  ret tt.

End Class.

(** [new Cache(m_ttl, m_checkPeriod)], both parameters with their
    defaults when [None]. *)
Definition new (ttl checkPeriod : option Z) : cache :=
  Cache (default 300 ttl) (default 30 checkPeriod) ∅ [].

(** *** The canonical variant: [unstringify] is [JSON.parse] *)

Module Canonical.

Definition unstringify (str : option string) : outcome Json.value :=
  match JSON_parse (to_text str) with
  | Parsed x => Ret x
  | SyntaxErr => Throw SyntaxError
  | NoFuel => OutOfFuel
  end.

Definition del := del unstringify.
Definition exists_ := exists_ unstringify.
Definition flush := flush.
Definition get := get unstringify.
Definition keys := keys unstringify.
Definition list_ := list_ unstringify.
Definition mdel := mdel unstringify.
Definition mget := mget unstringify.
Definition set := set unstringify.

End Canonical.

(** *** The variant of [src/index.ts]: [unstringify] calls itself *)

Module IndexTs.

(** [return this.unstringify(str)]: each unit of fuel pays for one
    call, and the body is nothing but the next call. *)
Fixpoint unstringify (fuel : nat) (str : option string) : outcome Json.value :=
  match fuel with
  | O => OutOfFuel
  | S fuel' => unstringify fuel' str
  end.

Definition del (fuel : nat) := del (unstringify fuel).
Definition flush := flush.
Definition get (fuel : nat) := get (unstringify fuel).
Definition keys (fuel : nat) := keys (unstringify fuel).
Definition list_ (fuel : nat) := list_ (unstringify fuel).
Definition mdel (fuel : nat) := mdel (unstringify fuel).
Definition mget (fuel : nat) := mget (unstringify fuel).
Definition set (fuel : nat) := set (unstringify fuel).
Definition on_set (fuel : nat) := on_set (unstringify fuel).
Definition on_expired (fuel : nat) := on_expired (unstringify fuel).
Definition on_del (fuel : nat) := on_del (unstringify fuel).

End IndexTs.

(* ===================================================================== *)
(** ** Well-formed stores and the snapshot of the specification *)
(* ===================================================================== *)

(** A token is canonical when it is the text of a supported value, that
    is, when it parses to a supported value whose text it is. *)
Definition canonical (tok : string) : bool :=
  match JSON_parse tok with
  | Parsed x => is_supported x && (text x =? tok)%string
  | SyntaxErr | NoFuel => false
  end.

(** A store is well formed when every entry was written from a supported
    key and a supported value: both tokens are canonical. *)
Definition entry_ok (p : string * entry) : bool :=
  canonical p.1 && match v p.2 with Some s => canonical s | None => false end.

Definition store_ok (c : cache) : Prop :=
  forallb entry_ok (map_to_list (data c)) = true.

(** The value the store holds for a token, when the entry is in time. *)
Definition live_value (now : Z) (d : gmap string entry) (tok : string)
  : option (option string) :=
  match d !! tok with
  | Some e => if expired now e then None else Some (v e)
  | None => None
  end.

(** What [unstringify] returns, for use where it is known to return. *)
Definition decode (str : option string) : Json.value :=
  match Canonical.unstringify str with
  | Ret x => x
  | Throw _ | OutOfFuel => JUndefined
  end.

Definition decode_entry (p : string * option string) : Json.value * Json.value :=
  (decode (Some p.1), decode p.2).


(** A property of the object the store's [mget] returns: both tokens are
    texts of supported values. *)
Definition token_entry_ok (p : string * option string) : Prop :=
  exists k x, supported k /\ p.1 = text k /\ supported x /\ p.2 = Some (text x).

(** The instance after [m_cache.set(set_key, x)] returned. *)
Definition after_nc_set (c : cache) (tok : string) (x : option string)
    (now : Z) (ev : event) : cache :=
  Cache (m_ttl c) (m_checkPeriod c)
    (<[tok := wrap x (m_ttl c) now]> (data c)) (emitted c ++ [ev]).

(** A method that never runs out of fuel. *)
Definition terminates {A} (m : M A) : Prop := forall c, fst (m c) <> OutOfFuel.

(** The instance after [new Cache()] and [set("a", {x: 1})] at time
    1000, for the examples; in the variant of [src/index.ts] the call
    does not come back, and the instance is the one it leaves behind. *)
Definition sample : cache :=
  snd (Canonical.set (JStr "a") (JObj [("x", JNum 1)]) None 1000 (new None None)).

Definition index_sample : cache :=
  snd (IndexTs.set 1 (JStr "a") (JObj [("x", JNum 1)]) None 1000 (new None None)).

(** Induction over values that reaches the elements of arrays and the
    property values of objects. *)
Section value_induction.
Variable P : value -> Prop.
Hypothesis Hundef : P JUndefined.
Hypothesis Hnull : P JNull.
Hypothesis Hbool : forall b, P (JBool b).
Hypothesis Hnum : forall n, P (JNum n).
Hypothesis Hbig : forall n, P (JBigInt n).
Hypothesis Hstr : forall s, P (JStr s).
Hypothesis Harr : forall xs, Forall P xs -> P (JArr xs).
Hypothesis Hobj : forall ps, Forall (fun p => P p.2) ps -> P (JObj ps).

Fixpoint value_nested_ind (v : value) : P v :=
  match v with
  | JUndefined => Hundef
  | JNull => Hnull
  | JBool b => Hbool b
  | JNum n => Hnum n
  | JBigInt n => Hbig n
  | JStr s => Hstr s
  | JArr xs =>
      Harr xs ((fix go (l : list value) : Forall P l :=
                  match l with
                  | [] => @List.Forall_nil _ P
                  | x :: l' => @List.Forall_cons _ P x l' (value_nested_ind x) (go l')
                  end) xs)
  | JObj ps =>
      Hobj ps ((fix go (l : list (string * value)) : Forall (fun p => P p.2) l :=
                  match l with
                  | [] => @List.Forall_nil _ (fun p => P p.2)
                  | p :: l' => @List.Forall_cons _ (fun p => P p.2) p l' (value_nested_ind p.2) (go l')
                  end) ps)
  end.
End value_induction.

(* ===================================================================== *)
(** ** The method [ttl], and further notions for the properties *)
(* ===================================================================== *)

Section TtlMethod.

Variable unstringify : option string -> outcome Json.value.

(** Modelled from the spec: node-cache's [getTtl(key)] (the package is
    not under src/).  A falsy key is not looked up; an entry that is
    present and in time gives its expiry [t] ([0] when it has none),
    anything else gives [undefined]. *)
Definition nc_getTtl (key : option string) (now : Z) : M (option Z) :=
  if truthy key then
    let k := to_text key in
    c <- read ;;
    match data c !! k with
    | Some e =>
        ok <- nc_check unstringify k e now ;;
        if ok : bool then ret (Some (t e)) else ret None
    | None => ret None
    end
  else ret None.

(** [ttl(key)]: [const ttl = this.m_cache.getTtl(this.stringify(key));
    if (!ttl) throw new Error('Key not found'); return ttl].  Both
    [undefined] and [0] are falsy. *)
Definition ttl (key : Json.value) (now : Z) : M Z :=
  k <- stringify key ;;
  r <- nc_getTtl k now ;;
  match r with
  | Some time => if (time =? 0)%Z then throw KeyNotFound else ret time
  | None => throw KeyNotFound
  end.

End TtlMethod.

(** [for (const key of keys) await this.del(key)]: the keys deleted by
    one call of [del] after the other, what a caller without [mdel]
    would write; [mdel] is compared with it below. *)
Fixpoint del_each (unstringify : option string -> outcome Json.value)
    (keys : list Json.value) : M unit :=
  match keys with
  | [] => ret tt
  | key :: rest => del unstringify key ;;; del_each unstringify rest
  end.

(** The time to live the store ends up applying in [set]: the one given,
    the default one when it is omitted or [0]. *)
Definition effective_ttl (c : cache) (ttl : option Z) : Z :=
  if (default (m_ttl c) ttl =? 0)%Z then m_ttl c else default (m_ttl c) ttl.

(** What a call leaves alone: the two constructor parameters are the
    same, every entry of the store afterwards was there before,
    unchanged, and the notifications emitted before are still there, in
    order, before the new ones. *)
Definition keeps (c c' : cache) : Prop :=
  m_ttl c' = m_ttl c
  /\ m_checkPeriod c' = m_checkPeriod c
  /\ (forall tok e, data c' !! tok = Some e -> data c !! tok = Some e)
  /\ exists evs, emitted c' = emitted c ++ evs.

Definition read_only {A} (m : M A) : Prop := forall c, keeps c (snd (m c)).




(** The values [JSON.parse] can give: no [undefined] and no BigInt
    anywhere, and no object with a repeated name. *)
Fixpoint is_plain (x : Json.value) : bool :=
  match x with
  | JUndefined | JBigInt _ => false
  | JNull | JBool _ | JNum _ | JStr _ => true
  | JArr xs => forallb is_plain xs
  | JObj ps => bool_decide (NoDup ps.*1) && forallb (fun p => is_plain p.2) ps
  end.

(* ===================================================================== *)
(** ** Facts about the JSON codec *)
(* ===================================================================== *)

Module JsonFacts.

Lemma append_cons (c : ascii) (a b : string) :
  String c a +:+ b = String c (a +:+ b).
Proof. reflexivity. Qed.

Lemma append_nil_l (a : string) : EmptyString +:+ a = a.
Proof. reflexivity. Qed.

Lemma append_assoc (a b c : string) : (a +:+ b) +:+ c = a +:+ (b +:+ c).
Proof.
  induction a as [|x a IH]; [reflexivity|].
  rewrite !append_cons. now rewrite IH.
Qed.

Lemma append_nil_r (a : string) : a +:+ EmptyString = a.
Proof.
  induction a as [|x a IH]; [reflexivity|].
  rewrite append_cons. now rewrite IH.
Qed.

Lemma length_append (a b : string) :
  String.length (a +:+ b) = (String.length a + String.length b)%nat.
Proof.
  induction a as [|x a IH]; [reflexivity|].
  rewrite append_cons. simpl. now rewrite IH.
Qed.

(** **** [serialize] on supported values *)

Lemma serialize_supported (v : value) :
  supported v -> serialize v = SText (text v).
Proof.
  unfold supported.
  induction v as [| |b|n|n|s|xs IH|ps IH] using value_nested_ind;
    simpl; intros Hs; try discriminate; try reflexivity.
  - now destruct b.
  - assert (E : serialize_elements serialize xs = Some (map text xs)).
    { induction IH as [|x xs Hx _ IHxs]; simpl in *; [reflexivity|].
      apply andb_prop in Hs as [H1 H2].
      rewrite (Hx H1), (IHxs H2). reflexivity. }
    now rewrite E.
  - apply andb_prop in Hs as [_ Hs].
    assert (E : serialize_members serialize ps
                = Some (map (fun p => quote p.1 +:+ ":" +:+ text p.2) ps)).
    { induction IH as [|[k x] ps Hx _ IHps]; simpl in *; [reflexivity|].
      apply andb_prop in Hs as [H1 H2].
      rewrite (Hx H1), (IHps H2). reflexivity. }
    now rewrite E.
Qed.

(** **** Strings: reading back what [quote] wrote *)

Lemma parse_chars_quote_char (c : ascii) (tail : string) :
  parse_chars (quote_char c +:+ tail) = cons_char c (parse_chars tail).
Proof.
  destruct c as [[] [] [] [] [] [] [] []]; reflexivity.
Qed.

Lemma parse_chars_quote_chars (s rest : string) :
  parse_chars (quote_chars s +:+ String dq rest) = Some (s, rest).
Proof.
  induction s as [|c s IH]; [reflexivity|].
  simpl quote_chars. rewrite append_assoc, parse_chars_quote_char, IH.
  reflexivity.
Qed.

(** **** Numbers: reading back the decimal digits *)

Lemma parse_digits_string_of_uint (d : uint) (rest : string) :
  no_digit_head rest ->
  parse_digits (NilEmpty.string_of_uint d +:+ rest) = (d, rest).
Proof.
  intros Hrest.
  induction d; simpl NilEmpty.string_of_uint;
    rewrite ?append_cons; simpl; rewrite ?IHd; try reflexivity.
  destruct rest as [|c r]; [reflexivity|].
  simpl in *. now rewrite Hrest.
Qed.

Lemma unorm_to_uint (p : positive) : unorm (Pos.to_uint p) = Pos.to_uint p.
Proof.
  rewrite <- DecimalPos.Unsigned.to_of, DecimalPos.Unsigned.of_to.
  reflexivity.
Qed.

Lemma stop_no_digit (rest : string) : stop rest = true -> no_digit_head rest.
Proof.
  destruct rest as [|c r]; simpl; [trivial|].
  intros H. apply orb_prop in H as [H|H]; [apply orb_prop in H as [H|H]|];
    apply Ascii.eqb_eq in H; subst c; reflexivity.
Qed.

Lemma stop_no_fraction (rest : string) :
  stop rest = true -> starts_fraction rest = false.
Proof.
  destruct rest as [|c r]; simpl; [trivial|].
  intros H. apply orb_prop in H as [H|H]; [apply orb_prop in H as [H|H]|];
    apply Ascii.eqb_eq in H; subst c; reflexivity.
Qed.

Lemma string_of_uint_head (d : uint) :
  d <> Nil ->
  exists c r, NilEmpty.string_of_uint d = String c r /\ digit_of c <> None.
Proof.
  destruct d; intros Hd; try congruence; simpl; eexists _, _; split;
    try reflexivity; discriminate.
Qed.

Lemma parse_number_unsigned (d : uint) (rest : string) :
  d <> Nil -> unorm d = d -> stop rest = true ->
  parse_number (NilEmpty.string_of_uint d +:+ rest) = Some (Z.of_int (Pos d), rest).
Proof.
  intros Hd Hn Hrest.
  unfold parse_number.
  destruct (string_of_uint_head d Hd) as (c & r & E & Hc).
  assert (Hm : (c =? "-")%char = false).
  { destruct (Ascii.eqb_spec c "-"); [subst c; now elim Hc | reflexivity]. }
  rewrite E. rewrite append_cons. rewrite Hm.
  rewrite <- append_cons, <- E.
  rewrite parse_digits_string_of_uint by now apply stop_no_digit.
  rewrite Hn, stop_no_fraction by assumption.
  now rewrite (Decimal.internal_uint_dec_lb d d eq_refl).
Qed.

Lemma parse_number_to_string (n : Z) (rest : string) :
  stop rest = true ->
  parse_number (number_to_string n +:+ rest) = Some (n, rest).
Proof.
  intros Hrest. unfold number_to_string.
  rewrite <- (DecimalZ.of_to n) at 2.
  destruct n as [|p|p]; simpl Z.to_int; simpl NilEmpty.string_of_int.
  - now apply (parse_number_unsigned (D0 Nil)).
  - apply parse_number_unsigned;
      [apply DecimalPos.Unsigned.to_uint_nonnil | apply unorm_to_uint | assumption].
  - unfold parse_number. rewrite append_cons.
    change (("-" =? "-")%char) with true. cbv iota.
    rewrite parse_digits_string_of_uint by now apply stop_no_digit.
    rewrite unorm_to_uint, stop_no_fraction by assumption.
    now rewrite (Decimal.internal_uint_dec_lb _ _ eq_refl).
Qed.

(** **** Values: reading back what [serialize] wrote *)

Lemma value_start_facts (c : ascii) :
  value_start c = true ->
  is_ws c = false /\ (c =? "]")%char = false /\ (c =? "}")%char = false.
Proof.
  destruct c as [[] [] [] [] [] [] [] []]; intros H; try discriminate H;
    repeat split; reflexivity.
Qed.

Lemma number_head (n : Z) :
  exists c r, number_to_string n = String c r
              /\ ((c =? "-")%char = true \/ digit_of c <> None).
Proof.
  unfold number_to_string.
  destruct n as [|p|p]; simpl Z.to_int; simpl NilEmpty.string_of_int.
  - eexists _, _; split; [reflexivity | right; discriminate].
  - destruct (string_of_uint_head (Pos.to_uint p)) as (c & r & E & Hc);
      [apply DecimalPos.Unsigned.to_uint_nonnil|].
    exists c, r. split; [assumption | now right].
  - eexists _, _; split; [reflexivity | now left].
Qed.

Lemma number_dispatch (c : ascii) :
  (c =? "-")%char = true \/ digit_of c <> None ->
  is_ws c = false /\ (c =? "n")%char = false /\ (c =? "t")%char = false
  /\ (c =? "f")%char = false /\ (c =? dq)%char = false
  /\ (c =? "[")%char = false /\ (c =? "{")%char = false
  /\ value_start c = true.
Proof.
  destruct c as [[] [] [] [] [] [] [] []]; intros [H|H];
    try discriminate H; try (now elim H); repeat split; reflexivity.
Qed.

Lemma text_head (v : value) :
  supported v -> exists c r, text v = String c r /\ value_start c = true.
Proof.
  unfold supported.
  destruct v as [| |b|n|n|s|xs|ps]; simpl; intros Hs; try discriminate;
    try (eexists _, _; split; reflexivity).
  - destruct b; eexists _, _; split; reflexivity.
  - destruct (number_head n) as (c & r & E & Hc).
    exists c, r. split; [assumption | now apply number_dispatch].
Qed.

Lemma skip_ws_start (c : ascii) (r : string) :
  value_start c = true -> skip_ws (String c r) = String c r.
Proof.
  intros H. apply value_start_facts in H as (H & _). simpl. now rewrite H.
Qed.

Lemma skip_ws_stop (rest : string) : stop rest = true -> skip_ws rest = rest.
Proof.
  destruct rest as [|c r]; simpl; [trivial|].
  intros H. apply orb_prop in H as [H|H]; [apply orb_prop in H as [H|H]|];
    apply Ascii.eqb_eq in H; subst c; reflexivity.
Qed.

Lemma join_cons2 (sep a b : string) (l : list string) :
  join sep (a :: b :: l) = a +:+ sep +:+ join sep (b :: l).
Proof. reflexivity. Qed.

Lemma parse_elements_text (l : list value) :
  Forall reads_back l -> l <> [] ->
  forall (fuel : nat) (rest : string),
    (list_sum (map (fun x => S (size x)) l) <= fuel)%nat ->
    parse_elements fuel (join "," (map text l) +:+ String "]" rest) = POk l rest.
Proof.
  induction 1 as [|x l Hx Hl IH]; [congruence|]. intros _ fuel rest Hfuel.
  simpl in Hfuel. destruct fuel as [|f]; [lia|].
  destruct l as [|y l'].
  - simpl. rewrite Hx by (reflexivity || lia). reflexivity.
  - simpl map. rewrite join_cons2, !append_assoc.
    change ("," +:+ ?t) with (String "," t).
    simpl parse_elements.
    rewrite Hx by (reflexivity || lia).
    simpl. rewrite IH; [reflexivity | discriminate | simpl in *; lia].
Qed.

Lemma parse_members_text (l : list (string * value)) :
  Forall (fun p => reads_back p.2) l -> l <> [] ->
  forall (fuel : nat) (rest : string),
    (list_sum (map (fun p => S (size p.2)) l) <= fuel)%nat ->
    parse_members fuel (join "," (map member_text l) +:+ String "}" rest) = POk l rest.
Proof.
  induction 1 as [|[k x] l Hx Hl IH]; [congruence|]. intros _ fuel rest Hfuel.
  simpl in Hfuel, Hx. destruct fuel as [|f]; [lia|].
  assert (Hhead : forall tail,
    parse_members (S f) (member_text (k, x) +:+ tail)
    = match parse_value f (text x +:+ tail) with
      | POk v r3 =>
          match skip_ws r3 with
          | EmptyString => PErr
          | String c3 r4 =>
              if (c3 =? ",")%char then pcons (k, v) (parse_members f r4)
              else if (c3 =? "}")%char then POk [(k, v)] r4
              else PErr
          end
      | PErr => PErr
      | PFuel => PFuel
      end).
  { intros tail. unfold member_text, quote. simpl fst. simpl snd.
    rewrite !append_cons, !append_assoc.
    change (str1 dq +:+ ?t) with (String dq t).
    change (":" +:+ ?t) with (String ":" t).
    simpl parse_members.
    rewrite parse_chars_quote_chars. reflexivity. }
  destruct l as [|y l'].
  - simpl map. simpl join. rewrite Hhead.
    rewrite Hx by (reflexivity || lia). reflexivity.
  - simpl map. rewrite join_cons2, !append_assoc.
    change ("," +:+ ?t) with (String "," t).
    rewrite Hhead.
    rewrite Hx by (reflexivity || lia).
    simpl. change (member_text y :: map member_text l')
      with (map member_text (y :: l')).
    rewrite IH; [reflexivity | discriminate | simpl in *; lia].
Qed.

(** Defining the members of an object one after the other gives them
    back in order when no name repeats. *)
Lemma set_prop_fresh (k : string) (v : value) (o : list (string * value)) :
  k ∉ o.*1 -> set_prop k v o = o ++ [(k, v)].
Proof.
  induction o as [|[k' v'] o IH]; simpl; intros Hk; [reflexivity|].
  apply not_elem_of_cons in Hk as [Hne Hk].
  destruct (String.eqb_spec k' k); [congruence|].
  now rewrite IH.
Qed.

Lemma fold_set_prop_nodup (ms o : list (string * value)) :
  NoDup (o.*1 ++ ms.*1) ->
  fold_left (fun o m => set_prop m.1 m.2 o) ms o = o ++ ms.
Proof.
  revert o. induction ms as [|[k v] ms IH]; intros o Hnd; simpl.
  - now rewrite app_nil_r.
  - rewrite set_prop_fresh.
    + rewrite IH.
      * now rewrite <- app_assoc.
      * rewrite fmap_app. simpl. now rewrite <- app_assoc.
    + simpl in Hnd. apply NoDup_app in Hnd as (_ & Hd & _).
      intros Hin. apply (Hd k Hin). left.
Qed.

Lemma obj_of_members_nodup (ms : list (string * value)) :
  NoDup ms.*1 -> obj_of_members ms = ms.
Proof.
  intros H. unfold obj_of_members. now rewrite fold_set_prop_nodup.
Qed.

Lemma supported_arr (xs : list value) :
  supported (JArr xs) -> Forall supported xs.
Proof.
  unfold supported. simpl. intros H. apply Forall_forall. intros x Hx.
  rewrite forallb_forall in H. apply H. now apply list_elem_of_In.
Qed.

Lemma supported_obj (ps : list (string * value)) :
  supported (JObj ps) -> NoDup ps.*1 /\ Forall (fun p => supported p.2) ps.
Proof.
  unfold supported. simpl. intros H. apply andb_prop in H as [H1 H2].
  apply andb_prop in H1 as [_ H1].
  split; [now apply bool_decide_eq_true in H1|].
  apply Forall_forall. intros x Hx.
  rewrite forallb_forall in H2. apply H2. now apply list_elem_of_In.
Qed.

Lemma parse_text (v : value) : supported v -> reads_back v.
Proof.
  induction v as [| |b|n|n|s|xs IH|ps IH] using value_nested_ind;
    intros Hs fuel rest Hfuel Hrest; try discriminate Hs;
    (destruct fuel as [|f]; [simpl in Hfuel; lia|]).
  - reflexivity.
  - destruct b; reflexivity.
  - destruct (number_head n) as (c & r & E & Hc).
    pose proof (parse_number_to_string n rest Hrest) as Hn.
    simpl text. rewrite E in *. rewrite append_cons in *.
    apply number_dispatch in Hc as (H1 & H2 & H3 & H4 & H5 & H6 & H7 & _).
    simpl. rewrite H1, H2, H3, H4, H5, H6, H7, Hn. reflexivity.
  - simpl text. unfold quote. rewrite append_cons, append_assoc.
    change (str1 dq +:+ rest) with (String dq rest).
    simpl. now rewrite parse_chars_quote_chars.
  - apply supported_arr in Hs.
    assert (Hrb : Forall reads_back xs).
    { clear -IH Hs. induction IH as [|x xs Hx _ IHxs]; [constructor|].
      apply Forall_cons in Hs as [H1 H2]. constructor; auto. }
    simpl text. rewrite !append_cons, append_nil_l, append_assoc.
    change ("]" +:+ rest) with (String "]" rest).
    destruct xs as [|x xs]; [reflexivity|].
    pose proof (parse_elements_text (x :: xs) Hrb ltac:(discriminate) f rest) as Hel.
    apply Forall_cons in Hs as [Hx _].
    destruct (text_head x Hx) as (c & r & E & Hc).
    apply value_start_facts in Hc as (Hw & Hb & _).
    assert (Hj : exists t, join "," (map text (x :: xs)) +:+ String "]" rest = String c t).
    { simpl map. destruct (map text xs); [simpl join | rewrite join_cons2];
        rewrite E, append_cons; eauto. }
    destruct Hj as (t & Hj). rewrite Hj in *.
    simpl. rewrite Hw, Hb. simpl in Hfuel.
    rewrite Hel by (simpl; lia). reflexivity.
  - apply supported_obj in Hs as [Hnd Hs].
    assert (Hrb : Forall (fun p => reads_back p.2) ps).
    { clear -IH Hs. induction IH as [|x xs Hx _ IHxs]; [constructor|].
      apply Forall_cons in Hs as [H1 H2]. constructor; auto. }
    simpl text. fold member_text.
    change (fun p : string * value => quote p.1 +:+ ":" +:+ text p.2) with member_text.
    rewrite !append_cons, append_nil_l, append_assoc.
    change ("}" +:+ rest) with (String "}" rest).
    destruct ps as [|[k x] ps]; [reflexivity|].
    pose proof (parse_members_text ((k, x) :: ps) Hrb ltac:(discriminate) f rest) as Hel.
    assert (Hj : exists t,
      join "," (map member_text ((k, x) :: ps)) +:+ String "}" rest = String dq t).
    { simpl map. unfold member_text at 1, quote.
      destruct (map member_text ps); [simpl join | rewrite join_cons2];
        rewrite !append_cons; eauto. }
    destruct Hj as (t & Hj). rewrite Hj in *.
    simpl. simpl in Hfuel.
    rewrite Hel by (simpl; lia). simpl.
    now rewrite obj_of_members_nodup.
Qed.

(** The fuel [JSON_parse] gives covers the text of a supported value. *)
Lemma size_elements_length (l : list value) :
  Forall (fun x => (size x <= String.length (text x))%nat) l ->
  (list_sum (map (fun x => S (size x)) l)
   <= S (String.length (join "," (map text l))))%nat.
Proof.
  induction 1 as [|x l Hx Hl IH]; [simpl; lia|].
  destruct l as [|y l']; [simpl; lia|].
  unfold list_sum in *. cbn [map fold_right] in *.
  rewrite join_cons2, !length_append.
  change (String.length ",") with 1%nat. lia.
Qed.

Lemma size_members_length (l : list (string * value)) :
  Forall (fun p => (size p.2 <= String.length (text p.2))%nat) l ->
  (list_sum (map (fun p => S (size p.2)) l)
   <= S (String.length (join "," (map member_text l))))%nat.
Proof.
  induction 1 as [|[k x] l Hx Hl IH]; [simpl; lia|].
  assert (Hm : (size x < String.length (member_text (k, x)))%nat).
  { unfold member_text. rewrite !length_append. simpl in *. lia. }
  destruct l as [|y l']; [simpl in *; lia|].
  unfold list_sum in *. cbn [map fold_right snd] in *.
  rewrite join_cons2, !length_append.
  change (String.length ",") with 1%nat. lia.
Qed.

Lemma size_le_length (v : value) :
  supported v -> (size v <= String.length (text v))%nat.
Proof.
  induction v as [| |b|n|n|s|xs IH|ps IH] using value_nested_ind;
    intros Hs; try discriminate Hs.
  - simpl. lia.
  - destruct b; simpl; lia.
  - destruct (number_head n) as (c & r & E & _). simpl. rewrite E. simpl. lia.
  - simpl. lia.
  - apply supported_arr in Hs.
    assert (H : Forall (fun x => (size x <= String.length (text x))%nat) xs).
    { clear -IH Hs. induction IH as [|x xs Hx _ IHxs]; [constructor|].
      apply Forall_cons in Hs as [H1 H2]. constructor; auto. }
    apply size_elements_length in H.
    simpl text. rewrite !length_append. simpl in *. lia.
  - apply supported_obj in Hs as [_ Hs].
    assert (H : Forall (fun p => (size p.2 <= String.length (text p.2))%nat) ps).
    { clear -IH Hs. induction IH as [|x xs Hx _ IHxs]; [constructor|].
      apply Forall_cons in Hs as [H1 H2]. constructor; auto. }
    apply size_members_length in H.
    simpl text. change (fun p : string * value => quote p.1 +:+ ":" +:+ text p.2)
      with member_text.
    rewrite !length_append. simpl in *. lia.
Qed.

(** Round trip: parsing the text of a supported value gives the value. *)
Lemma JSON_parse_text (v : value) :
  supported v -> JSON_parse (text v) = Parsed v.
Proof.
  intros Hs. unfold JSON_parse.
  pose proof (parse_text v Hs (parse_fuel (text v)) EmptyString) as H.
  rewrite append_nil_r in H. rewrite H; [reflexivity| |reflexivity].
  pose proof (size_le_length v Hs). unfold parse_fuel. lia.
Qed.

Lemma JSON_roundtrip (v : value) :
  supported v ->
  exists t, JSON_stringify v = SText t /\ JSON_parse t = Parsed v.
Proof.
  intros Hs. exists (text v). split.
  - now apply serialize_supported.
  - now apply JSON_parse_text.
Qed.

(** **** [JSON_parse] never runs out of fuel *)

Abbreviation len := String.length.

Lemma skip_ws_length (s : string) : (len (skip_ws s) <= len s)%nat.
Proof.
  induction s as [|c s IH]; simpl; [lia|].
  destruct (is_ws c); simpl; lia.
Qed.

Lemma skip_ws_cons_length (s : string) (c : ascii) (r : string) :
  skip_ws s = String c r -> (len r < len s)%nat.
Proof.
  intros H. pose proof (skip_ws_length s) as Hl. rewrite H in Hl. simpl in Hl. lia.
Qed.

Lemma strip_prefix_length (p s r : string) :
  strip_prefix p s = Some r -> (len r <= len s)%nat.
Proof.
  revert s. induction p as [|c p IH]; intros s; simpl.
  - intros [= ->]. lia.
  - destruct s as [|d s]; [discriminate|].
    destruct (c =? d)%char; [|discriminate].
    intros H. apply IH in H. simpl. lia.
Qed.

Lemma literal_length (p : string) (v w : value) (s r : string) :
  literal p v s = POk w r -> (len r <= len s)%nat.
Proof.
  unfold literal. destruct (strip_prefix p s) eqn:E; [|discriminate].
  intros [= _ <-]. now apply strip_prefix_length in E.
Qed.

Lemma cons_char_length (c : ascii) (o : option (string * string)) (str r : string) :
  cons_char c o = Some (str, r) -> exists str', o = Some (str', r).
Proof.
  destruct o as [[str' r']|]; simpl; [|discriminate].
  intros [= _ <-]. eauto.
Qed.

Lemma parse_chars_length (s str r : string) :
  parse_chars s = Some (str, r) -> (len r < len s)%nat.
Proof.
  remember (len s) as n eqn:Hn. revert s str r Hn.
  induction n as [n IH] using lt_wf_ind. intros s str r -> H.
  destruct s as [|c s]; [discriminate|]. simpl in H.
  destruct (c =? dq)%char; [injection H as _ <-; simpl; lia|].
  destruct (c =? bs)%char.
  - destruct s as [|e s]; [discriminate|].
    destruct (e =? "u")%char.
    + destruct s as [|h1 [|h2 [|h3 [|h4 s]]]]; try discriminate.
      destruct (unicode_escape h1 h2 h3 h4); [|discriminate].
      apply cons_char_length in H as (str' & H).
      specialize (fun Hlt => IH (len s) Hlt _ _ _ eq_refl H) as IH'.
      simpl in *. lia.
    + destruct (simple_escape e); [|discriminate].
      apply cons_char_length in H as (str' & H).
      specialize (fun Hlt => IH (len s) Hlt _ _ _ eq_refl H) as IH'.
      simpl in *. lia.
  - destruct (N_of_ascii c <? 32)%N; [discriminate|].
    apply cons_char_length in H as (str' & H).
    specialize (fun Hlt => IH (len s) Hlt _ _ _ eq_refl H) as IH'.
      simpl in *. lia.
Qed.

Lemma parse_digits_length (s : string) (d : uint) (r : string) :
  parse_digits s = (d, r) ->
  (len r <= len s)%nat /\ (d <> Nil -> (len r < len s)%nat).
Proof.
  revert d r. induction s as [|c s IH]; intros d r; simpl.
  - intros [= <- <-]. split; [simpl; lia | congruence].
  - destruct (digit_of c).
    + destruct (parse_digits s) as [d' r'] eqn:E. intros [= <- <-].
      destruct (IH d' r' eq_refl) as [H _]. split; [lia | intros _; lia].
    + intros [= <- <-]. split; [simpl; lia | congruence].
Qed.

Lemma parse_number_length (s : string) (n : Z) (r : string) :
  parse_number s = Some (n, r) -> (len r < len s)%nat.
Proof.
  unfold parse_number.
  set (split := match s with
                | EmptyString => (false, s)
                | String c r0 => if (c =? "-")%char then (true, r0) else (false, s)
                end).
  assert (Hs : (len split.2 <= len s)%nat).
  { subst split. destruct s as [|c r0]; simpl; [lia|].
    destruct (c =? "-")%char; simpl; lia. }
  destruct split as [negative s1]. simpl in Hs.
  destruct (parse_digits s1) as [d rest] eqn:E.
  destruct (uint_beq (unorm d) d) eqn:Hb; [|discriminate].
  destruct (negb (starts_fraction rest)); [|discriminate].
  intros [= _ <-].
  apply parse_digits_length in E as [_ E].
  assert (d <> Nil); [|specialize (E ltac:(assumption)); lia].
  intros ->. discriminate Hb.
Qed.

Lemma pres_map_ok {A B} (f : A -> B) (p : pres A) (b : B) (r : string) :
  pres_map f p = POk b r -> exists a, p = POk a r.
Proof. destruct p; simpl; [|discriminate..]. intros [= _ <-]. eauto. Qed.

Lemma pres_map_fuel {A B} (f : A -> B) (p : pres A) :
  pres_map f p = PFuel -> p = PFuel.
Proof. now destruct p. Qed.

(** Every successful parse consumes at least one character. *)
Lemma parse_consumes (fuel : nat) :
  forall s : string,
    (forall v r, parse_value fuel s = POk v r -> (len r < len s)%nat)
    /\ (forall l r, parse_elements fuel s = POk l r -> (len r < len s)%nat)
    /\ (forall l r, parse_members fuel s = POk l r -> (len r < len s)%nat).
Proof.
  induction fuel as [|f IH]; intros s; [repeat split; discriminate|].
  repeat split.
  - intros v r. simpl.
    destruct (skip_ws s) as [|c r0] eqn:Es; [discriminate|].
    apply skip_ws_cons_length in Es.
    repeat (case_match; try discriminate);
      try (intros Hlit; apply literal_length in Hlit; lia).
    + intros [= _ <-].
      match goal with H : parse_chars _ = _ |- _ => apply parse_chars_length in H end.
      lia.
    + intros [= _ <-].
      match goal with H : skip_ws _ = _ |- _ => apply skip_ws_cons_length in H end.
      lia.
    + intros Hp. apply pres_map_ok in Hp as (l & Hp). apply IH in Hp. lia.
    + intros [= _ <-].
      match goal with H : skip_ws _ = _ |- _ => apply skip_ws_cons_length in H end.
      lia.
    + intros Hp. apply pres_map_ok in Hp as (l & Hp). apply IH in Hp. lia.
    + intros [= _ <-].
      match goal with H : parse_number _ = _ |- _ => apply parse_number_length in H end.
      simpl in *. lia.
  - intros l r. simpl.
    destruct (parse_value f s) as [v r1| |] eqn:Ev; [|discriminate..].
    apply IH in Ev.
    destruct (skip_ws r1) as [|c r2] eqn:Es; [discriminate|].
    apply skip_ws_cons_length in Es.
    repeat (case_match; try discriminate).
    + intros Hp. apply pres_map_ok in Hp as (l' & Hp). apply IH in Hp. lia.
    + intros [= _ <-]. lia.
  - intros l r. simpl.
    destruct (skip_ws s) as [|c r0] eqn:Es; [discriminate|].
    apply skip_ws_cons_length in Es.
    destruct (c =? dq)%char; [|discriminate].
    destruct (parse_chars r0) as [[k r1]|] eqn:Ek; [|discriminate].
    apply parse_chars_length in Ek.
    destruct (skip_ws r1) as [|c1 r2] eqn:Es1; [discriminate|].
    apply skip_ws_cons_length in Es1.
    destruct (c1 =? ":")%char; [|discriminate].
    destruct (parse_value f r2) as [v r3| |] eqn:Ev; [|discriminate..].
    apply IH in Ev.
    destruct (skip_ws r3) as [|c3 r4] eqn:Es3; [discriminate|].
    apply skip_ws_cons_length in Es3.
    repeat (case_match; try discriminate).
    + intros Hp. apply pres_map_ok in Hp as (l' & Hp). apply IH in Hp. lia.
    + intros [= _ <-]. lia.
Qed.

Lemma literal_fuel (p : string) (v : value) (s : string) : literal p v s <> PFuel.
Proof. unfold literal. now destruct (strip_prefix p s). Qed.

(** Two units of fuel per character are enough. *)
Lemma parse_enough_fuel (fuel : nat) :
  forall s : string,
    ((2 * len s < fuel)%nat -> parse_value fuel s <> PFuel)
    /\ ((2 * len s + 1 < fuel)%nat -> parse_elements fuel s <> PFuel)
    /\ ((2 * len s + 1 < fuel)%nat -> parse_members fuel s <> PFuel).
Proof.
  induction fuel as [|f IH]; intros s; [repeat split; lia|].
  repeat split.
  - intros Hf. simpl.
    destruct (skip_ws s) as [|c r0] eqn:Es; [discriminate|].
    apply skip_ws_cons_length in Es.
    repeat (case_match; try discriminate); try apply literal_fuel.
    + intros Hp. apply pres_map_fuel in Hp. revert Hp. apply IH. lia.
    + intros Hp. apply pres_map_fuel in Hp. revert Hp. apply IH. lia.
  - intros Hf. simpl.
    destruct (parse_value f s) as [v r1| |] eqn:Ev; [|discriminate|].
    + apply (parse_consumes f s) in Ev.
      destruct (skip_ws r1) as [|c r2] eqn:Es; [discriminate|].
      apply skip_ws_cons_length in Es.
      repeat (case_match; try discriminate).
      intros Hp. apply pres_map_fuel in Hp. revert Hp. apply IH. lia.
    + exfalso. revert Ev. apply IH. lia.
  - intros Hf. simpl.
    destruct (skip_ws s) as [|c r0] eqn:Es; [discriminate|].
    apply skip_ws_cons_length in Es.
    destruct (c =? dq)%char; [|discriminate].
    destruct (parse_chars r0) as [[k r1]|] eqn:Ek; [|discriminate].
    apply parse_chars_length in Ek.
    destruct (skip_ws r1) as [|c1 r2] eqn:Es1; [discriminate|].
    apply skip_ws_cons_length in Es1.
    destruct (c1 =? ":")%char; [|discriminate].
    destruct (parse_value f r2) as [v r3| |] eqn:Ev; [|discriminate|].
    + apply (parse_consumes f r2) in Ev.
      destruct (skip_ws r3) as [|c3 r4] eqn:Es3; [discriminate|].
      apply skip_ws_cons_length in Es3.
      repeat (case_match; try discriminate).
      intros Hp. apply pres_map_fuel in Hp. revert Hp. apply IH. lia.
    + exfalso. revert Ev. apply IH. lia.
Qed.

(** [JSON.parse] always returns a value or throws. *)
Lemma JSON_parse_total (t : string) : JSON_parse t <> NoFuel.
Proof.
  unfold JSON_parse.
  destruct (parse_value (parse_fuel t) t) as [v r| |] eqn:E.
  - now destruct (skip_ws r).
  - discriminate.
  - exfalso. revert E. apply parse_enough_fuel. unfold parse_fuel. lia.
Qed.

(** **** Tokens and equality *)

Lemma text_inj (a b : value) :
  supported a -> supported b -> text a = text b -> a = b.
Proof.
  intros Ha Hb E. apply JSON_parse_text in Ha, Hb. rewrite E in Ha. congruence.
Qed.

Lemma stringify_inj (a b : value) :
  supported a -> supported b -> JSON_stringify a = JSON_stringify b -> a = b.
Proof.
  intros Ha Hb. unfold JSON_stringify.
  rewrite (serialize_supported a Ha), (serialize_supported b Hb).
  intros [= E]. now apply text_inj.
Qed.

Lemma lookup_prop_nodup (ps : list (string * value)) (k : string) (x : value) :
  NoDup ps.*1 -> (k, x) ∈ ps -> lookup_prop k ps = Some x.
Proof.
  induction ps as [|[k' x'] ps IH]; simpl; intros Hnd Hin.
  - now apply elem_of_nil in Hin.
  - apply NoDup_cons in Hnd as [Hk Hnd].
    apply elem_of_cons in Hin as [[= -> ->]|Hin].
    + now rewrite String.eqb_refl.
    + destruct (String.eqb_spec k' k) as [->|Hne]; [|auto].
      exfalso. apply Hk. apply list_elem_of_fmap. now exists (k, x).
Qed.

Lemma struct_eq_refl (a : value) : supported a -> struct_eq a a = true.
Proof.
  induction a as [| |b|n|n|s|xs IH|ps IH] using value_nested_ind;
    intros Hs; try discriminate Hs; simpl.
  - reflexivity.
  - now destruct b.
  - apply Z.eqb_refl.
  - apply String.eqb_refl.
  - apply supported_arr in Hs.
    induction IH as [|x xs Hx _ IHxs]; [reflexivity|].
    apply Forall_cons in Hs as [H1 H2]. rewrite (Hx H1). simpl. auto.
  - apply supported_obj in Hs as [Hnd Hs]. rewrite Nat.eqb_refl. simpl.
    assert (Hall : forall p, p ∈ ps -> lookup_prop p.1 ps = Some p.2
                                        /\ struct_eq p.2 p.2 = true).
    { intros [k x] Hin. split; [now apply lookup_prop_nodup|].
      rewrite Forall_forall in IH, Hs. apply (IH _ Hin), (Hs _ Hin). }
    clear IH Hs Hnd.
    match goal with
    | |- ?f ps = true =>
        assert (Hgen : forall l, (forall p, p ∈ l -> p ∈ ps) -> f l = true)
    end.
    { induction l as [|[k x] l IHl]; intros Hsub; [reflexivity|].
      destruct (Hall (k, x)) as [Hl He]; [apply Hsub; left|]. simpl in Hl, He.
      rewrite Hl, He. simpl. apply IHl. intros p Hp. apply Hsub. now right. }
    apply Hgen. auto.
Qed.

End JsonFacts.


(* ===================================================================== *)
(** ** Facts about the cache class *)
(* ===================================================================== *)

Module ClassFacts.

Import JsonFacts.

(** **** Running a sequence *)

Lemma bind_ret {A B} (m : M A) (k : A -> M B) (c c' : cache) (a : A) :
  m c = (Ret a, c') -> bind m k c = k a c'.
Proof. unfold bind. now intros ->. Qed.

Lemma bind_throw {A B} (m : M A) (k : A -> M B) (c c' : cache) (e : error) :
  m c = (Throw e, c') -> bind m k c = (Throw e, c').
Proof. unfold bind. now intros ->. Qed.

Lemma bind_fuel {A B} (m : M A) (k : A -> M B) (c c' : cache) :
  m c = (OutOfFuel, c') -> bind m k c = (OutOfFuel, c').
Proof. unfold bind. now intros ->. Qed.

Lemma bind_fuel_fst {A B} (m : M A) (k : A -> M B) (c : cache) :
  fst (m c) = OutOfFuel -> fst (bind m k c) = OutOfFuel.
Proof.
  unfold bind. destruct (m c) as [[a|e|] c']; simpl; congruence.
Qed.

Lemma bind_read {B} (k : cache -> M B) (c : cache) : bind read k c = k c c.
Proof. reflexivity. Qed.

(** **** The canonical [unstringify] *)

Lemma unstringify_text (x : value) :
  supported x -> Canonical.unstringify (Some (text x)) = Ret x.
Proof.
  intros Hx. unfold Canonical.unstringify. simpl to_text.
  now rewrite JSON_parse_text.
Qed.

Lemma unstringify_total (str : option string) :
  Canonical.unstringify str <> OutOfFuel.
Proof.
  unfold Canonical.unstringify.
  pose proof (JSON_parse_total (to_text str)).
  now destruct (JSON_parse (to_text str)).
Qed.

Lemma unstringify_undefined : Canonical.unstringify None = Throw SyntaxError.
Proof. reflexivity. Qed.

(** **** [stringify] *)

Lemma stringify_token (x : value) (tok : string) (c : cache) :
  JSON_stringify x = SText tok -> stringify x c = (Ret (Some tok), c).
Proof. unfold stringify. now intros ->. Qed.

Lemma stringify_supported (x : value) (c : cache) :
  supported x -> stringify x c = (Ret (Some (text x)), c).
Proof.
  intros Hx. apply stringify_token. now apply serialize_supported.
Qed.

Lemma text_truthy (x : value) : supported x -> truthy (Some (text x)) = true.
Proof.
  intros Hx. destruct (text_head x Hx) as (ch & r & E & _). now rewrite E.
Qed.

Lemma token_truthy (x : value) (tok : string) :
  JSON_stringify x = SText tok -> truthy (Some tok) = true.
Proof.
  unfold JSON_stringify.
  destruct x as [| | [] |n|n|s|xs|ps]; simpl; try discriminate;
    try (intros [= <-]; reflexivity).
  - intros [= <-]. destruct (number_head n) as (ch & r & E & _). now rewrite E.
  - destruct (serialize_elements serialize xs); [|discriminate].
    intros [= <-]. reflexivity.
  - destruct (serialize_members serialize ps); [|discriminate].
    intros [= <-]. reflexivity.
Qed.

(** **** Expiry *)

Lemma v_wrap (value : option string) (ttl now : Z) : v (wrap value ttl now) = value.
Proof. reflexivity. Qed.

Lemma wrap_default_live (value : option string) (ttl now : Z) :
  0 <= ttl -> expired now (wrap value ttl now) = false.
Proof.
  intros H. unfold expired, wrap. simpl.
  destruct (ttl =? 0) eqn:E; [reflexivity|].
  apply andb_false_intro2. apply Z.ltb_ge. lia.
Qed.

(** **** The store on an entry that is in time, whatever [unstringify] is *)

Section live_entry.
Variable u : option string -> outcome value.

Lemma nc_check_live (tok : string) (e : entry) (now : Z) (c : cache) :
  expired now e = false -> nc_check u tok e now c = (Ret true, c).
Proof. unfold nc_check. now intros ->. Qed.

Lemma nc_get_live (tok : string) (e : entry) (now : Z) (c : cache) :
  data c !! tok = Some e -> expired now e = false ->
  nc_get u (Some tok) now c = (Ret (v e), c).
Proof.
  intros He Hl. unfold nc_get. rewrite bind_read, He.
  now rewrite (bind_ret _ _ _ _ _ (nc_check_live tok e now c Hl)).
Qed.

Lemma nc_get_absent (tok : string) (now : Z) (c : cache) :
  data c !! tok = None -> nc_get u (Some tok) now c = (Ret None, c).
Proof. intros He. unfold nc_get. now rewrite bind_read, He. Qed.

Lemma nc_ttl_live (tok : string) (e : entry) (ttl now : Z) (c : cache) :
  truthy (Some tok) = true ->
  data c !! tok = Some e -> expired now e = false ->
  0 <= (if ttl =? 0 then m_ttl c else ttl) ->
  nc_ttl u (Some tok) ttl now c
  = (Ret true,
     Cache (m_ttl c) (m_checkPeriod c)
       (<[tok := wrap (v e) (if ttl =? 0 then m_ttl c else ttl) now]> (data c))
       (emitted c)).
Proof.
  intros Ht He Hl Httl. unfold nc_ttl. rewrite bind_read. cbv beta zeta.
  rewrite Ht. unfold to_text. rewrite He.
  rewrite (bind_ret _ _ _ _ _ (nc_check_live tok e now c Hl)).
  apply Z.leb_le in Httl. rewrite Httl. reflexivity.
Qed.
End live_entry.

(** **** [set] with a supported key *)

Lemma nc_set_supported (c : cache) (k x : value) (now : Z) :
  supported k -> supported x ->
  nc_set Canonical.unstringify (Some (text k)) (Some (text x)) now c
  = (Ret true, after_nc_set c (text k) (Some (text x)) now (EvSet k x)).
Proof.
  intros Hk Hx. unfold nc_set, on_set, bind, read, set_data, lift, emit.
  simpl. rewrite !unstringify_text by assumption. reflexivity.
Qed.

(** **** [set] with [undefined] as the value *)

Lemma on_set_undefined (tok : string) (c : cache) :
  on_set Canonical.unstringify tok None c = (Throw SyntaxError, c).
Proof.
  unfold on_set, bind, lift. pose proof (unstringify_total (Some tok)) as Ht.
  rewrite unstringify_undefined.
  unfold Canonical.unstringify in *.
  destruct (JSON_parse (to_text (Some tok))); [reflexivity..|congruence].
Qed.

Lemma set_undefined (c : cache) (k : value) (tok : string) (ttl : option Z) (now : Z) :
  JSON_stringify k = SText tok ->
  Canonical.set k JUndefined ttl now c
  = (Throw SyntaxError,
     Cache (m_ttl c) (m_checkPeriod c)
       (<[tok := wrap None (m_ttl c) now]> (data c)) (emitted c)).
Proof.
  intros Hk. unfold Canonical.set, set. rewrite bind_read. cbv beta zeta.
  rewrite (bind_ret _ _ _ _ _ (stringify_token k tok c Hk)).
  rewrite (bind_ret (stringify JUndefined) _ c c None eq_refl).
  apply bind_throw. unfold nc_set. rewrite bind_read.
  rewrite (bind_ret (set_data _) _ c _ tt eq_refl).
  apply bind_throw. apply on_set_undefined.
Qed.

(** **** The canonical variant never runs out of fuel *)

Lemma terminates_ret {A} (a : A) : terminates (ret a).
Proof. intros c. discriminate. Qed.

Lemma terminates_throw {A} (e : error) : terminates (@throw A e).
Proof. intros c. discriminate. Qed.

Lemma terminates_read : terminates read.
Proof. intros c. discriminate. Qed.

Lemma terminates_set_data (d : gmap string entry) : terminates (set_data d).
Proof. intros c. discriminate. Qed.

Lemma terminates_emit (ev : event) : terminates (emit ev).
Proof. intros c. discriminate. Qed.

Lemma terminates_lift_unstringify (str : option string) :
  terminates (lift (Canonical.unstringify str)).
Proof. intros c. apply unstringify_total. Qed.

Lemma terminates_bind {A B} (m : M A) (k : A -> M B) :
  terminates m -> (forall a, terminates (k a)) -> terminates (bind m k).
Proof.
  intros Hm Hk c. unfold bind. specialize (Hm c).
  destruct (m c) as [[a|e|] c']; simpl in *; [apply Hk | discriminate | congruence].
Qed.

Create HintDb terminates.
#[local] Hint Resolve terminates_ret terminates_throw terminates_read
  terminates_set_data terminates_emit terminates_lift_unstringify : terminates.

Ltac terminates :=
  repeat first
    [ progress auto with terminates
    | apply terminates_bind; [|intros ?]
    | match goal with
      | |- terminates (match ?x with _ => _ end) => destruct x
      | |- terminates (if ?x then _ else _) => destruct x
      end ].

Lemma terminates_nc_del (keys : list (option string)) :
  terminates (nc_del Canonical.unstringify keys).
Proof.
  induction keys as [|[key|] keys IH]; simpl; terminates.
Qed.
#[local] Hint Resolve terminates_nc_del : terminates.

Lemma terminates_nc_check (key : string) (e : entry) (now : Z) :
  terminates (nc_check Canonical.unstringify key e now).
Proof. unfold nc_check. terminates. Qed.
#[local] Hint Resolve terminates_nc_check : terminates.

Lemma terminates_nc_get (key : option string) (now : Z) :
  terminates (nc_get Canonical.unstringify key now).
Proof. unfold nc_get. terminates. Qed.
#[local] Hint Resolve terminates_nc_get : terminates.

Lemma terminates_stringify (x : value) : terminates (stringify x).
Proof. unfold stringify. terminates. Qed.
#[local] Hint Resolve terminates_stringify : terminates.

Lemma terminates_get (key : value) (now : Z) :
  terminates (Canonical.get key now).
Proof. unfold Canonical.get, get. terminates. Qed.

(** **** The variant of [src/index.ts] *)

Lemma index_unstringify_loops (fuel : nat) (str : option string) :
  IndexTs.unstringify fuel str = OutOfFuel.
Proof. induction fuel as [|fuel IH]; [reflexivity | exact IH]. Qed.

Lemma index_forward_loops (fuel : nat) (key : string) (value : option string)
    (c : cache) :
  fst (IndexTs.on_set fuel key value c) = OutOfFuel
  /\ fst (IndexTs.on_expired fuel key value c) = OutOfFuel
  /\ fst (IndexTs.on_del fuel key value c) = OutOfFuel.
Proof.
  unfold IndexTs.on_set, IndexTs.on_expired, IndexTs.on_del,
    on_set, on_expired, on_del, bind, lift.
  now rewrite !index_unstringify_loops.
Qed.

Lemma index_values_loop (fuel : nat) (entries : list (string * option string))
    (values : list (value * value)) (c : cache) :
  (exists tok x, (tok, x) ∈ entries /\ truthy x = true) ->
  fst (mget_values (IndexTs.unstringify fuel) entries values c) = OutOfFuel.
Proof.
  revert values. induction entries as [|[key x] rest IH]; intros values (tok & y & Hin & Hy).
  - now apply elem_of_nil in Hin.
  - simpl. destruct (truthy x) eqn:Hx.
    + unfold bind, lift. now rewrite index_unstringify_loops.
    + apply IH. exists tok, y. split; [|assumption].
      apply elem_of_cons in Hin as [[= -> ->]|Hin]; [congruence | assumption].
Qed.

Lemma index_nc_del (fuel : nat) (key : string) (e : entry)
    (rest : list (option string)) (c : cache) :
  data c !! key = Some e ->
  fst (nc_del (IndexTs.unstringify fuel) (Some key :: rest) c) = OutOfFuel.
Proof.
  intros He. simpl. rewrite bind_read, He.
  rewrite (bind_ret (set_data _) _ c _ tt eq_refl).
  apply bind_fuel_fst. apply index_forward_loops.
Qed.

Lemma index_nc_check (fuel : nat) (key : string) (e : entry) (now : Z) (c : cache) :
  data c !! key = Some e ->
  fst (nc_check (IndexTs.unstringify fuel) key e now c) = OutOfFuel
  \/ (nc_check (IndexTs.unstringify fuel) key e now c = (Ret true, c)
      /\ expired now e = false).
Proof.
  intros He. unfold nc_check. destruct (expired now e); [left | now right].
  apply bind_fuel_fst. now apply index_nc_del with e.
Qed.

(** A run of the store's [mget] that comes back has changed nothing and
    holds every requested entry that is in time. *)
Lemma index_nc_mget (fuel : nat) (toks : list string) (now : Z) (c : cache) :
  forall oRet : gmap string (option string),
    (forall tok x, oRet !! tok = Some x ->
                   exists e, data c !! tok = Some e /\ v e = x) ->
    fst (nc_mget (IndexTs.unstringify fuel) (Some <$> toks) now oRet c) = OutOfFuel
    \/ exists o,
         nc_mget (IndexTs.unstringify fuel) (Some <$> toks) now oRet c = (Ret o, c)
         /\ (forall tok x, oRet !! tok = Some x -> o !! tok = Some x)
         /\ (forall tok e, In tok toks -> data c !! tok = Some e ->
                           expired now e = false -> o !! tok = Some (v e)).
Proof.
  induction toks as [|key toks IH]; intros oRet Hinv.
  - right. exists oRet. simpl. repeat split; [auto | intros ? ? []].
  - simpl. rewrite bind_read. destruct (data c !! key) as [e|] eqn:He.
    + destruct (index_nc_check fuel key e now c He) as [Hc|[Hc Hl]].
      * left. now apply bind_fuel_fst.
      * rewrite (bind_ret _ _ _ _ _ Hc).
        destruct (IH (<[key := v e]> oRet)) as [Hf|(o & Ho & Hkeep & Hhit)].
        { intros tok x. rewrite lookup_insert. case_decide as Hd.
          - intros [= <-]. subst tok. eauto.
          - apply Hinv. }
        { now left. }
        right. exists o. split; [assumption|]. split.
        { intros tok x Hx. apply Hkeep. rewrite lookup_insert.
          case_decide as Hd; [|assumption]. subst tok.
          destruct (Hinv _ _ Hx) as (e' & He' & <-). congruence. }
        { intros tok e' [<-|Hin] He' Hl'.
          - apply Hkeep. rewrite lookup_insert_eq. congruence.
          - now apply Hhit. }
    + destruct (IH oRet Hinv) as [Hf|(o & Ho & Hkeep & Hhit)]; [now left|].
      right. exists o. split; [assumption|]. split; [assumption|].
      intros tok e' [<-|Hin] He' Hl'; [congruence | now apply Hhit].
Qed.

Lemma mapM_stringify_tokens (ks : list value) (c : cache) :
  Forall (fun k => exists tok, JSON_stringify k = SText tok) ks ->
  exists toks,
    mapM stringify ks c = (Ret (Some <$> toks), c)
    /\ Forall2 (fun k tok => JSON_stringify k = SText tok) ks toks.
Proof.
  induction 1 as [|k ks (tok & Hk) _ (toks & IH & Hall)].
  - exists []. split; [reflexivity | constructor].
  - exists (tok :: toks). split; [|now constructor].
    simpl. rewrite (bind_ret _ _ _ _ _ (stringify_token k tok c Hk)).
    now rewrite (bind_ret _ _ _ _ _ IH).
Qed.

Lemma encodes_token (k : value) :
  encodes k = true -> exists tok, JSON_stringify k = SText tok.
Proof. unfold encodes. destruct (JSON_stringify k); eauto; discriminate. Qed.

Lemma forallb_encodes (ks : list value) :
  forallb encodes ks = true ->
  Forall (fun k => exists tok, JSON_stringify k = SText tok) ks.
Proof.
  intros H. apply Forall_forall. intros k Hk. apply encodes_token.
  rewrite forallb_forall in H. apply H. now apply list_elem_of_In.
Qed.

Lemma Forall2_In_l {A B} (P : A -> B -> Prop) (l : list A) (l' : list B) (a : A) :
  Forall2 P l l' -> In a l -> exists b, In b l' /\ P a b.
Proof.
  induction 1 as [|x y l l' Hxy _ IH]; intros Hin; [destruct Hin|].
  destruct Hin as [<-|Hin].
  - exists y. split; [now left | assumption].
  - destruct (IH Hin) as (b & Hb & Hab). exists b. split; [now right | assumption].
Qed.

(** **** Well-formed stores *)

Lemma canonical_spec (tok : string) :
  canonical tok = true <-> exists x, supported x /\ tok = text x.
Proof.
  unfold canonical. split.
  - destruct (JSON_parse tok) as [x| |]; try discriminate.
    intros H. apply andb_prop in H as [H1 H2].
    apply String.eqb_eq in H2. now exists x.
  - intros (x & Hx & ->). rewrite (JSON_parse_text x Hx), Hx.
    now rewrite String.eqb_refl.
Qed.

Lemma store_ok_lookup (c : cache) (tok : string) (e : entry) :
  store_ok c -> data c !! tok = Some e ->
  exists k x, supported k /\ tok = text k /\ supported x /\ v e = Some (text x).
Proof.
  unfold store_ok. rewrite forallb_forall. intros Hok He.
  assert (Hin : In (tok, e) (map_to_list (data c))).
  { apply list_elem_of_In. now apply elem_of_map_to_list. }
  specialize (Hok _ Hin). unfold entry_ok in Hok. simpl in Hok.
  apply andb_prop in Hok as [H1 H2].
  destruct (v e) as [s|]; [|discriminate].
  apply canonical_spec in H1 as (k & Hk & ->).
  apply canonical_spec in H2 as (x & Hx & ->). now exists k, x.
Qed.

Lemma store_ok_intro (c : cache) :
  (forall tok e, data c !! tok = Some e ->
     exists k x, supported k /\ tok = text k /\ supported x /\ v e = Some (text x)) ->
  store_ok c.
Proof.
  intros H. unfold store_ok. apply forallb_forall. intros [tok e] Hin.
  apply list_elem_of_In, elem_of_map_to_list in Hin.
  destruct (H tok e Hin) as (k & x & Hk & -> & Hx & Hv).
  unfold entry_ok. simpl. rewrite Hv. apply andb_true_intro.
  split; apply canonical_spec; eauto.
Qed.

Lemma store_ok_subset (c c' : cache) :
  store_ok c ->
  (forall tok e, data c' !! tok = Some e -> data c !! tok = Some e) ->
  store_ok c'.
Proof.
  intros Hok Hsub. apply store_ok_intro. intros tok e He.
  apply (store_ok_lookup c); auto.
Qed.

Lemma sample_ok : store_ok sample.
Proof. vm_compute. reflexivity. Qed.

Lemma decode_text (x : value) : supported x -> decode (Some (text x)) = x.
Proof. intros Hx. unfold decode. now rewrite unstringify_text. Qed.

(** **** Forwarding a notification about a well-formed entry *)

Lemma on_del_supported (k x : value) (c : cache) :
  supported k -> supported x ->
  on_del Canonical.unstringify (text k) (Some (text x)) c
  = (Ret tt, Cache (m_ttl c) (m_checkPeriod c) (data c) (emitted c ++ [EvDel k x])).
Proof.
  intros Hk Hx. unfold on_del, bind, lift, emit.
  now rewrite !unstringify_text.
Qed.

Lemma on_expired_supported (k x : value) (c : cache) :
  supported k -> supported x ->
  on_expired Canonical.unstringify (text k) (Some (text x)) c
  = (Ret tt, Cache (m_ttl c) (m_checkPeriod c) (data c) (emitted c ++ [EvExpired k x])).
Proof.
  intros Hk Hx. unfold on_expired, bind, lift, emit.
  now rewrite !unstringify_text.
Qed.

Lemma decide_cons_ne {A} (tok key : string) (toks : list string) (a b : A) :
  tok <> key ->
  (if decide (tok ∈ key :: toks) then a else b)
  = (if decide (tok ∈ toks) then a else b).
Proof.
  intros Hne. destruct (decide (tok ∈ toks)) as [H|H].
  - rewrite decide_True; [reflexivity | now right].
  - rewrite decide_False; [reflexivity|].
    intros [Heq|Hin]%elem_of_cons; [now apply Hne | now apply H].
Qed.

(** **** The store's [del] on a well-formed store *)

Lemma nc_del_ok (toks : list string) :
  forall c : cache,
    store_ok c ->
    exists n c',
      nc_del Canonical.unstringify (Some <$> toks) c = (Ret n, c')
      /\ m_ttl c' = m_ttl c
      /\ forall tok, data c' !! tok
                     = if decide (tok ∈ toks) then None else data c !! tok.
Proof.
  induction toks as [|key toks IH]; intros c Hok.
  - exists O, c. split; [reflexivity|]. split; [reflexivity|].
    intros tok. case_decide as Hd; [|reflexivity].
    now apply elem_of_nil in Hd.
  - simpl. rewrite bind_read. destruct (data c !! key) as [e|] eqn:He.
    + destruct (store_ok_lookup c key e Hok He) as (k & x & Hk & -> & Hx & Hv).
      rewrite (bind_ret (set_data _) _ c _ tt eq_refl).
      rewrite Hv, (bind_ret _ _ _ _ _ (on_del_supported k x _ Hk Hx)).
      cbn [m_ttl m_checkPeriod data emitted].
      match goal with |- context [bind _ _ ?c1] => set (c1' := c1) end.
      destruct (IH c1') as (n & c' & Hrun & Httl & Hdata).
      { apply (store_ok_subset c); [assumption|]. subst c1'. simpl.
        intros tok e'. rewrite lookup_delete_Some. tauto. }
      exists (S n), c'. rewrite (bind_ret _ _ _ _ _ Hrun).
      split; [reflexivity|]. split; [assumption|].
      intros tok. rewrite Hdata. subst c1'. simpl.
      destruct (decide (tok = text k)) as [->|Hne].
      * rewrite lookup_delete_eq.
        rewrite (decide_True (P := text k ∈ text k :: toks)) by left.
        now case_decide.
      * rewrite lookup_delete_ne by congruence.
        now rewrite decide_cons_ne.
    + destruct (IH c Hok) as (n & c' & Hrun & Httl & Hdata).
      exists n, c'. split; [assumption|]. split; [assumption|].
      intros tok. rewrite Hdata.
      destruct (decide (tok = key)) as [->|Hne].
      * rewrite (decide_True (P := key ∈ key :: toks)) by left.
        rewrite He. now case_decide.
      * now rewrite decide_cons_ne.
Qed.

(** **** The store's [_check] on a well-formed store *)

Lemma nc_check_ok (tok : string) (e : entry) (now : Z) (c : cache) :
  store_ok c -> data c !! tok = Some e ->
  exists c',
    nc_check Canonical.unstringify tok e now c = (Ret (negb (expired now e)), c')
    /\ m_ttl c' = m_ttl c
    /\ data c' = (if expired now e then delete tok (data c) else data c).
Proof.
  intros Hok He. unfold nc_check. destruct (expired now e).
  - destruct (store_ok_lookup c tok e Hok He) as (k & x & Hk & -> & Hx & Hv).
    destruct (nc_del_ok [text k] c Hok) as (n & c1 & Hrun & Httl & Hdata).
    change (Some <$> [text k]) with [Some (text k)] in Hrun.
    rewrite (bind_ret _ _ _ _ _ Hrun).
    rewrite Hv, (bind_ret _ _ _ _ _ (on_expired_supported k x c1 Hk Hx)).
    eexists. split; [reflexivity|]. split; [exact Httl|].
    simpl. apply map_eq. intros tok'. rewrite Hdata.
    destruct (decide (tok' = text k)) as [->|Hne].
    + rewrite lookup_delete_eq. now rewrite decide_True by left.
    + rewrite lookup_delete_ne by congruence.
      rewrite decide_False; [reflexivity|].
      intros [Heq|Hin]%elem_of_cons; [now apply Hne | now apply elem_of_nil in Hin].
  - exists c. repeat split.
Qed.

Lemma live_value_delete_expired (now : Z) (d : gmap string entry)
    (key : string) (e : entry) (tok : string) :
  d !! key = Some e -> expired now e = true ->
  live_value now (delete key d) tok = live_value now d tok.
Proof.
  intros He Hx. unfold live_value.
  destruct (decide (tok = key)) as [->|Hne].
  - now rewrite lookup_delete_eq, He, Hx.
  - now rewrite lookup_delete_ne by congruence.
Qed.

(** **** The store's [mget] on a well-formed store *)

Lemma nc_mget_ok (toks : list string) (now : Z) :
  forall (oRet : gmap string (option string)) (c : cache),
    store_ok c ->
    exists o c',
      nc_mget Canonical.unstringify (Some <$> toks) now oRet c = (Ret o, c')
      /\ forall tok,
           o !! tok
           = match (if decide (tok ∈ toks) then live_value now (data c) tok else None) with
             | Some x => Some x
             | None => oRet !! tok
             end.
Proof.
  induction toks as [|key toks IH]; intros oRet c Hok.
  - exists oRet, c. split; [reflexivity|]. intros tok.
    case_decide as Hd; [now apply elem_of_nil in Hd | reflexivity].
  - simpl. rewrite bind_read. destruct (data c !! key) as [e|] eqn:He.
    + destruct (nc_check_ok key e now c Hok He) as (c1 & Hc & _ & Hd1).
      rewrite (bind_ret _ _ _ _ _ Hc).
      assert (Hok1 : store_ok c1).
      { apply (store_ok_subset c); [assumption|]. rewrite Hd1.
        destruct (expired now e); [|auto].
        intros tok e'. rewrite lookup_delete_Some. tauto. }
      destruct (expired now e) eqn:Hx; simpl negb; cbv iota.
      * destruct (IH oRet c1 Hok1) as (o & c' & Hrun & Ho).
        exists o, c'. split; [assumption|]. intros tok. rewrite Ho, Hd1.
        rewrite (live_value_delete_expired now _ key e tok He Hx).
        destruct (decide (tok = key)) as [->|Hne].
        -- rewrite (decide_True (P := key ∈ key :: toks)) by left.
           unfold live_value. rewrite He, Hx. now case_decide.
        -- now rewrite decide_cons_ne.
      * destruct (IH (<[key := v e]> oRet) c1 Hok1) as (o & c' & Hrun & Ho).
        exists o, c'. split; [assumption|]. intros tok. rewrite Ho, Hd1.
        destruct (decide (tok = key)) as [->|Hne].
        -- rewrite (decide_True (P := key ∈ key :: toks)) by left.
           unfold live_value. rewrite He, Hx, lookup_insert_eq. now case_decide.
        -- rewrite lookup_insert_ne by congruence.
           now rewrite decide_cons_ne.
    + destruct (IH oRet c Hok) as (o & c' & Hrun & Ho).
      exists o, c'. split; [assumption|]. intros tok. rewrite Ho.
      destruct (decide (tok = key)) as [->|Hne].
      * rewrite (decide_True (P := key ∈ key :: toks)) by left.
        unfold live_value. rewrite He. now case_decide.
      * now rewrite decide_cons_ne.
Qed.

(** **** The decoding loop of [mget] *)

Lemma same_value_zero_eq (a b : value) : same_value_zero a b = true -> a = b.
Proof.
  destruct a, b; simpl; try discriminate; intros H; try reflexivity.
  - now apply Bool.eqb_prop in H as ->.
  - now apply Z.eqb_eq in H as ->.
  - now apply Z.eqb_eq in H as ->.
  - now apply String.eqb_eq in H as ->.
Qed.

Lemma map_set_fresh (k x : value) (m : list (value * value)) :
  k ∉ m.*1 -> map_set k x m = m ++ [(k, x)].
Proof.
  induction m as [|[k' x'] m IH]; simpl; intros Hk; [reflexivity|].
  apply not_elem_of_cons in Hk as [Hne Hk].
  destruct (same_value_zero k' k) eqn:E.
  - apply same_value_zero_eq in E. congruence.
  - now rewrite IH.
Qed.

Lemma mget_values_ok (entries : list (string * option string)) :
  forall (values : list (value * value)) (c : cache),
    Forall token_entry_ok entries ->
    NoDup entries.*1 ->
    (forall p, p ∈ entries -> decode (Some p.1) ∉ values.*1) ->
    mget_values Canonical.unstringify entries values c
    = (Ret (values ++ (decode_entry <$> entries)), c).
Proof.
  induction entries as [|[tok s] entries IH]; intros values c Hall Hnd Hfresh.
  - simpl. now rewrite app_nil_r.
  - apply Forall_cons in Hall as [(k & x & Hk & Htok & Hx & Hs) Hall].
    simpl in Htok, Hs. subst tok s.
    rewrite fmap_cons in Hnd. apply NoDup_cons in Hnd as [Hhead Hnd].
    cbn [fst] in Hhead. cbn [mget_values]. rewrite (text_truthy x Hx).
    unfold bind at 1, lift at 1. rewrite (unstringify_text k Hk).
    unfold bind at 1, lift at 1. rewrite (unstringify_text x Hx).
    rewrite map_set_fresh.
    + rewrite IH; [|assumption..|].
      * rewrite <- app_assoc. simpl. unfold decode_entry at 2. simpl.
        now rewrite !decode_text.
      * intros [tok' s'] Hin. simpl. rewrite fmap_app. simpl.
        intros [Hv|Hv]%elem_of_app.
        -- revert Hv. apply (Hfresh (tok', s')). now right.
        -- apply list_elem_of_singleton in Hv.
           rewrite Forall_forall in Hall.
           destruct (Hall _ Hin) as (k' & x' & Hk' & Htok' & _). simpl in Htok'.
           subst tok'. rewrite decode_text in Hv by assumption. subst k'.
           apply Hhead. apply list_elem_of_fmap. now exists (text k, s').
    + specialize (Hfresh (text k, Some (text x))). simpl in Hfresh.
      rewrite decode_text in Hfresh by assumption. apply Hfresh. left.
Qed.

Lemma mapM_stringify_supported (ks : list value) (c : cache) :
  Forall supported ks ->
  mapM stringify ks c = (Ret (Some <$> (text <$> ks)), c).
Proof.
  induction 1 as [|k ks Hk _ IH]; [reflexivity|].
  simpl. rewrite (bind_ret _ _ _ _ _ (stringify_supported k c Hk)).
  now rewrite (bind_ret _ _ _ _ _ IH).
Qed.

(** **** [keys] on a well-formed store *)

Lemma mapM_decode_tokens (toks : list string) (c : cache) :
  Forall (fun tok => exists k, supported k /\ tok = text k) toks ->
  mapM (fun key => lift (Canonical.unstringify (Some key))) toks c
  = (Ret ((fun tok => decode (Some tok)) <$> toks), c).
Proof.
  induction 1 as [|tok toks (k & Hk & ->) _ IH]; [reflexivity|].
  simpl. unfold bind at 1, lift at 1. rewrite (unstringify_text k Hk).
  rewrite (bind_ret _ _ _ _ _ IH). now rewrite decode_text.
Qed.

Lemma keys_ok (c : cache) :
  store_ok c ->
  Canonical.keys c
  = (Ret ((fun tok => decode (Some tok)) <$> (map_to_list (data c)).*1), c).
Proof.
  intros Hok. unfold Canonical.keys, keys, nc_keys.
  erewrite bind_ret; [|reflexivity].
  apply mapM_decode_tokens. apply Forall_forall. intros tok Hin.
  apply list_elem_of_fmap in Hin as ([tok' e] & -> & Hin). simpl.
  apply elem_of_map_to_list in Hin.
  destruct (store_ok_lookup c tok' e Hok Hin) as (k & x & Hk & Ht & _). eauto.
Qed.

(** **** [mget] on a well-formed store *)

Lemma mget_ok (c : cache) (ks : list value) (now : Z) :
  store_ok c -> Forall supported ks ->
  exists (o : gmap string (option string)) (c' : cache),
    Canonical.mget ks now c = (Ret (decode_entry <$> map_to_list o), c')
    /\ (forall tok s,
          o !! tok = Some s
          <-> tok ∈ text <$> ks
              /\ exists e, data c !! tok = Some e /\ expired now e = false /\ v e = s).
Proof.
  intros Hok Hks. unfold Canonical.mget, mget.
  rewrite (bind_ret _ _ _ _ _ (mapM_stringify_supported ks c Hks)).
  destruct (nc_mget_ok (text <$> ks) now ∅ c Hok) as (o & c' & Hrun & Ho).
  rewrite (bind_ret _ _ _ _ _ Hrun).
  assert (Hspec : forall tok s,
            o !! tok = Some s
            <-> tok ∈ text <$> ks
                /\ exists e, data c !! tok = Some e /\ expired now e = false /\ v e = s).
  { intros tok s. rewrite Ho, lookup_empty. unfold live_value.
    destruct (decide (tok ∈ text <$> ks)) as [Hin|Hin].
    - destruct (data c !! tok) as [e|] eqn:He.
      + destruct (expired now e) eqn:Hx.
        * split; [discriminate|]. intros (_ & e' & [= <-] & Hx' & _). congruence.
        * split.
          -- intros [= <-]. split; [assumption|]. now exists e.
          -- intros (_ & e' & [= <-] & _ & <-). reflexivity.
      + split; [discriminate|]. intros (_ & e' & [=] & _).
    - split; [discriminate | tauto]. }
  exists o, c'. split; [|exact Hspec].
  rewrite mget_values_ok; [reflexivity| | |].
  - apply Forall_forall. intros [tok s] Hin.
    apply elem_of_map_to_list, Hspec in Hin as (_ & e & He & _ & <-).
    destruct (store_ok_lookup c tok e Hok He) as (k & x & Hk & Ht & Hx & Hv).
    now exists k, x.
  - apply NoDup_fst_map_to_list.
  - intros p _. apply not_elem_of_nil.
Qed.

(** **** [mdel] when the encoding of a key throws *)

Lemma mapM_stringify_throws (ks : list value) (c : cache) :
  existsb throws ks = true -> mapM stringify ks c = (Throw TypeError, c).
Proof.
  induction ks as [|k ks IH]; [discriminate|]. simpl. unfold throws at 1.
  unfold stringify at 1. destruct (JSON_stringify k) eqn:Ek; simpl.
  - intros H. rewrite (bind_ret (ret _) _ c c _ eq_refl).
    apply bind_throw. auto.
  - intros H. rewrite (bind_ret (ret _) _ c c _ eq_refl).
    apply bind_throw. auto.
  - intros _. reflexivity.
Qed.

(** **** Well-formed stores are what supported writes build *)

Lemma store_ok_new (ttl checkPeriod : option Z) : store_ok (new ttl checkPeriod).
Proof.
  apply store_ok_intro. intros tok e. unfold new. simpl.
  now rewrite lookup_empty.
Qed.

Lemma store_ok_data (c c' : cache) : data c' = data c -> store_ok c -> store_ok c'.
Proof. unfold store_ok. now intros ->. Qed.

Lemma store_ok_insert (c c' : cache) (k x : value) (time : Z) :
  store_ok c -> supported k -> supported x ->
  data c' = <[text k := Entry time (Some (text x))]> (data c) ->
  store_ok c'.
Proof.
  intros Hok Hk Hx Hd. apply store_ok_intro. intros tok e. rewrite Hd.
  rewrite lookup_insert. case_decide as Heq.
  - intros [= <-]. subst tok. now exists k, x.
  - now apply store_ok_lookup.
Qed.

Lemma store_ok_delete (c c' : cache) (tok : string) :
  store_ok c -> data c' = delete tok (data c) -> store_ok c'.
Proof.
  intros Hok Hd. apply (store_ok_subset c); [assumption|].
  intros tok' e. rewrite Hd, lookup_delete_Some. tauto.
Qed.

Lemma set_store_ok (c : cache) (k x : value) (ttl : option Z) (now : Z) :
  supported k -> supported x -> store_ok c ->
  store_ok (snd (Canonical.set k x ttl now c)).
Proof.
  intros Hk Hx Hok. unfold Canonical.set, set. rewrite bind_read. cbv beta zeta.
  rewrite (bind_ret _ _ _ _ _ (stringify_supported k c Hk)).
  rewrite (bind_ret _ _ _ _ _ (stringify_supported x c Hx)).
  rewrite (bind_ret _ _ _ _ _ (nc_set_supported c k x now Hk Hx)).
  set (c2 := after_nc_set c (text k) (Some (text x)) now (EvSet k x)).
  set (e1 := wrap (Some (text x)) (m_ttl c) now).
  assert (Hok2 : store_ok c2).
  { now apply (store_ok_insert c c2 k x (t e1)). }
  assert (He1 : data c2 !! text k = Some e1) by apply lookup_insert_eq.
  unfold nc_ttl. unfold bind at 1. rewrite bind_read. cbv beta zeta.
  rewrite (text_truthy k Hk). unfold to_text. rewrite He1.
  destruct (nc_check_ok (text k) e1 now c2 Hok2 He1) as (c3 & Hc & _ & Hd3).
  rewrite (bind_ret _ _ _ _ _ Hc).
  destruct (expired now e1); simpl negb; cbv iota.
  - simpl. now apply (store_ok_delete c2 c3 (text k)).
  - assert (Hok3 : store_ok c3) by now apply (store_ok_data c2).
    destruct (0 <=? (if default (m_ttl c) ttl =? 0 then m_ttl c2 else default (m_ttl c) ttl)).
    + simpl. apply (store_ok_insert c3 _ k x
        (t (wrap (v e1) (if default (m_ttl c) ttl =? 0 then m_ttl c2
                         else default (m_ttl c) ttl) now))); try assumption.
      reflexivity.
    + destruct (nc_del_ok [text k] c3 Hok3) as (n & c4 & Hrun & _ & Hd4).
      change (Some <$> [text k]) with [Some (text k)] in Hrun.
      cbn [negb]. unfold bind, ret. rewrite Hrun. simpl.
      apply (store_ok_subset c3); [assumption|].
      intros tok e. rewrite Hd4. now case_decide.
Qed.

(** **** [mget] with one key in time and one absent *)

Lemma mget_hit_and_miss (c : cache) (k1 k2 x1 : value) (e : entry) (now : Z) :
  store_ok c -> supported k1 -> supported k2 ->
  data c !! text k1 = Some e -> expired now e = false ->
  Canonical.unstringify (v e) = Ret x1 ->
  data c !! text k2 = None ->
  exists c', Canonical.mget [k1; k2] now c = (Ret [(k1, x1)], c').
Proof.
  intros Hok Hk1 Hk2 He Hl Hv Hnone.
  destruct (mget_ok c [k1; k2] now Hok) as (o & c' & Hrun & Hspec).
  { now repeat constructor. }
  exists c'. rewrite Hrun. f_equal. f_equal.
  assert (Ho : o = {[ text k1 := v e ]}).
  { apply map_eq. intros tok. apply option_eq. intros s. rewrite Hspec.
    rewrite lookup_singleton_Some. split.
    - intros (Hin & e' & He' & _ & <-).
      apply list_elem_of_fmap in Hin as (k & -> & Hin).
      apply elem_of_cons in Hin as [->|Hin]; [split; congruence|].
      apply list_elem_of_singleton in Hin as ->. congruence.
    - intros [<- <-]. split; [left | now exists e]. }
  rewrite Ho, map_to_list_singleton. simpl. unfold decode_entry, decode. simpl.
  now rewrite Hv, (unstringify_text k1 Hk1).
Qed.

(** In the variant of [src/index.ts] the store's [del] does not return
    once it meets a key that is stored. *)
Lemma index_nc_del_stored (fuel : nat) (toks : list string) (c : cache) :
  (exists tok, In tok toks /\ is_Some (data c !! tok)) ->
  fst (nc_del (IndexTs.unstringify fuel) (Some <$> toks) c) = OutOfFuel.
Proof.
  induction toks as [|tok toks IH]; intros (tok0 & Hin & Hs); [destruct Hin|].
  destruct (data c !! tok) as [e|] eqn:He.
  - now apply (index_nc_del fuel tok e).
  - change (Some <$> tok :: toks) with (Some tok :: (Some <$> toks)).
    simpl. rewrite bind_read, He. apply IH.
    destruct Hin as [<-|Hin]; [|eauto].
    rewrite He in Hs. now destruct Hs.
Qed.

End ClassFacts.










(* ===================================================================== *)
(** ** The model at concrete inputs *)
(* ===================================================================== *)

Example stringify_array :
  JSON_stringify (JArr [JNum 1; JUndefined; JNull; JBool true; JNum (-20)])
  = SText "[1,null,null,true,-20]".
Proof. reflexivity. Qed.

Example stringify_drops_undefined_property :
  JSON_stringify (JObj [("a", JUndefined); ("b", JArr [])])
  = SText ("{" +:+ quote "b" +:+ ":[]}").
Proof. reflexivity. Qed.

Example stringify_undefined : JSON_stringify JUndefined = SUndef.
Proof. reflexivity. Qed.

Example stringify_bigint : JSON_stringify (JArr [JBigInt 1]) = SThrow.
Proof. reflexivity. Qed.

Example stringify_control_character :
  JSON_stringify (JStr (String "010" (str1 "001")))
  = SText (String dq (String bs (String "n" (String bs (String "u" ("0001" +:+ str1 dq)))))).
Proof. reflexivity. Qed.

Example parse_with_spaces :
  JSON_parse " [1 , [true,null] ,-20 ] "
  = Parsed (JArr [JNum 1; JArr [JBool true; JNull]; JNum (-20)]).
Proof. vm_compute. reflexivity. Qed.

Example parse_repeated_name :
  JSON_parse ("{" +:+ quote "a" +:+ ":1," +:+ quote "b" +:+ ":2," +:+ quote "a" +:+ ":3}")
  = Parsed (JObj [("a", JNum 3); ("b", JNum 2)]).
Proof. vm_compute. reflexivity. Qed.

Example parse_undefined : JSON_parse "undefined" = SyntaxErr.
Proof. vm_compute. reflexivity. Qed.

Example parse_leading_zero : JSON_parse "01" = SyntaxErr.
Proof. vm_compute. reflexivity. Qed.

Example parse_trailing_comma : JSON_parse "[1,]" = SyntaxErr.
Proof. vm_compute. reflexivity. Qed.

Example sample_emitted :
  emitted sample = [EvSet (JStr "a") (JObj [("x", JNum 1)])].
Proof. vm_compute. reflexivity. Qed.

(** At the millisecond of the expiry itself the package still serves the
    entry; one millisecond later the read fails and evicts. *)
Example get_in_time :
  fst (Canonical.get (JStr "a") 301000 sample) = Ret (JObj [("x", JNum 1)]).
Proof. vm_compute. reflexivity. Qed.

Example get_past_time :
  fst (Canonical.get (JStr "a") 301001 sample) = Throw KeyNotFound
  /\ emitted (snd (Canonical.get (JStr "a") 301001 sample))
     = [EvSet (JStr "a") (JObj [("x", JNum 1)]);
        EvDel (JStr "a") (JObj [("x", JNum 1)]);
        EvExpired (JStr "a") (JObj [("x", JNum 1)])].
Proof. vm_compute. split; reflexivity. Qed.

Example get_absent : fst (Canonical.get (JStr "b") 1000 sample) = Throw KeyNotFound.
Proof. vm_compute. reflexivity. Qed.

Example exists_both :
  fst (Canonical.exists_ (JStr "a") 1000 sample) = Ret true
  /\ fst (Canonical.exists_ (JStr "b") 1000 sample) = Ret false
  /\ fst (Canonical.exists_ (JBigInt 1) 1000 sample) = Ret false.
Proof. vm_compute. repeat split; reflexivity. Qed.

Example mget_one_of_two :
  fst (Canonical.mget [JStr "a"; JStr "b"] 1000 sample)
  = Ret [(JStr "a", JObj [("x", JNum 1)])].
Proof. vm_compute. reflexivity. Qed.

Example del_absent_is_silent :
  Canonical.del (JStr "b") sample = (Ret tt, sample).
Proof. vm_compute. reflexivity. Qed.

Example set_negative_default_is_lost :
  fst (Canonical.get (JStr "a") 5000
         (snd (Canonical.set (JStr "a") (JNum 1) (Some 5) 5000 (new (Some (-1)) None))))
  = Throw KeyNotFound.
Proof. vm_compute. reflexivity. Qed.

Example index_set_leaves_entry :
  fst (IndexTs.set 50 (JStr "a") (JNum 1) None 1000 (new None None)) = OutOfFuel
  /\ data index_sample !! text (JStr "a")
     = Some (Entry 301000 (Some (text (JObj [("x", JNum 1)])))).
Proof. vm_compute. split; reflexivity. Qed.

Example index_names_are_listed_first :
  is_supported (JObj [("1", JNum 2); ("b", JNum 1)]) = true
  /\ is_supported (JObj [("b", JNum 1); ("1", JNum 2)]) = false
  /\ is_supported (JObj [("9", JNull); ("10", JNull)]) = true
  /\ is_supported (JObj [("10", JNull); ("9", JNull)]) = false
  /\ is_supported (JObj [("b", JNull); ("01", JNull); ("a", JNull)]) = true.
Proof. vm_compute. repeat split. Qed.

(* ===================================================================== *)
(** ** The properties of the specification *)
(* ===================================================================== *)

Import JsonFacts ClassFacts.

(** C3: for every value of a supported shape, decoding the encoding gives
    the value back: [stringify] produces a token, and [unstringify] of
    that token returns the value. *)
Theorem C3_decode_encode (x : value) (c : cache) :
  supported x ->
  exists tok, stringify x c = (Ret (Some tok), c)
              /\ Canonical.unstringify (Some tok) = Ret x.
Proof.
  intros Hx. exists (text x). split.
  - now apply stringify_supported.
  - now apply unstringify_text.
Qed.

(** C1, as the code has it: [set(k, x, ttl)] with [ttl > 0] followed at
    once by [get(k)] returns [x], for a supported key and value, on a
    cache whose default time to live is not negative. *)
Theorem C1_set_then_get (c : cache) (k x : value) (ttl now : Z) :
  supported k -> supported x -> 0 < ttl -> 0 <= m_ttl c ->
  exists c1 c2,
    Canonical.set k x (Some ttl) now c = (Ret tt, c1)
    /\ Canonical.get k now c1 = (Ret x, c2).
Proof.
  intros Hk Hx Httl Hdef.
  pose proof (text_truthy k Hk) as Htk.
  pose proof (text_truthy x Hx) as Htx.
  assert (Hz : (ttl =? 0) = false) by (apply Z.eqb_neq; lia).
  assert (Hp : (0 <=? ttl) = true) by (apply Z.leb_le; lia).
  assert (Hlive : expired now (Entry (now + ttl * 1000) (Some (text x))) = false).
  { unfold expired. simpl. apply andb_false_intro2. apply Z.ltb_ge. lia. }
  eexists _, _. split.
  - unfold Canonical.set, set. rewrite bind_read. cbv beta zeta. simpl default.
    rewrite (bind_ret _ _ _ _ _ (stringify_supported k c Hk)).
    rewrite (bind_ret _ _ _ _ _ (stringify_supported x c Hx)).
    rewrite (bind_ret _ _ _ _ _ (nc_set_supported c k x now Hk Hx)).
    erewrite bind_ret; [reflexivity|].
    apply nc_ttl_live; [assumption | apply lookup_insert_eq | |].
    + now apply wrap_default_live.
    + rewrite Hz. lia.
  - unfold Canonical.get, get.
    rewrite (bind_ret _ _ _ _ _ (stringify_supported k _ Hk)).
    erewrite bind_ret; [|apply nc_get_live; [apply lookup_insert_eq|]].
    + rewrite !v_wrap, Htx. unfold lift. now rewrite unstringify_text.
    + rewrite !v_wrap, Hz. unfold wrap. rewrite Hz. exact Hlive.
Qed.

(** C1 as stated fails on a cache that was constructed with a negative
    default time to live: [set(k, x, 5)] returns normally and [get(k)],
    called at once, fails with the key-not-found error.  [set] has the
    store set the entry without a time to live, which puts its expiry
    one second into the past, and the store's [ttl], which should give
    the entry its five seconds, finds no entry in time. *)
Lemma C1_negative_default_counterexample :
  supported (JStr "a") /\ supported (JNum 1) /\ 0 < 5
  /\ fst (Canonical.set (JStr "a") (JNum 1) (Some 5) 5000 (new (Some (-1)) None))
     = Ret tt
  /\ fst (Canonical.get (JStr "a") 5000
            (snd (Canonical.set (JStr "a") (JNum 1) (Some 5) 5000
                    (new (Some (-1)) None))))
     = Throw KeyNotFound.
Proof.
  split; [reflexivity|]. split; [reflexivity|]. split; [lia|].
  split; vm_compute; reflexivity.
Qed.

(** C7: whatever the store holds, [flush()] leaves [keys()] returning the
    empty sequence and emits exactly one [flush] notification, which has
    no payload. *)
Theorem C7_flush_empties (c : cache) :
  exists c',
    Canonical.flush c = (Ret tt, c')
    /\ emitted c' = emitted c ++ [EvFlush]
    /\ Canonical.keys c' = (Ret [], c').
Proof.
  eexists. split; [reflexivity|]. split; [reflexivity|].
  unfold Canonical.keys, keys, nc_keys, bind, read, ret. simpl.
  rewrite map_to_list_empty. reflexivity.
Qed.

(** C4: [exists(key)] never throws, and it returns [true] exactly when
    [get(key)] on the same instance succeeds. *)
Theorem C4_exists_iff_get (c : cache) (key : value) (now : Z) :
  exists b,
    fst (Canonical.exists_ key now c) = Ret b
    /\ (b = true <-> exists x, fst (Canonical.get key now c) = Ret x).
Proof.
  pose proof (terminates_get key now c) as Hf.
  unfold Canonical.exists_, exists_, try_catch, bind. fold (Canonical.get key now).
  destruct (Canonical.get key now c) as [[x|e|] c']; simpl in *.
  - exists true. split; [reflexivity|]. split; eauto.
  - exists false. split; [reflexivity|]. split; [discriminate|].
    intros [x Hx]. discriminate.
  - congruence.
Qed.

(** C10, as the code has it: after [set(k, undefined)] the store holds
    an entry without a token for [k], and [get(k)] fails with the
    key-not-found error; [k] is any key that encodes to a token, on a
    cache whose default time to live is not negative. *)
Theorem C10_set_undefined_then_get (c : cache) (k : value) (tok : string) (now : Z) :
  JSON_stringify k = SText tok -> 0 <= m_ttl c ->
  let c1 := snd (Canonical.set k JUndefined None now c) in
  (exists e, data c1 !! tok = Some e /\ v e = None)
  /\ fst (Canonical.get k now c1) = Throw KeyNotFound.
Proof.
  intros Hk Hdef. rewrite (set_undefined c k tok None now Hk). simpl snd.
  split.
  - eexists. split; [apply lookup_insert_eq | reflexivity].
  - unfold Canonical.get, get.
    rewrite (bind_ret _ _ _ _ _ (stringify_token k tok _ Hk)).
    erewrite bind_ret; [|apply nc_get_live; [apply lookup_insert_eq|]].
    + reflexivity.
    + now apply wrap_default_live.
Qed.

(** C10 as stated fails for the keys that do not encode to a token, and
    on a cache with a negative default time to live: after
    [set(k, undefined)], [get(k)] fails with the [TypeError] of the
    encoding when [k] is a BigInt, with the store's key error when [k]
    is [undefined], and, on a cache constructed with the default time to
    live [-1], with the [SyntaxError] of decoding the missing token,
    which the forwarding of the store's [del] notification raises when
    the read removes the entry. *)
Lemma C10_other_keys_counterexample :
  fst (Canonical.get (JBigInt 1) 5000
         (snd (Canonical.set (JBigInt 1) JUndefined None 5000 sample)))
  = Throw TypeError
  /\ fst (Canonical.get JUndefined 5000
            (snd (Canonical.set JUndefined JUndefined None 5000 sample)))
     = Throw EKEYTYPE
  /\ fst (Canonical.get (JStr "k") 5000
            (snd (Canonical.set (JStr "k") JUndefined None 5000
                    (new (Some (-1)) None))))
     = Throw SyntaxError.
Proof. vm_compute. repeat split. Qed.

(** C8, as the code has it: two supported values encode to the same
    token exactly when they are the same value, the properties of every
    mapping enumerated in the same order (array-index names ascending,
    then the other names in the order they were added); values with the
    same token are structurally equal. *)
Theorem C8_same_token_iff_same_value (a b : value) :
  supported a -> supported b ->
  (JSON_stringify a = JSON_stringify b <-> a = b)
  /\ (JSON_stringify a = JSON_stringify b -> struct_eq a b = true).
Proof.
  intros Ha Hb. split; [split|].
  - now apply stringify_inj.
  - now intros ->.
  - intros E. apply stringify_inj in E; [|assumption..]. subst b.
    now apply struct_eq_refl.
Qed.

(** C8 as stated fails: two mappings with the same entries, whose names
    are no array indices and were added in a different order, are
    structurally equal and encode to different tokens. *)
Lemma C8_key_order_counterexample :
  let a := JObj [("x", JNum 1); ("y", JNum 2)] in
  let b := JObj [("y", JNum 2); ("x", JNum 1)] in
  supported a /\ supported b /\ struct_eq a b = true
  /\ JSON_stringify a <> JSON_stringify b.
Proof.
  simpl. repeat split; try reflexivity. vm_compute. discriminate.
Qed.

(** C9: in the variant of [src/index.ts], [unstringify] never returns,
    whatever fuel it is given, and neither does any operation that
    decodes a stored token: [get] on a key that is present, [keys] and
    [list] on a store that is not empty, [mget] with a hit, and the
    forwarding of a [set], [expired] or [del] notification. *)
Theorem C9_index_unstringify_never_returns
    (fuel : nat) (c : cache) (now : Z) (key : value) (tok : string)
    (e : entry) (ks : list value) :
  JSON_stringify key = SText tok ->
  data c !! tok = Some e -> expired now e = false -> truthy (v e) = true ->
  In key ks -> forallb encodes ks = true ->
  (forall str, IndexTs.unstringify fuel str = OutOfFuel)
  /\ fst (IndexTs.get fuel key now c) = OutOfFuel
  /\ fst (IndexTs.keys fuel c) = OutOfFuel
  /\ fst (IndexTs.mget fuel ks now c) = OutOfFuel
  /\ fst (IndexTs.list_ fuel now c) = OutOfFuel
  /\ (forall k x c',
        fst (IndexTs.on_set fuel k x c') = OutOfFuel
        /\ fst (IndexTs.on_expired fuel k x c') = OutOfFuel
        /\ fst (IndexTs.on_del fuel k x c') = OutOfFuel).
Proof.
  intros Hk He Hl Ht Hin Hks.
  assert (Hkeys : fst (IndexTs.keys fuel c) = OutOfFuel).
  { unfold IndexTs.keys, keys, nc_keys.
    destruct (map_to_list (data c)) as [|[tok' e'] rest] eqn:El.
    - apply map_to_list_empty_iff in El. rewrite El in He.
      now rewrite lookup_empty in He.
    - unfold bind at 1. unfold bind at 1. unfold read, ret. rewrite El. simpl.
      apply bind_fuel_fst. unfold lift. simpl.
      apply index_unstringify_loops. }
  split; [apply index_unstringify_loops|].
  split; [|split; [assumption|split; [|split]]].
  - unfold IndexTs.get, get.
    rewrite (bind_ret _ _ _ _ _ (stringify_token key tok c Hk)).
    rewrite (bind_ret _ _ _ _ _ (nc_get_live _ tok e now c He Hl)).
    rewrite Ht. unfold lift. simpl. apply index_unstringify_loops.
  - unfold IndexTs.mget, mget.
    destruct (mapM_stringify_tokens ks c (forallb_encodes ks Hks))
      as (toks & Hm & Hall).
    rewrite (bind_ret _ _ _ _ _ Hm).
    destruct (Forall2_In_l _ _ _ _ Hall Hin) as (tok' & Htok' & Hk').
    assert (tok' = tok) by congruence. subst tok'.
    destruct (index_nc_mget fuel toks now c ∅) as [Hf|(o & Ho & _ & Hhit)].
    + intros ? ? H. now rewrite lookup_empty in H.
    + now apply bind_fuel_fst.
    + rewrite (bind_ret _ _ _ _ _ Ho). apply index_values_loop.
      exists tok, (v e). split; [|assumption].
      apply elem_of_map_to_list. now apply Hhit.
  - unfold IndexTs.list_, list_. now apply bind_fuel_fst.
  - intros k x c'. apply index_forward_loops.
Qed.

(** C5, as the code has it: for supported keys on a well-formed store,
    [mget] returns normally a mapping with one entry per key, holding exactly the
    decoded pairs of the requested keys whose entry is present and in
    time; a requested key that is missing or expired is left out.  In
    particular, with two keys of which the first is in time and the
    second absent, the mapping holds the first only. *)
Theorem C5_mget_partial (c : cache) (ks : list value) (now : Z) :
  store_ok c -> forallb is_supported ks = true ->
  (exists m c',
     Canonical.mget ks now c = (Ret m, c')
     /\ NoDup m.*1
     /\ forall k x,
          (k, x) ∈ m
          <-> In k ks
              /\ exists tok e,
                   JSON_stringify k = SText tok
                   /\ data c !! tok = Some e
                   /\ expired now e = false
                   /\ Canonical.unstringify (v e) = Ret x)
  /\ (forall k1 k2 x1 tok1 tok2 e,
        ks = [k1; k2] ->
        JSON_stringify k1 = SText tok1 -> JSON_stringify k2 = SText tok2 ->
        data c !! tok1 = Some e -> expired now e = false ->
        Canonical.unstringify (v e) = Ret x1 ->
        data c !! tok2 = None ->
        exists c', Canonical.mget ks now c = (Ret [(k1, x1)], c')).
Proof.
  intros Hok Hks.
  assert (Hsup : Forall supported ks).
  { apply Forall_forall. intros k Hk. rewrite forallb_forall in Hks.
    apply Hks. now apply list_elem_of_In. }
  split.
  2:{ intros k1 k2 x1 tok1 tok2 e -> Ht1 Ht2 He Hl Hv Hnone.
      apply Forall_cons in Hsup as [Hk1 Hsup].
      apply Forall_cons in Hsup as [Hk2 _].
      unfold JSON_stringify in Ht1, Ht2.
      rewrite (serialize_supported k1 Hk1) in Ht1.
      rewrite (serialize_supported k2 Hk2) in Ht2.
      injection Ht1 as <-. injection Ht2 as <-.
      now apply mget_hit_and_miss with e. }
  destruct (mget_ok c ks now Hok Hsup) as (o & c' & Hrun & Hspec).
  assert (Hentry : forall tok s, (tok, s) ∈ map_to_list o ->
            exists k x e, supported k /\ tok = text k /\ supported x
                          /\ s = Some (text x) /\ In k ks
                          /\ data c !! tok = Some e /\ expired now e = false
                          /\ v e = s).
  { intros tok s Hin.
    apply elem_of_map_to_list, Hspec in Hin as (Hin & e & He & Hx & <-).
    apply list_elem_of_fmap in Hin as (k & -> & Hin).
    destruct (store_ok_lookup c _ e Hok He) as (k' & x & Hk' & Ht & Hx' & Hv).
    rewrite Forall_forall in Hsup.
    exists k, x, e. repeat split; try assumption.
    - now apply Hsup.
    - now apply list_elem_of_In. }
  exists (decode_entry <$> map_to_list o), c'. split; [assumption|]. split.
  - rewrite <- list_fmap_compose. apply NoDup_fmap_2_strong.
    + intros [tok1 s1] [tok2 s2] H1 H2. simpl. intros Hd.
      destruct (Hentry _ _ H1) as (k1 & _ & _ & Hk1 & -> & _).
      destruct (Hentry _ _ H2) as (k2 & _ & _ & Hk2 & -> & _).
      rewrite !decode_text in Hd by assumption. subst k2.
      apply elem_of_map_to_list in H1, H2. congruence.
    + apply NoDup_map_to_list.
  - intros k x. rewrite list_elem_of_fmap. split.
    + intros ([tok s] & [= -> ->] & Hin). simpl.
      destruct (Hentry _ _ Hin)
        as (k1 & x1 & e & Hk1 & -> & Hx1 & -> & Hin1 & He & Hl & Hv).
      rewrite decode_text by assumption. split; [assumption|].
      exists (text k1), e. split; [now apply serialize_supported|].
      split; [assumption|]. split; [assumption|].
      rewrite Hv. unfold decode. now rewrite unstringify_text.
    + intros (Hin & tok & e & Htok & He & Hl & Hv).
      rewrite Forall_forall in Hsup.
      assert (Hk : supported k) by now apply Hsup, list_elem_of_In.
      unfold JSON_stringify in Htok. rewrite (serialize_supported k Hk) in Htok.
      injection Htok as <-.
      exists (text k, v e). split.
      * unfold decode_entry, decode. simpl.
        now rewrite Hv, (unstringify_text k Hk).
      * apply elem_of_map_to_list, Hspec. split.
        -- apply list_elem_of_fmap. exists k. split; [reflexivity|].
           now apply list_elem_of_In.
        -- now exists e.
Qed.

(** C5 as stated fails for a sequence with a key that does not encode:
    [mget(["a", 1n])], with ["a"] stored and in time, returns no mapping
    at all but fails with the [TypeError] of the encoding; with the key
    [undefined] in the place of the BigInt it fails with the store's key
    error. *)
Lemma C5_mget_fails_counterexample :
  store_ok sample
  /\ fst (Canonical.get (JStr "a") 2000 sample) = Ret (JObj [("x", JNum 1)])
  /\ fst (Canonical.mget [JStr "a"; JBigInt 1] 2000 sample) = Throw TypeError
  /\ fst (Canonical.mget [JStr "a"; JUndefined] 2000 sample) = Throw EKEYTYPE.
Proof. vm_compute. repeat split. Qed.


(** C2, as the code has it: [mdel] encodes every key before it removes
    any.  When the encoding of some key throws, [mdel] throws that error
    and removes nothing, in both variants.  When every key encodes, on a
    well-formed store, the canonical variant returns normally, every
    requested key is gone and the other entries are untouched; the
    variant of [src/index.ts] never returns when one of the requested
    keys is stored. *)
Theorem C2_mdel_all_or_nothing (c : cache) (ks : list value) :
  store_ok c ->
  (forallb encodes ks = true ->
   exists c',
     Canonical.mdel ks c = (Ret tt, c')
     /\ (forall k tok, In k ks -> JSON_stringify k = SText tok ->
                       data c' !! tok = None)
     /\ (forall tok, (forall k, In k ks -> JSON_stringify k <> SText tok) ->
                     data c' !! tok = data c !! tok))
  /\ (existsb throws ks = true ->
      Canonical.mdel ks c = (Throw TypeError, c))
  /\ (forall fuel,
        (existsb throws ks = true ->
         IndexTs.mdel fuel ks c = (Throw TypeError, c))
        /\ (forallb encodes ks = true ->
            (exists k tok, In k ks /\ JSON_stringify k = SText tok
                           /\ is_Some (data c !! tok)) ->
            fst (IndexTs.mdel fuel ks c) = OutOfFuel)).
Proof.
  intros Hok. split; [|split].
  - intros Hks. unfold Canonical.mdel, mdel.
    destruct (mapM_stringify_tokens ks c (forallb_encodes ks Hks))
      as (toks & Hm & Hall).
    rewrite (bind_ret _ _ _ _ _ Hm).
    destruct (nc_del_ok toks c Hok) as (n & c' & Hrun & _ & Hdata).
    rewrite (bind_ret _ _ _ _ _ Hrun).
    exists c'. split; [reflexivity|]. split.
    + intros k tok Hin Hk. rewrite Hdata.
      destruct (Forall2_In_l _ _ _ _ Hall Hin) as (tok' & Hin' & Hk').
      assert (tok' = tok) by congruence. subst tok'.
      rewrite decide_True; [reflexivity | now apply list_elem_of_In].
    + intros tok Hnone. rewrite Hdata. rewrite decide_False; [reflexivity|].
      intros Hin. apply list_elem_of_In in Hin.
      apply Forall2_flip in Hall.
      destruct (Forall2_In_l _ _ _ _ Hall Hin) as (k & Hk & Htok).
      now apply (Hnone k).
  - intros Hks. unfold Canonical.mdel, mdel.
    apply bind_throw. now apply mapM_stringify_throws.
  - intros fuel. split.
    + intros Hks. unfold IndexTs.mdel, mdel.
      apply bind_throw. now apply mapM_stringify_throws.
    + intros Hks (k & tok & Hin & Hk & Hs). unfold IndexTs.mdel, mdel.
      destruct (mapM_stringify_tokens ks c (forallb_encodes ks Hks))
        as (toks & Hm & Hall).
      rewrite (bind_ret _ _ _ _ _ Hm). apply bind_fuel_fst.
      apply index_nc_del_stored.
      destruct (Forall2_In_l _ _ _ _ Hall Hin) as (tok' & Hin' & Hk').
      assert (tok' = tok) by congruence. subst tok'. eauto.
Qed.

(** C2 as stated fails: the encoding of the first key throws, [mdel]
    throws with it, and the second key, which encodes and is present, is
    still in the store. *)
Lemma C2_mdel_abort_counterexample :
  let r := Canonical.mdel [JBigInt 1; JStr "a"] sample in
  encodes (JStr "a") = true
  /\ fst r = Throw TypeError
  /\ data (snd r) !! text (JStr "a") = data sample !! text (JStr "a")
  /\ data sample !! text (JStr "a") <> None.
Proof.
  simpl. repeat split. vm_compute. discriminate.
Qed.

(* ===================================================================== *)
(** ** The theorems at concrete inputs *)
(* ===================================================================== *)

Lemma C1_set_then_get_witness :
  supported (JStr "a") /\ supported (JObj [("x", JNum 1)])
  /\ 0 < 5 /\ 0 <= m_ttl (new None None)
  /\ exists c1 c2,
       Canonical.set (JStr "a") (JObj [("x", JNum 1)]) (Some 5) 1000 (new None None)
       = (Ret tt, c1)
       /\ Canonical.get (JStr "a") 1000 c1 = (Ret (JObj [("x", JNum 1)]), c2).
Proof.
  split; [reflexivity|]. split; [reflexivity|]. split; [lia|].
  split; [simpl; lia|].
  apply (C1_set_then_get (new None None) (JStr "a") (JObj [("x", JNum 1)]) 5 1000);
    [reflexivity | reflexivity | lia | simpl; lia].
Defined.

Lemma C2_mdel_all_or_nothing_witness :
  store_ok sample
  /\ forallb encodes [JStr "a"; JStr "b"] = true
  /\ (exists k tok, In k [JStr "a"; JStr "b"] /\ JSON_stringify k = SText tok
                    /\ is_Some (data sample !! tok))
  /\ (exists c',
        Canonical.mdel [JStr "a"; JStr "b"] sample = (Ret tt, c')
        /\ (forall k tok, In k [JStr "a"; JStr "b"] -> JSON_stringify k = SText tok ->
                          data c' !! tok = None)
        /\ (forall tok,
              (forall k, In k [JStr "a"; JStr "b"] -> JSON_stringify k <> SText tok) ->
              data c' !! tok = data sample !! tok))
  /\ (existsb throws [JStr "a"; JStr "b"] = true ->
      Canonical.mdel [JStr "a"; JStr "b"] sample = (Throw TypeError, sample))
  /\ (forall fuel,
        (existsb throws [JStr "a"; JStr "b"] = true ->
         IndexTs.mdel fuel [JStr "a"; JStr "b"] sample = (Throw TypeError, sample))
        /\ fst (IndexTs.mdel fuel [JStr "a"; JStr "b"] sample) = OutOfFuel).
Proof.
  assert (Hok : store_ok sample) by (vm_compute; reflexivity).
  assert (Henc : forallb encodes [JStr "a"; JStr "b"] = true) by reflexivity.
  assert (Hst : exists k tok, In k [JStr "a"; JStr "b"] /\ JSON_stringify k = SText tok
                              /\ is_Some (data sample !! tok)).
  { exists (JStr "a"), (text (JStr "a")). split; [now left|]. split; [reflexivity|].
    vm_compute. eauto. }
  destruct (C2_mdel_all_or_nothing sample [JStr "a"; JStr "b"] Hok)
    as (Hdel & Hthrow & Hindex).
  split; [exact Hok|]. split; [exact Henc|]. split; [exact Hst|].
  split; [exact (Hdel Henc)|]. split; [exact Hthrow|].
  intros fuel. destruct (Hindex fuel) as [Hthrow' Hloop].
  split; [exact Hthrow' | exact (Hloop Henc Hst)].
Defined.

Lemma C3_decode_encode_witness :
  supported (JArr [JNum (-12); JStr "x"; JObj [("k", JNull)]])
  /\ exists tok,
       stringify (JArr [JNum (-12); JStr "x"; JObj [("k", JNull)]]) sample
       = (Ret (Some tok), sample)
       /\ Canonical.unstringify (Some tok)
          = Ret (JArr [JNum (-12); JStr "x"; JObj [("k", JNull)]]).
Proof.
  split; [reflexivity|].
  apply (C3_decode_encode (JArr [JNum (-12); JStr "x"; JObj [("k", JNull)]]) sample).
  reflexivity.
Defined.

Lemma C5_mget_partial_witness :
  store_ok sample /\ forallb is_supported [JStr "a"; JStr "b"] = true
  /\ (exists m c',
        Canonical.mget [JStr "a"; JStr "b"] 1000 sample = (Ret m, c')
        /\ NoDup m.*1
        /\ forall k x,
             (k, x) ∈ m
             <-> In k [JStr "a"; JStr "b"]
                 /\ exists tok e,
                      JSON_stringify k = SText tok
                      /\ data sample !! tok = Some e
                      /\ expired 1000 e = false
                      /\ Canonical.unstringify (v e) = Ret x)
  /\ (forall k1 k2 x1 tok1 tok2 e,
        [JStr "a"; JStr "b"] = [k1; k2] ->
        JSON_stringify k1 = SText tok1 -> JSON_stringify k2 = SText tok2 ->
        data sample !! tok1 = Some e -> expired 1000 e = false ->
        Canonical.unstringify (v e) = Ret x1 ->
        data sample !! tok2 = None ->
        exists c', Canonical.mget [JStr "a"; JStr "b"] 1000 sample
                   = (Ret [(k1, x1)], c')).
Proof.
  split; [vm_compute; reflexivity|]. split; [reflexivity|].
  apply (C5_mget_partial sample [JStr "a"; JStr "b"] 1000);
    [vm_compute; reflexivity | reflexivity].
Defined.


Lemma C8_same_token_iff_same_value_witness :
  supported (JObj [("1", JNum 2); ("b", JArr [JNum 1; JStr "x"])])
  /\ supported (JObj [("1", JNum 2); ("b", JArr [JNum 1; JStr "y"])])
  /\ (JSON_stringify (JObj [("1", JNum 2); ("b", JArr [JNum 1; JStr "x"])])
      = JSON_stringify (JObj [("1", JNum 2); ("b", JArr [JNum 1; JStr "y"])])
      <-> JObj [("1", JNum 2); ("b", JArr [JNum 1; JStr "x"])]
          = JObj [("1", JNum 2); ("b", JArr [JNum 1; JStr "y"])])
  /\ (JSON_stringify (JObj [("1", JNum 2); ("b", JArr [JNum 1; JStr "x"])])
      = JSON_stringify (JObj [("1", JNum 2); ("b", JArr [JNum 1; JStr "y"])])
      -> struct_eq (JObj [("1", JNum 2); ("b", JArr [JNum 1; JStr "x"])])
           (JObj [("1", JNum 2); ("b", JArr [JNum 1; JStr "y"])]) = true)
  /\ JSON_stringify (JObj [("1", JNum 2); ("b", JArr [JNum 1; JStr "x"])])
     <> JSON_stringify (JObj [("1", JNum 2); ("b", JArr [JNum 1; JStr "y"])]).
Proof.
  split; [reflexivity|]. split; [reflexivity|].
  destruct (C8_same_token_iff_same_value
              (JObj [("1", JNum 2); ("b", JArr [JNum 1; JStr "x"])])
              (JObj [("1", JNum 2); ("b", JArr [JNum 1; JStr "y"])])
              eq_refl eq_refl) as [Hiff Hstruct].
  split; [exact Hiff|]. split; [exact Hstruct|].
  intros Heq. apply Hiff in Heq. discriminate Heq.
Defined.

Lemma C9_index_unstringify_never_returns_witness :
  JSON_stringify (JStr "a") = SText (text (JStr "a"))
  /\ data index_sample !! text (JStr "a")
     = Some (Entry 301000 (Some (text (JObj [("x", JNum 1)]))))
  /\ expired 1000 (Entry 301000 (Some (text (JObj [("x", JNum 1)])))) = false
  /\ truthy (v (Entry 301000 (Some (text (JObj [("x", JNum 1)]))))) = true
  /\ In (JStr "a") [JStr "b"; JStr "a"]
  /\ forallb encodes [JStr "b"; JStr "a"] = true
  /\ (forall str, IndexTs.unstringify 100 str = OutOfFuel)
  /\ fst (IndexTs.get 100 (JStr "a") 1000 index_sample) = OutOfFuel
  /\ fst (IndexTs.keys 100 index_sample) = OutOfFuel
  /\ fst (IndexTs.mget 100 [JStr "b"; JStr "a"] 1000 index_sample) = OutOfFuel
  /\ fst (IndexTs.list_ 100 1000 index_sample) = OutOfFuel
  /\ (forall k x c',
        fst (IndexTs.on_set 100 k x c') = OutOfFuel
        /\ fst (IndexTs.on_expired 100 k x c') = OutOfFuel
        /\ fst (IndexTs.on_del 100 k x c') = OutOfFuel).
Proof.
  split; [reflexivity|]. split; [vm_compute; reflexivity|].
  split; [reflexivity|]. split; [reflexivity|].
  split; [simpl; auto|]. split; [reflexivity|].
  apply (C9_index_unstringify_never_returns 100 index_sample 1000 (JStr "a")
           (text (JStr "a")) (Entry 301000 (Some (text (JObj [("x", JNum 1)]))))
           [JStr "b"; JStr "a"]);
    [reflexivity | vm_compute; reflexivity | reflexivity | reflexivity
    | simpl; auto | reflexivity].
Defined.

Lemma C10_set_undefined_then_get_witness :
  JSON_stringify (JStr "k") = SText (text (JStr "k"))
  /\ 0 <= m_ttl sample
  /\ let c1 := snd (Canonical.set (JStr "k") JUndefined None 1000 sample) in
     (exists e, data c1 !! text (JStr "k") = Some e /\ v e = None)
     /\ fst (Canonical.get (JStr "k") 1000 c1) = Throw KeyNotFound.
Proof.
  split; [reflexivity|]. split; [vm_compute; discriminate|].
  apply (C10_set_undefined_then_get sample (JStr "k") (text (JStr "k")) 1000);
    [reflexivity | vm_compute; discriminate].
Defined.

(* ===================================================================== *)
(** ** Further facts about the class *)
(* ===================================================================== *)

Module MoreFacts.

(** **** One removal, one past-time check, on a well-formed entry *)

Lemma nc_del_present (c : cache) (k x : value) (e : entry) :
  supported k -> supported x ->
  data c !! text k = Some e -> v e = Some (text x) ->
  nc_del Canonical.unstringify [Some (text k)] c
  = (Ret 1%nat,
     Cache (m_ttl c) (m_checkPeriod c) (delete (text k) (data c))
       (emitted c ++ [EvDel k x])).
Proof.
  intros Hk Hx He Hv. simpl. rewrite bind_read, He.
  rewrite (bind_ret (set_data _) _ c _ tt eq_refl).
  rewrite Hv, (bind_ret _ _ _ _ _ (on_del_supported k x _ Hk Hx)).
  reflexivity.
Qed.

Lemma nc_del_absent (u : option string -> outcome value) (c : cache) (tok : string) :
  data c !! tok = None -> nc_del u [Some tok] c = (Ret O, c).
Proof. intros He. simpl. now rewrite bind_read, He. Qed.

Lemma nc_check_past (c : cache) (k x : value) (e : entry) (now : Z) :
  supported k -> supported x ->
  data c !! text k = Some e -> v e = Some (text x) -> expired now e = true ->
  nc_check Canonical.unstringify (text k) e now c
  = (Ret false,
     Cache (m_ttl c) (m_checkPeriod c) (delete (text k) (data c))
       (emitted c ++ [EvDel k x; EvExpired k x])).
Proof.
  intros Hk Hx He Hv Hp. unfold nc_check. rewrite Hp.
  rewrite (bind_ret _ _ _ _ _ (nc_del_present c k x e Hk Hx He Hv)).
  rewrite Hv, (bind_ret _ _ _ _ _ (on_expired_supported k x _ Hk Hx)).
  simpl. now rewrite <- app_assoc.
Qed.

(** **** [set] in full *)

Lemma effective_ttl_nonneg (c : cache) (ttl : option Z) :
  0 <= m_ttl c -> 0 <= default (m_ttl c) ttl -> 0 <= effective_ttl c ttl.
Proof. intros H1 H2. unfold effective_ttl. now destruct (_ =? 0). Qed.

Lemma set_run (c : cache) (k x : value) (ttl : option Z) (now : Z) :
  supported k -> supported x ->
  0 <= m_ttl c -> 0 <= default (m_ttl c) ttl ->
  Canonical.set k x ttl now c
  = (Ret tt,
     Cache (m_ttl c) (m_checkPeriod c)
       (<[text k := wrap (Some (text x)) (effective_ttl c ttl) now]> (data c))
       (emitted c ++ [EvSet k x])).
Proof.
  intros Hk Hx Hdef Httl.
  unfold Canonical.set, set. rewrite bind_read. cbv beta zeta.
  rewrite (bind_ret _ _ _ _ _ (stringify_supported k c Hk)).
  rewrite (bind_ret _ _ _ _ _ (stringify_supported x c Hx)).
  rewrite (bind_ret _ _ _ _ _ (nc_set_supported c k x now Hk Hx)).
  erewrite bind_ret.
  2:{ apply nc_ttl_live;
        [now apply text_truthy | apply lookup_insert_eq
        | now apply wrap_default_live |].
      exact (effective_ttl_nonneg c ttl Hdef Httl). }
  unfold ret, after_nc_set. simpl. now rewrite insert_insert_eq.
Qed.

(** **** [get] in full on a well-formed store *)

Lemma get_hit (u : option string -> outcome value) (c : cache) (key : value)
    (tok : string) (e : entry) (now : Z) :
  JSON_stringify key = SText tok ->
  data c !! tok = Some e -> expired now e = false ->
  get u key now c
  = (if truthy (v e) then u (v e) else Throw KeyNotFound, c).
Proof.
  intros Hk He Hl. unfold get.
  rewrite (bind_ret _ _ _ _ _ (stringify_token key tok c Hk)).
  rewrite (bind_ret _ _ _ _ _ (nc_get_live u tok e now c He Hl)).
  now destruct (truthy (v e)).
Qed.

Lemma get_absent_token (u : option string -> outcome value) (c : cache)
    (key : value) (tok : string) (now : Z) :
  JSON_stringify key = SText tok -> data c !! tok = None ->
  get u key now c = (Throw KeyNotFound, c).
Proof.
  intros Hk He. unfold get.
  rewrite (bind_ret _ _ _ _ _ (stringify_token key tok c Hk)).
  now rewrite (bind_ret _ _ _ _ _ (nc_get_absent u tok now c He)).
Qed.

Lemma get_past (c : cache) (k x : value) (e : entry) (now : Z) :
  supported k -> supported x ->
  data c !! text k = Some e -> v e = Some (text x) -> expired now e = true ->
  Canonical.get k now c
  = (Throw KeyNotFound,
     Cache (m_ttl c) (m_checkPeriod c) (delete (text k) (data c))
       (emitted c ++ [EvDel k x; EvExpired k x])).
Proof.
  intros Hk Hx He Hv Hp. unfold Canonical.get, get.
  rewrite (bind_ret _ _ _ _ _ (stringify_supported k c Hk)).
  unfold nc_get. unfold bind at 1. rewrite bind_read, He.
  now rewrite (bind_ret _ _ _ _ _ (nc_check_past c k x e now Hk Hx He Hv Hp)).
Qed.

(** The outcome of [get] on a well-formed store, read off the entry. *)
Lemma get_outcome (c : cache) (k : value) (now : Z) :
  store_ok c -> supported k ->
  fst (Canonical.get k now c)
  = match data c !! text k with
    | Some e => if expired now e then Throw KeyNotFound else Ret (decode (v e))
    | None => Throw KeyNotFound
    end.
Proof.
  intros Hok Hk. destruct (data c !! text k) as [e|] eqn:He.
  - destruct (store_ok_lookup c _ e Hok He) as (k' & x & Hk' & Ht & Hx & Hv).
    apply text_inj in Ht; [|assumption..]. subst k'.
    destruct (expired now e) eqn:Hp.
    + now rewrite (get_past c k x e now Hk Hx He Hv Hp).
    + unfold Canonical.get.
      rewrite (get_hit _ c k (text k) e now (serialize_supported k Hk) He Hp).
      rewrite Hv, (text_truthy x Hx). simpl.
      now rewrite unstringify_text, decode_text.
  - unfold Canonical.get.
    now rewrite (get_absent_token _ c k (text k) now (serialize_supported k Hk) He).
Qed.

(** **** [ttl] *)

Lemma getTtl_live (u : option string -> outcome value) (c : cache)
    (tok : string) (e : entry) (now : Z) :
  truthy (Some tok) = true ->
  data c !! tok = Some e -> expired now e = false ->
  nc_getTtl u (Some tok) now c = (Ret (Some (t e)), c).
Proof.
  intros Ht He Hl. unfold nc_getTtl. rewrite Ht. unfold to_text.
  rewrite bind_read, He.
  now rewrite (bind_ret _ _ _ _ _ (nc_check_live u tok e now c Hl)).
Qed.

Lemma ttl_live (u : option string -> outcome value) (c : cache) (key : value)
    (tok : string) (e : entry) (now : Z) :
  JSON_stringify key = SText tok ->
  data c !! tok = Some e -> expired now e = false ->
  ttl u key now c = (if t e =? 0 then Throw KeyNotFound else Ret (t e), c).
Proof.
  intros Hk He Hl. unfold ttl.
  rewrite (bind_ret _ _ _ _ _ (stringify_token key tok c Hk)).
  rewrite (bind_ret _ _ _ _ _
             (getTtl_live u c tok e now (token_truthy key tok Hk) He Hl)).
  now destruct (t e =? 0).
Qed.

Lemma ttl_absent (u : option string -> outcome value) (c : cache) (key : value)
    (tok : string) (now : Z) :
  JSON_stringify key = SText tok -> data c !! tok = None ->
  ttl u key now c = (Throw KeyNotFound, c).
Proof.
  intros Hk He. unfold ttl.
  rewrite (bind_ret _ _ _ _ _ (stringify_token key tok c Hk)).
  unfold nc_getTtl. rewrite (token_truthy key tok Hk). unfold to_text.
  unfold bind at 1. now rewrite bind_read, He.
Qed.

(** **** Encoding failures *)

Lemma stringify_throws (key : value) (c : cache) :
  throws key = true -> stringify key c = (Throw TypeError, c).
Proof.
  unfold throws, stringify. now destruct (JSON_stringify key).
Qed.

Lemma stringify_no_throw (key : value) (c : cache) :
  throws key = false -> exists k, stringify key c = (Ret k, c).
Proof.
  unfold throws, stringify. destruct (JSON_stringify key); eauto; discriminate.
Qed.

Lemma existsb_throws_In (ks : list value) (key : value) :
  In key ks -> throws key = true -> existsb throws ks = true.
Proof. intros Hin Hk. apply existsb_exists. eauto. Qed.

(** **** The store's [mget] when nothing is found *)

Lemma nc_mget_all_absent (u : option string -> outcome value) (toks : list string)
    (now : Z) (oRet : gmap string (option string)) (c : cache) :
  (forall tok, In tok toks -> data c !! tok = None) ->
  nc_mget u (Some <$> toks) now oRet c = (Ret oRet, c).
Proof.
  induction toks as [|tok toks IH]; intros Hnone; [reflexivity|].
  simpl. rewrite bind_read, (Hnone tok) by now left.
  apply IH. intros tok' Hin. apply Hnone. now right.
Qed.

(** **** [mget] and [get] *)

Lemma mget_agrees (c : cache) (ks : list value) (now : Z) :
  store_ok c -> Forall supported ks ->
  exists m c',
    Canonical.mget ks now c = (Ret m, c')
    /\ forall k x, (k, x) ∈ m <-> In k ks /\ fst (Canonical.get k now c) = Ret x.
Proof.
  intros Hok Hks.
  destruct (mget_ok c ks now Hok Hks) as (o & c' & Hrun & Hspec).
  exists (decode_entry <$> map_to_list o), c'. split; [assumption|].
  intros k x. rewrite list_elem_of_fmap. rewrite Forall_forall in Hks. split.
  - intros ([tok s] & [= -> ->] & Hin). simpl.
    apply elem_of_map_to_list, Hspec in Hin as (Hin & e & He & Hl & <-).
    apply list_elem_of_fmap in Hin as (k & -> & Hin).
    pose proof (Hks k Hin) as Hk. rewrite (decode_text k Hk).
    split; [now apply list_elem_of_In|].
    now rewrite (get_outcome c k now Hok Hk), He, Hl.
  - intros (Hin & Hget). apply list_elem_of_In in Hin.
    pose proof (Hks k Hin) as Hk.
    rewrite (get_outcome c k now Hok Hk) in Hget.
    destruct (data c !! text k) as [e|] eqn:He; [|discriminate].
    destruct (expired now e) eqn:Hl; [discriminate|]. injection Hget as <-.
    exists (text k, v e). split.
    + unfold decode_entry. simpl. now rewrite decode_text.
    + apply elem_of_map_to_list, Hspec. split.
      * apply list_elem_of_fmap. now exists k.
      * now exists e.
Qed.

(** **** The keys of a well-formed store *)

Lemma keys_members (c : cache) :
  store_ok c ->
  let ks := (fun tok => decode (Some tok)) <$> (map_to_list (data c)).*1 in
  NoDup ks
  /\ forall k, k ∈ ks <-> supported k /\ is_Some (data c !! text k).
Proof.
  intros Hok ks.
  assert (Htok : forall tok, tok ∈ (map_to_list (data c)).*1 ->
            exists k e, supported k /\ tok = text k /\ data c !! tok = Some e).
  { intros tok Hin. apply list_elem_of_fmap in Hin as ([tok' e] & -> & Hin).
    simpl. apply elem_of_map_to_list in Hin.
    destruct (store_ok_lookup c tok' e Hok Hin) as (k & x & Hk & Ht & _).
    now exists k, e. }
  split.
  - apply NoDup_fmap_2_strong; [|apply NoDup_fst_map_to_list].
    intros tok1 tok2 H1 H2 Hd.
    destruct (Htok _ H1) as (k1 & _ & Hk1 & -> & _).
    destruct (Htok _ H2) as (k2 & _ & Hk2 & -> & _).
    rewrite !decode_text in Hd by assumption. now subst.
  - intros k. subst ks. rewrite list_elem_of_fmap. split.
    + intros (tok & -> & Hin).
      destruct (Htok _ Hin) as (k' & e & Hk' & -> & He).
      rewrite decode_text by assumption. split; [assumption | now exists e].
    + intros (Hk & e & He). exists (text k). split; [now rewrite decode_text|].
      apply list_elem_of_fmap. exists (text k, e). split; [reflexivity|].
      now apply elem_of_map_to_list.
Qed.

(** **** The empty store *)

Lemma flush_run (c : cache) :
  Canonical.flush c
  = (Ret tt, Cache (m_ttl c) (m_checkPeriod c) ∅ (emitted c ++ [EvFlush])).
Proof. reflexivity. Qed.

Lemma mget_all_absent (u : option string -> outcome value) (ks : list value)
    (now : Z) (c : cache) :
  Forall (fun k => exists tok, JSON_stringify k = SText tok /\ data c !! tok = None) ks ->
  mget u ks now c = (Ret [], c).
Proof.
  intros Hks. unfold mget.
  assert (Htoks : Forall (fun k => exists tok, JSON_stringify k = SText tok) ks).
  { eapply Forall_impl; [exact Hks|]. intros k (tok & Hk & _). now exists tok. }
  destruct (mapM_stringify_tokens ks c Htoks) as (toks & Hrun & Hall).
  rewrite (bind_ret _ _ _ _ _ Hrun).
  erewrite bind_ret.
  2:{ apply nc_mget_all_absent. intros tok Hin.
      clear Hrun Htoks. induction Hall as [|k tok' ks' toks' Hk Hall' IH].
      - destruct Hin.
      - apply Forall_cons in Hks as [(tok0 & Hk0 & Hnone) Hks'].
        destruct Hin as [<-|Hin]; [|now apply IH].
        rewrite Hk in Hk0. now injection Hk0 as <-. }
  now rewrite map_to_list_empty.
Qed.

Lemma keys_empty (u : option string -> outcome value) (c : cache) :
  data c = ∅ -> keys u c = (Ret [], c).
Proof.
  intros He. unfold keys, nc_keys, bind, read, ret.
  now rewrite He, map_to_list_empty.
Qed.

Lemma list_empty (u : option string -> outcome value) (now : Z) (c : cache) :
  data c = ∅ -> list_ u now c = (Ret [], c).
Proof.
  intros He. unfold list_. rewrite (bind_ret _ _ _ _ _ (keys_empty u c He)).
  now apply mget_all_absent.
Qed.

(** **** [list] and [get] *)

Lemma list_agrees (c : cache) (now : Z) :
  store_ok c ->
  exists m c',
    Canonical.list_ now c = (Ret m, c')
    /\ forall k x, (k, x) ∈ m <-> supported k /\ fst (Canonical.get k now c) = Ret x.
Proof.
  intros Hok. destruct (keys_members c Hok) as [_ Hmem].
  set (ks := (fun tok => decode (Some tok)) <$> (map_to_list (data c)).*1) in *.
  assert (Hks : Forall supported ks).
  { apply Forall_forall. intros k Hin. now apply Hmem in Hin as [Hk _]. }
  destruct (mget_agrees c ks now Hok Hks) as (m & c' & Hrun & Hspec).
  exists m, c'. split.
  - unfold Canonical.list_, list_.
    now rewrite (bind_ret _ _ _ _ _ (keys_ok c Hok)).
  - intros k x. rewrite Hspec. split.
    + intros [Hin Hget]. split; [|assumption].
      apply list_elem_of_In in Hin. now apply Hmem in Hin as [Hk _].
    + intros [Hk Hget]. split; [|assumption].
      apply list_elem_of_In, Hmem. split; [assumption|].
      rewrite (get_outcome c k now Hok Hk) in Hget.
      destruct (data c !! text k) as [e|]; [now exists e | discriminate].
Qed.

(** **** What every method but [set] leaves alone *)

Lemma keeps_refl (c : cache) : keeps c c.
Proof.
  repeat split; auto. exists []. now rewrite app_nil_r.
Qed.

Lemma keeps_trans (c1 c2 c3 : cache) : keeps c1 c2 -> keeps c2 c3 -> keeps c1 c3.
Proof.
  intros (Ht & Hp & Hd & evs & He) (Ht' & Hp' & Hd' & evs' & He').
  repeat split; [congruence | congruence | auto |].
  exists (evs ++ evs'). now rewrite He', He, app_assoc.
Qed.

Lemma keeps_emitted (c : cache) (d : gmap string entry) (evs : list event) :
  (forall tok e, d !! tok = Some e -> data c !! tok = Some e) ->
  keeps c (Cache (m_ttl c) (m_checkPeriod c) d (emitted c ++ evs)).
Proof. intros Hd. repeat split; eauto. Qed.

Lemma keeps_delete (c : cache) (key : string) :
  keeps c (Cache (m_ttl c) (m_checkPeriod c) (delete key (data c)) (emitted c)).
Proof.
  repeat split; simpl.
  - intros tok e He. now apply lookup_delete_Some in He as [_ He].
  - exists []. now rewrite app_nil_r.
Qed.

Lemma read_only_ret {A} (a : A) : read_only (ret a).
Proof. intros c. apply keeps_refl. Qed.

Lemma read_only_throw {A} (e : error) : read_only (@throw A e).
Proof. intros c. apply keeps_refl. Qed.

Lemma read_only_lift {A} (o : outcome A) : read_only (lift o).
Proof. intros c. apply keeps_refl. Qed.

Lemma read_only_read : read_only read.
Proof. intros c. apply keeps_refl. Qed.

Lemma read_only_emit (ev : event) : read_only (emit ev).
Proof. intros c. now apply keeps_emitted. Qed.

Lemma read_only_bind {A B} (m : M A) (k : A -> M B) :
  read_only m -> (forall a, read_only (k a)) -> read_only (bind m k).
Proof.
  intros Hm Hk c. unfold bind. specialize (Hm c).
  destruct (m c) as [[a|e|] c']; simpl in *; [|assumption..].
  eapply keeps_trans; [exact Hm | apply Hk].
Qed.

Lemma read_only_try {A} (body handler : M A) :
  read_only body -> read_only handler -> read_only (try_catch body handler).
Proof.
  intros Hb Hh c. unfold try_catch. specialize (Hb c).
  destruct (body c) as [[a|e|] c']; simpl in *; [assumption| |assumption].
  eapply keeps_trans; [exact Hb | apply Hh].
Qed.

Lemma read_only_stringify (x : value) : read_only (stringify x).
Proof.
  unfold stringify.
  destruct (JSON_stringify x); [apply read_only_ret.. | apply read_only_throw].
Qed.

Lemma read_only_mapM {A B} (f : A -> M B) (l : list A) :
  (forall a, read_only (f a)) -> read_only (mapM f l).
Proof.
  intros Hf. induction l as [|a l IH]; simpl; [apply read_only_ret|].
  apply read_only_bind; [apply Hf | intros b].
  apply read_only_bind; [apply IH | intros bs]. apply read_only_ret.
Qed.

Create HintDb read_only.
#[export] Hint Resolve read_only_ret read_only_throw read_only_lift read_only_read
  read_only_emit read_only_stringify : read_only.

Ltac read_only :=
  repeat first
    [ progress auto with read_only
    | apply read_only_bind; [|intros ?]
    | apply read_only_try
    | apply read_only_mapM; intros ?
    | match goal with
      | |- read_only (match ?x with _ => _ end) => destruct x
      | |- read_only (if ?x then _ else _) => destruct x
      end ].

Section any_variant.
Variable u : option string -> outcome value.

Lemma read_only_on_del (key : string) (value : option string) :
  read_only (on_del u key value).
Proof. unfold on_del. read_only. Qed.

Lemma read_only_on_expired (key : string) (value : option string) :
  read_only (on_expired u key value).
Proof. unfold on_expired. read_only. Qed.

Lemma read_only_nc_del (keys : list (option string)) : read_only (nc_del u keys).
Proof.
  induction keys as [|[key|] rest IH]; simpl; [read_only| |read_only].
  intros c. rewrite bind_read. destruct (data c !! key) as [e|]; [|apply IH].
  rewrite (bind_ret (set_data _) _ c _ tt eq_refl).
  eapply keeps_trans; [apply keeps_delete|].
  apply read_only_bind; [apply read_only_on_del | intros _].
  apply read_only_bind; [apply IH | intros n]. read_only.
Qed.

Lemma read_only_nc_check (key : string) (e : entry) (now : Z) :
  read_only (nc_check u key e now).
Proof.
  unfold nc_check. destruct (expired now e); [|read_only].
  apply read_only_bind; [apply read_only_nc_del | intros _].
  apply read_only_bind; [apply read_only_on_expired | intros _]. read_only.
Qed.

Lemma read_only_nc_get (key : option string) (now : Z) :
  read_only (nc_get u key now).
Proof.
  destruct key as [k|]; simpl; [|read_only].
  intros c. rewrite bind_read. destruct (data c !! k) as [e|]; [|apply keeps_refl].
  apply read_only_bind; [apply read_only_nc_check | intros ok]. read_only.
Qed.

Lemma read_only_nc_getTtl (key : option string) (now : Z) :
  read_only (nc_getTtl u key now).
Proof.
  unfold nc_getTtl. destruct (truthy key); [|read_only].
  intros c. rewrite bind_read.
  destruct (data c !! to_text key) as [e|]; [|apply keeps_refl].
  apply read_only_bind; [apply read_only_nc_check | intros ok]. read_only.
Qed.

Lemma read_only_nc_mget (keys : list (option string)) (now : Z) :
  forall oRet, read_only (nc_mget u keys now oRet).
Proof.
  induction keys as [|[key|] rest IH]; intros oRet; simpl; [read_only| |read_only].
  intros c. rewrite bind_read. destruct (data c !! key) as [e|]; [|apply IH].
  apply read_only_bind; [apply read_only_nc_check | intros ok].
  destruct ok; apply IH.
Qed.

Lemma read_only_nc_flushAll : read_only nc_flushAll.
Proof.
  intros c. unfold nc_flushAll, on_flush.
  rewrite (bind_ret (set_data _) _ c _ tt eq_refl). simpl.
  apply keeps_emitted. intros tok e He. now rewrite lookup_empty in He.
Qed.

Lemma read_only_mget_values (entries : list (string * option string)) :
  forall values, read_only (mget_values u entries values).
Proof.
  induction entries as [|[key value] rest IH]; intros values; simpl; [read_only|].
  destruct (truthy value); [|apply IH].
  apply read_only_bind; [read_only | intros k].
  apply read_only_bind; [read_only | intros x]. apply IH.
Qed.

Lemma read_only_get (key : value) (now : Z) : read_only (get u key now).
Proof.
  unfold get. apply read_only_bind; [read_only | intros k].
  apply read_only_bind; [apply read_only_nc_get | intros x]. read_only.
Qed.

Lemma read_only_exists (key : value) (now : Z) : read_only (exists_ u key now).
Proof.
  unfold exists_. apply read_only_try; [|read_only].
  apply read_only_bind; [apply read_only_get | intros x]. read_only.
Qed.

Lemma read_only_keys : read_only (keys u).
Proof. unfold keys, nc_keys. read_only. Qed.

Lemma read_only_mget (ks : list value) (now : Z) : read_only (mget u ks now).
Proof.
  unfold mget. apply read_only_bind; [read_only | intros toks].
  apply read_only_bind; [apply read_only_nc_mget | intros o].
  apply read_only_mget_values.
Qed.

Lemma read_only_list (now : Z) : read_only (list_ u now).
Proof.
  unfold list_. apply read_only_bind; [apply read_only_keys | intros ks].
  apply read_only_mget.
Qed.

Lemma read_only_del (key : value) : read_only (del u key).
Proof.
  unfold del. apply read_only_bind; [read_only | intros k].
  apply read_only_bind; [apply read_only_nc_del | intros n]. read_only.
Qed.

Lemma read_only_mdel (ks : list value) : read_only (mdel u ks).
Proof.
  unfold mdel. apply read_only_bind; [read_only | intros toks].
  apply read_only_bind; [apply read_only_nc_del | intros n]. read_only.
Qed.

Lemma read_only_ttl (key : value) (now : Z) : read_only (ttl u key now).
Proof.
  unfold ttl. apply read_only_bind; [read_only | intros k].
  apply read_only_bind; [apply read_only_nc_getTtl | intros r]. read_only.
Qed.

End any_variant.

Lemma keeps_store_ok (c c' : cache) : store_ok c -> keeps c c' -> store_ok c'.
Proof.
  intros Hok (_ & _ & Hd & _). now apply store_ok_subset with c.
Qed.

(** **** Values with holes *)







(** **** What [JSON.parse] can give *)

Lemma pres_map_inv {A B} (f : A -> B) (p : pres A) (b : B) (r : string) :
  pres_map f p = POk b r -> exists a, p = POk a r /\ b = f a.
Proof. destruct p; simpl; [|discriminate..]. intros [= <- <-]. eauto. Qed.

Lemma literal_value (p : string) (x y : value) (s r : string) :
  literal p x s = POk y r -> y = x.
Proof. unfold literal. destruct (strip_prefix p s); [|discriminate]. now intros [= <- _]. Qed.

Lemma set_prop_key_in (k k0 : string) (x : value) (ps : list (string * value)) :
  k0 ∈ (set_prop k x ps).*1 -> k0 = k \/ k0 ∈ ps.*1.
Proof.
  induction ps as [|[k' x'] ps IH]; simpl.
  - intros Hin. apply list_elem_of_singleton in Hin. now left.
  - destruct (k' =? k)%string; simpl; intros Hin;
      apply elem_of_cons in Hin as [->|Hin]; [right; left | right; now right
                                              | right; left |].
    destruct (IH Hin) as [->|Hin']; [now left | right; now right].
Qed.

Lemma set_prop_nodup (k : string) (x : value) (ps : list (string * value)) :
  NoDup ps.*1 -> NoDup (set_prop k x ps).*1.
Proof.
  induction ps as [|[k' x'] ps IH]; simpl; intros Hnd.
  - apply NoDup_singleton.
  - apply NoDup_cons in Hnd as [Hk' Hnd].
    destruct (String.eqb_spec k' k) as [->|Hne]; simpl.
    + apply NoDup_cons. now split.
    + apply NoDup_cons. split; [|now apply IH].
      intros Hin. apply set_prop_key_in in Hin as [->|Hin]; [now apply Hne|].
      now apply Hk'.
Qed.

Lemma set_prop_plain (k : string) (x : value) (ps : list (string * value)) :
  is_plain x = true -> forallb (fun p => is_plain p.2) ps = true ->
  forallb (fun p => is_plain p.2) (set_prop k x ps) = true.
Proof.
  intros Hx. induction ps as [|[k' x'] ps IH]; simpl; intros Hps.
  - now rewrite Hx.
  - apply andb_prop in Hps as [H1 H2].
    destruct (k' =? k)%string; simpl; [now rewrite Hx | now rewrite H1, IH].
Qed.

Lemma obj_of_members_plain (ms : list (string * value)) :
  forallb (fun p => is_plain p.2) ms = true ->
  is_plain (JObj (obj_of_members ms)) = true.
Proof.
  intros Hms. unfold obj_of_members.
  assert (Hgen : forall o,
            NoDup o.*1 -> forallb (fun p => is_plain p.2) o = true ->
            NoDup (fold_left (fun o m => set_prop m.1 m.2 o) ms o).*1
            /\ forallb (fun p => is_plain p.2)
                 (fold_left (fun o m => set_prop m.1 m.2 o) ms o) = true).
  { induction ms as [|[k x] ms IH]; intros o Hnd Ho; simpl; [now split|].
    simpl in Hms. apply andb_prop in Hms as [H1 H2].
    apply (IH H2); [now apply set_prop_nodup | now apply set_prop_plain]. }
  destruct (Hgen [] (NoDup_nil_2) eq_refl) as [Hnd Hall].
  simpl. apply andb_true_intro. split; [now apply bool_decide_eq_true | assumption].
Qed.

Lemma parse_plain (fuel : nat) :
  forall s : string,
    (forall x r, parse_value fuel s = POk x r -> is_plain x = true)
    /\ (forall l r, parse_elements fuel s = POk l r -> forallb is_plain l = true)
    /\ (forall l r, parse_members fuel s = POk l r ->
                    forallb (fun p => is_plain p.2) l = true).
Proof.
  induction fuel as [|f IH]; intros s; [repeat split; discriminate|].
  repeat split.
  - intros x r. simpl.
    destruct (skip_ws s) as [|c r0]; [discriminate|].
    repeat (case_match; try discriminate);
      try (intros Hlit; apply literal_value in Hlit; now subst);
      try (now intros [= <- _]).
    + intros Hp. apply pres_map_inv in Hp as (l & Hp & ->). now apply IH in Hp.
    + intros Hp. apply pres_map_inv in Hp as (l & Hp & ->).
      apply IH in Hp. now apply obj_of_members_plain.
  - intros l r. simpl.
    destruct (parse_value f s) as [x r1| |] eqn:Ev; [|discriminate..].
    apply IH in Ev.
    destruct (skip_ws r1) as [|c r2]; [discriminate|].
    repeat (case_match; try discriminate).
    + intros Hp. apply pres_map_inv in Hp as (l' & Hp & ->). apply IH in Hp.
      simpl. now rewrite Ev.
    + intros [= <- _]. simpl. now rewrite Ev.
  - intros l r. simpl.
    destruct (skip_ws s) as [|c r0]; [discriminate|].
    destruct (c =? dq)%char; [|discriminate].
    destruct (parse_chars r0) as [[k r1]|]; [|discriminate].
    destruct (skip_ws r1) as [|c1 r2]; [discriminate|].
    destruct (c1 =? ":")%char; [|discriminate].
    destruct (parse_value f r2) as [x r3| |] eqn:Ev; [|discriminate..].
    apply IH in Ev.
    destruct (skip_ws r3) as [|c3 r4]; [discriminate|].
    repeat (case_match; try discriminate).
    + intros Hp. apply pres_map_inv in Hp as (l' & Hp & ->). apply IH in Hp.
      simpl. now rewrite Ev.
    + intros [= <- _]. simpl. now rewrite Ev.
Qed.

Lemma JSON_parse_plain (s : string) (x : value) :
  JSON_parse s = Parsed x -> is_plain x = true.
Proof.
  unfold JSON_parse.
  destruct (parse_value (parse_fuel s) s) as [y r| |] eqn:Ep; [|discriminate..].
  destruct (skip_ws r); [|discriminate]. intros [= <-].
  now apply (parse_plain (parse_fuel s) s) in Ep.
Qed.

Lemma unstringify_plain (str : option string) (x : value) :
  Canonical.unstringify str = Ret x -> is_plain x = true.
Proof.
  unfold Canonical.unstringify.
  destruct (JSON_parse (to_text str)) as [y| |] eqn:Ep; [|discriminate..].
  intros [= <-]. now apply JSON_parse_plain in Ep.
Qed.

Lemma bind_inv {A B} (m : M A) (k : A -> M B) (c : cache) (b : B) :
  fst (bind m k c) = Ret b ->
  exists a c', m c = (Ret a, c') /\ fst (k a c') = Ret b.
Proof.
  unfold bind. destruct (m c) as [[a|e|] c']; simpl; [eauto | discriminate..].
Qed.

Lemma map_set_plain (k x : value) (m : list (value * value)) :
  is_plain k = true -> is_plain x = true ->
  Forall (fun p => is_plain p.1 = true /\ is_plain p.2 = true) m ->
  Forall (fun p => is_plain p.1 = true /\ is_plain p.2 = true) (map_set k x m).
Proof.
  intros Hk Hx. induction 1 as [|[k' x'] m [Hk' Hx'] Hm IH]; simpl.
  - now repeat constructor.
  - destruct (same_value_zero k' k); constructor; auto.
Qed.

Lemma mget_values_plain (entries : list (string * option string)) :
  forall (values r : list (value * value)) (c : cache),
    fst (mget_values Canonical.unstringify entries values c) = Ret r ->
    Forall (fun p => is_plain p.1 = true /\ is_plain p.2 = true) values ->
    Forall (fun p => is_plain p.1 = true /\ is_plain p.2 = true) r.
Proof.
  induction entries as [|[key value] rest IH]; intros values r c; simpl.
  - now intros [= <-].
  - destruct (truthy value); [|apply IH].
    intros Hr Hv.
    apply bind_inv in Hr as (k & c1 & Hk & Hr).
    apply bind_inv in Hr as (x & c2 & Hx & Hr).
    injection Hk as Hk <-. injection Hx as Hx <-.
    apply (IH _ _ _ Hr). apply map_set_plain; [| |assumption].
    + now apply unstringify_plain in Hk.
    + now apply unstringify_plain in Hx.
Qed.

Lemma mapM_unstringify_plain (toks : list string) :
  forall (ks : list value) (c : cache),
    fst (mapM (fun key => lift (Canonical.unstringify (Some key))) toks c) = Ret ks ->
    Forall (fun k => is_plain k = true) ks.
Proof.
  induction toks as [|tok toks IH]; intros ks c; simpl.
  - intros [= <-]. constructor.
  - intros Hr. apply bind_inv in Hr as (k & c1 & Hk & Hr).
    apply bind_inv in Hr as (ks' & c2 & Hks & Hr).
    injection Hk as Hk <-. injection Hr as <-.
    constructor; [now apply unstringify_plain in Hk|].
    apply (IH ks' c). now rewrite Hks.
Qed.

(** **** [set] of a value whose token is that of another value *)


Lemma get_after_set (c : cache) (k x : value) (e : entry) (now : Z) :
  supported k -> supported x ->
  data c !! text k = Some e -> v e = Some (text x) -> expired now e = false ->
  Canonical.get k now c = (Ret x, c).
Proof.
  intros Hk Hx He Hv Hl. unfold Canonical.get.
  rewrite (get_hit _ _ k (text k) e now (serialize_supported k Hk) He Hl).
  now rewrite Hv, (text_truthy x Hx), unstringify_text.
Qed.

(** **** A negative time to live *)

Lemma nc_ttl_negative (c : cache) (k x : value) (e : entry) (ttl now : Z) :
  supported k -> supported x ->
  data c !! text k = Some e -> v e = Some (text x) -> expired now e = false ->
  ttl < 0 ->
  nc_ttl Canonical.unstringify (Some (text k)) ttl now c
  = (Ret true,
     Cache (m_ttl c) (m_checkPeriod c) (delete (text k) (data c))
       (emitted c ++ [EvDel k x])).
Proof.
  intros Hk Hx He Hv Hl Httl. unfold nc_ttl. rewrite bind_read. cbv zeta.
  destruct (Z.eqb_spec ttl 0) as [->|_]; [lia|].
  rewrite (text_truthy k Hk). unfold to_text. rewrite He.
  rewrite (bind_ret _ _ _ _ _ (nc_check_live _ (text k) e now c Hl)).
  destruct (Z.leb_spec 0 ttl) as [?|_]; [lia|].
  assert (Hdel : (nc_del Canonical.unstringify [Some (text k)] ;;; ret tt) c
                 = (Ret tt,
                    Cache (m_ttl c) (m_checkPeriod c) (delete (text k) (data c))
                      (emitted c ++ [EvDel k x]))).
  { now rewrite (bind_ret _ _ _ _ _ (nc_del_present c k x e Hk Hx He Hv)). }
  now rewrite (bind_ret _ _ _ _ _ Hdel).
Qed.

(** **** Keys that are not stored *)




(** **** [del] in full on a well-formed store *)

Lemma del_run (c : cache) (k : value) :
  store_ok c -> supported k ->
  exists c',
    Canonical.del k c = (Ret tt, c')
    /\ data c' = delete (text k) (data c)
    /\ store_ok c'.
Proof.
  intros Hok Hk. unfold Canonical.del, del.
  rewrite (bind_ret _ _ _ _ _ (stringify_supported k c Hk)).
  destruct (data c !! text k) as [e|] eqn:He.
  - destruct (store_ok_lookup c _ e Hok He) as (k' & x & Hk' & Ht & Hx & Hv).
    apply text_inj in Ht; [|assumption..]. subst k'.
    rewrite (bind_ret _ _ _ _ _ (nc_del_present c k x e Hk Hx He Hv)).
    eexists. split; [reflexivity|]. split; [reflexivity|].
    now apply store_ok_delete with c (text k).
  - rewrite (bind_ret _ _ _ _ _ (nc_del_absent _ c (text k) He)).
    exists c. split; [reflexivity|]. split; [|assumption].
    symmetry. now apply delete_id.
Qed.

(** **** [mdel] and [del] *)

Lemma stringify_pure (key : value) :
  throws key = false -> exists k, forall c, stringify key c = (Ret k, c).
Proof.
  unfold throws, stringify. destruct (JSON_stringify key); eauto; discriminate.
Qed.

Lemma mapM_stringify_pure (ks : list value) :
  existsb throws ks = false ->
  exists toks, forall c, mapM stringify ks c = (Ret toks, c).
Proof.
  induction ks as [|k ks IH]; simpl; intros Hks; [now exists []|].
  apply orb_false_elim in Hks as [Hk Hks].
  destruct (stringify_pure k Hk) as (tok & Htok).
  destruct (IH Hks) as (toks & Htoks).
  exists (tok :: toks). intros c.
  rewrite (bind_ret _ _ _ _ _ (Htok c)).
  now rewrite (bind_ret _ _ _ _ _ (Htoks c)).
Qed.

Lemma nc_del_cons (u : option string -> outcome value) (key : option string)
    (rest : list (option string)) (c : cache) :
  (nc_del u (key :: rest) ;;; ret tt) c
  = ((nc_del u [key] ;;; ret tt) ;;; (nc_del u rest ;;; ret tt)) c.
Proof.
  destruct key as [key|]; [|reflexivity].
  simpl. unfold bind, read, set_data, ret.
  destruct (data c !! key) as [e|].
  - destruct (on_del u key (v e) _) as [[[]|err|] c1]; [|reflexivity..].
    now destruct (nc_del u rest c1) as [[n|err|] c2].
  - now destruct (nc_del u rest c) as [[n|err|] c2].
Qed.

End MoreFacts.

Import MoreFacts.

(* ===================================================================== *)
(** ** Further properties of the code *)
(* ===================================================================== *)

(** X1: [set(k, x, ttl)] with a supported key and value, on a cache
    whose default time to live is not negative and with a time to live
    that is not negative, returns normally; afterwards the store holds
    for [k] the token of [x] with the expiry [now + ttl * 1000], where
    an omitted or zero [ttl] stands for the default one and a resulting
    [0] means no expiry; the other entries are as before, and exactly
    one [set] notification, with the key and the value, was emitted. *)
Theorem X1_set_effect (c : cache) (k x : value) (ttl : option Z) (now : Z) :
  supported k -> supported x ->
  0 <= m_ttl c -> 0 <= default (m_ttl c) ttl ->
  exists c',
    Canonical.set k x ttl now c = (Ret tt, c')
    /\ data c'
       = <[text k := Entry (if effective_ttl c ttl =? 0 then 0
                            else now + effective_ttl c ttl * 1000)
                       (Some (text x))]> (data c)
    /\ emitted c' = emitted c ++ [EvSet k x]
    /\ m_ttl c' = m_ttl c /\ m_checkPeriod c' = m_checkPeriod c.
Proof.
  intros Hk Hx Hdef Httl. eexists. split; [now apply set_run|].
  repeat split.
Qed.


(** X3: keys do not interfere.  For two different supported keys [a] and
    [b], [set(a, ...)] leaves the entry of [b] as it was, and [get(b)]
    after it ends as [get(b)] before it would have. *)
Theorem X3_set_leaves_other_keys (c : cache) (a b x : value) (ttl : option Z)
    (now now' : Z) :
  store_ok c -> supported a -> supported b -> supported x -> a <> b ->
  0 <= m_ttl c -> 0 <= default (m_ttl c) ttl ->
  let c1 := snd (Canonical.set a x ttl now c) in
  data c1 !! text b = data c !! text b
  /\ fst (Canonical.get b now' c1) = fst (Canonical.get b now' c).
Proof.
  intros Hok Ha Hb Hx Hab Hdef Httl c1.
  assert (Hok1 : store_ok c1) by now apply set_store_ok.
  assert (Hd : data c1 !! text b = data c !! text b).
  { subst c1. rewrite (set_run c a x ttl now Ha Hx Hdef Httl). simpl.
    apply lookup_insert_ne. intros E. apply Hab. now apply text_inj. }
  split; [assumption|].
  now rewrite (get_outcome c1 b now' Hok1 Hb), (get_outcome c b now' Hok Hb), Hd.
Qed.

(** X4: a hit is a pure read.  When the entry of the key is present and
    in time and holds a token, [get] returns what [unstringify] gives
    for the token and leaves the instance exactly as it was: no entry,
    no expiry and no notification changes, so reading does not prolong
    the life of an entry. *)
Theorem X4_get_hit_is_pure (c : cache) (key : value) (tok : string) (e : entry)
    (now : Z) :
  JSON_stringify key = SText tok ->
  data c !! tok = Some e -> expired now e = false -> truthy (v e) = true ->
  Canonical.get key now c = (Canonical.unstringify (v e), c).
Proof.
  intros Hk He Hl Ht. unfold Canonical.get.
  rewrite (get_hit _ c key tok e now Hk He Hl). now rewrite Ht.
Qed.

(** X5: on node-cache a read evicts.  When [get] finds the entry of a
    supported key past its time, on a well-formed store, it fails with
    the key-not-found error, the entry is removed, and a [del] and then
    an [expired] notification with the decoded key and value are
    emitted through the forwarders of the constructor.  This is what the
    package does on a read ([nc_check]); the specification says that a
    read does not remove and that [expired] comes from the sweep. *)
Theorem X5_get_past_time_evicts (c : cache) (k : value) (e : entry) (now : Z) :
  store_ok c -> supported k ->
  data c !! text k = Some e -> expired now e = true ->
  exists x c',
    v e = Some (text x)
    /\ Canonical.get k now c = (Throw KeyNotFound, c')
    /\ data c' = delete (text k) (data c)
    /\ emitted c' = emitted c ++ [EvDel k x; EvExpired k x].
Proof.
  intros Hok Hk He Hp.
  destruct (store_ok_lookup c _ e Hok He) as (k' & x & Hk' & Ht & Hx & Hv).
  apply text_inj in Ht; [|assumption..]. subst k'.
  exists x. eexists. split; [assumption|].
  split; [now apply (get_past c k x e now)|]. split; reflexivity.
Qed.

(** X6: [del(k)] on a key that is present, on a well-formed store,
    returns normally, removes the entry (whether in time or not), emits
    exactly one [del] notification with the decoded key and value, and
    [get(k)] then fails with the key-not-found error. *)
Theorem X6_del_present (c : cache) (k : value) (e : entry) :
  store_ok c -> supported k -> data c !! text k = Some e ->
  exists x c',
    v e = Some (text x)
    /\ Canonical.del k c = (Ret tt, c')
    /\ data c' = delete (text k) (data c)
    /\ emitted c' = emitted c ++ [EvDel k x]
    /\ forall now, Canonical.get k now c' = (Throw KeyNotFound, c').
Proof.
  intros Hok Hk He.
  destruct (store_ok_lookup c _ e Hok He) as (k' & x & Hk' & Ht & Hx & Hv).
  apply text_inj in Ht; [|assumption..]. subst k'.
  exists x. eexists. split; [assumption|]. split.
  - unfold Canonical.del, del.
    rewrite (bind_ret _ _ _ _ _ (stringify_supported k c Hk)).
    now rewrite (bind_ret _ _ _ _ _ (nc_del_present c k x e Hk Hx He Hv)).
  - split; [reflexivity|]. split; [reflexivity|].
    intros now. unfold Canonical.get.
    apply (get_absent_token _ _ k (text k));
      [now apply serialize_supported | apply lookup_delete_eq].
Qed.

(** X7: [del(key)] on a key that is absent is a no-op in both variants:
    it returns normally and the instance is exactly as before (nothing
    removed, nothing emitted). *)
Theorem X7_del_absent_is_noop (c : cache) (key : value) (tok : string) :
  JSON_stringify key = SText tok -> data c !! tok = None ->
  Canonical.del key c = (Ret tt, c)
  /\ forall fuel, IndexTs.del fuel key c = (Ret tt, c).
Proof.
  intros Hk He.
  assert (H : forall u, del u key c = (Ret tt, c)).
  { intros u. unfold del.
    rewrite (bind_ret _ _ _ _ _ (stringify_token key tok c Hk)).
    now rewrite (bind_ret _ _ _ _ _ (nc_del_absent u c tok He)). }
  split; [apply H | intros fuel; apply H].
Qed.


(** X9: [ttl] reports a miss for an entry that never expires.  On a
    cache whose default time to live is [0], after [set(k, x)] with the
    time to live omitted or zero, [get(k)] returns [x] at any time, yet
    [ttl(k)] fails with the key-not-found error, because the expiry [0]
    of the entry is falsy.  On an absent key [ttl] fails with the same
    error, in every state. *)
Theorem X9_ttl_miss (c : cache) (k x : value) (ttl0 : option Z) (now now' : Z) :
  supported k -> supported x ->
  m_ttl c = 0 -> default (m_ttl c) ttl0 = 0 ->
  let c1 := snd (Canonical.set k x ttl0 now c) in
  Canonical.get k now' c1 = (Ret x, c1)
  /\ ttl Canonical.unstringify k now' c1 = (Throw KeyNotFound, c1)
  /\ (forall c0 key tok,
        JSON_stringify key = SText tok -> data c0 !! tok = None ->
        ttl Canonical.unstringify key now' c0 = (Throw KeyNotFound, c0)).
Proof.
  intros Hk Hx Hdef Httl c1. subst c1.
  rewrite (set_run c k x ttl0 now Hk Hx) by lia. simpl snd.
  assert (Heff : effective_ttl c ttl0 = 0).
  { unfold effective_ttl. now rewrite Httl, Hdef. }
  rewrite Heff. unfold wrap. simpl.
  split; [|split].
  - unfold Canonical.get. erewrite get_hit;
      [|now apply serialize_supported | apply lookup_insert_eq | reflexivity].
    simpl v. rewrite (text_truthy x Hx). now rewrite unstringify_text.
  - erewrite ttl_live;
      [|now apply serialize_supported | apply lookup_insert_eq | reflexivity].
    reflexivity.
  - intros c0 key tok Hkey Hnone. now apply ttl_absent with tok.
Qed.

(** X10: a key whose encoding throws makes [get], [del], [ttl], [set],
    [mget] and [mdel] fail with that error, before the store is touched:
    the instance is unchanged; [exists] answers [false].  The same holds
    for [set] when it is the value whose encoding throws. *)
Theorem X10_encoding_failure (c : cache) (key : value) (now : Z) :
  throws key = true ->
  Canonical.get key now c = (Throw TypeError, c)
  /\ Canonical.del key c = (Throw TypeError, c)
  /\ ttl Canonical.unstringify key now c = (Throw TypeError, c)
  /\ Canonical.exists_ key now c = (Ret false, c)
  /\ (forall x ttl0, Canonical.set key x ttl0 now c = (Throw TypeError, c))
  /\ (forall k ttl0, throws k = false ->
                     Canonical.set k key ttl0 now c = (Throw TypeError, c))
  /\ (forall ks, In key ks ->
                 Canonical.mget ks now c = (Throw TypeError, c)
                 /\ Canonical.mdel ks c = (Throw TypeError, c)).
Proof.
  intros Hkey. pose proof (stringify_throws key c Hkey) as Hs.
  assert (Hget : Canonical.get key now c = (Throw TypeError, c)).
  { unfold Canonical.get, get. now apply bind_throw. }
  split; [assumption|]. split; [|split; [|split; [|split; [|split]]]].
  - unfold Canonical.del, del. now apply bind_throw.
  - unfold ttl. now apply bind_throw.
  - unfold Canonical.exists_, exists_, try_catch.
    erewrite bind_throw by exact Hget. reflexivity.
  - intros x ttl0. unfold Canonical.set, set. rewrite bind_read.
    now apply bind_throw.
  - intros k ttl0 Hk. unfold Canonical.set, set. rewrite bind_read.
    destruct (stringify_no_throw k c Hk) as (tok & Htok).
    rewrite (bind_ret _ _ _ _ _ Htok). now apply bind_throw.
  - intros ks Hin.
    pose proof (mapM_stringify_throws ks c (existsb_throws_In ks key Hin Hkey)) as Hm.
    split.
    + unfold Canonical.mget, mget. now apply bind_throw.
    + unfold Canonical.mdel, mdel. now apply bind_throw.
Qed.

(** X11: after [flush()] every read misses.  On the instance [flush]
    leaves, [get] and [ttl] of any key that encodes fail with the
    key-not-found error, [exists] answers [false], [mget] of keys that
    encode and [list] return the empty mapping, and none of them changes
    the instance. *)
Theorem X11_flush_then_miss (c : cache) :
  let c' := snd (Canonical.flush c) in
  (forall key tok now,
     JSON_stringify key = SText tok ->
     Canonical.get key now c' = (Throw KeyNotFound, c')
     /\ Canonical.exists_ key now c' = (Ret false, c')
     /\ ttl Canonical.unstringify key now c' = (Throw KeyNotFound, c'))
  /\ (forall ks now, forallb encodes ks = true ->
                     Canonical.mget ks now c' = (Ret [], c'))
  /\ (forall now, Canonical.list_ now c' = (Ret [], c')).
Proof.
  intros c'. subst c'. rewrite flush_run. simpl snd.
  split; [|split].
  - intros key tok now Hkey.
    assert (Hget : Canonical.get key now
                     (Cache (m_ttl c) (m_checkPeriod c) ∅ (emitted c ++ [EvFlush]))
                   = (Throw KeyNotFound,
                      Cache (m_ttl c) (m_checkPeriod c) ∅ (emitted c ++ [EvFlush]))).
    { now apply get_absent_token with tok. }
    split; [assumption|]. split.
    + unfold Canonical.exists_, exists_, try_catch.
      erewrite bind_throw by exact Hget. reflexivity.
    + now apply ttl_absent with tok.
  - intros ks now Hks. apply mget_all_absent.
    apply forallb_encodes in Hks. eapply Forall_impl; [exact Hks|].
    intros k (tok & Hk). now exists tok.
  - intros now. now apply list_empty.
Qed.

(** X12: on node-cache [keys()] lists every stored key.  On a
    well-formed store it returns, in some order, every stored key once,
    decoded, whether its entry is in time or not, and leaves the
    instance as it is: a key whose entry is past its time is listed
    although [get] of it fails.  This is what the package's [keys]
    gives ([nc_keys]); the specification says that [keys()] lists the
    keys that are not expired. *)
Theorem X12_keys_lists_every_entry (c : cache) :
  store_ok c ->
  exists ks,
    Canonical.keys c = (Ret ks, c)
    /\ NoDup ks
    /\ (forall k, k ∈ ks <-> supported k /\ is_Some (data c !! text k))
    /\ (forall k e now,
          supported k -> data c !! text k = Some e -> expired now e = true ->
          k ∈ ks /\ fst (Canonical.get k now c) = Throw KeyNotFound).
Proof.
  intros Hok. destruct (keys_members c Hok) as [Hnd Hmem].
  eexists. split; [now apply keys_ok|]. split; [assumption|].
  split; [assumption|].
  intros k e now Hk He Hp. split.
  - apply Hmem. split; [assumption | now exists e].
  - now rewrite (get_outcome c k now Hok Hk), He, Hp.
Qed.

(** X13: [mget] agrees with [get].  On a well-formed store and for
    supported keys, [mget(ks)] at some time returns a mapping that holds
    the pair [(k, x)] exactly when [k] is one of the requested keys and
    [get(k)] at that time, on the same instance, returns [x]. *)
Theorem X13_mget_agrees_with_get (c : cache) (ks : list value) (now : Z) :
  store_ok c -> Forall supported ks ->
  exists m c',
    Canonical.mget ks now c = (Ret m, c')
    /\ forall k x, (k, x) ∈ m <-> In k ks /\ fst (Canonical.get k now c) = Ret x.
Proof. apply mget_agrees. Qed.

(** X14: [list] agrees with [get].  On a well-formed store [list()]
    returns a mapping that holds the pair [(k, x)] exactly when [k] is a
    supported value and [get(k)] at that time, on the same instance,
    returns [x]. *)
Theorem X14_list_agrees_with_get (c : cache) (now : Z) :
  store_ok c ->
  exists m c',
    Canonical.list_ now c = (Ret m, c')
    /\ forall k x, (k, x) ∈ m <-> supported k /\ fst (Canonical.get k now c) = Ret x.
Proof. apply list_agrees. Qed.

(** X15: only [set] writes.  Whatever [unstringify] does (so in both
    variants of the class), and on every instance, [get], [exists],
    [ttl], [keys], [list], [mget], [del], [mdel] and [flush] leave the
    two constructor parameters as they are, add no entry to the store
    and change none (every entry afterwards was there before, with the
    same value and expiry), and only append to the notifications
    emitted; this also holds when the call throws or does not return. *)
Theorem X15_only_set_writes (u : option string -> outcome value) (c : cache) :
  (forall key now, keeps c (snd (get u key now c)))
  /\ (forall key now, keeps c (snd (exists_ u key now c)))
  /\ (forall key now, keeps c (snd (ttl u key now c)))
  /\ keeps c (snd (keys u c))
  /\ (forall now, keeps c (snd (list_ u now c)))
  /\ (forall ks now, keeps c (snd (mget u ks now c)))
  /\ (forall key, keeps c (snd (del u key c)))
  /\ (forall ks, keeps c (snd (mdel u ks c)))
  /\ keeps c (snd (flush c)).
Proof.
  repeat split_and; intros.
  - apply read_only_get.
  - apply read_only_exists.
  - apply read_only_ttl.
  - apply read_only_keys.
  - apply read_only_list.
  - apply read_only_mget.
  - apply read_only_del.
  - apply read_only_mdel.
  - apply read_only_nc_flushAll.
Qed.

(** X16: well-formedness is an invariant.  A store every entry of which
    was written from a supported key and a supported value stays so
    under [set] with a supported key and value, and under every other
    method with any arguments, whether the call returns or throws. *)
Theorem X16_store_ok_invariant (c : cache) :
  store_ok c ->
  (forall k x ttl0 now, supported k -> supported x ->
                        store_ok (snd (Canonical.set k x ttl0 now c)))
  /\ (forall key now, store_ok (snd (Canonical.get key now c)))
  /\ (forall key now, store_ok (snd (Canonical.exists_ key now c)))
  /\ (forall key now, store_ok (snd (ttl Canonical.unstringify key now c)))
  /\ store_ok (snd (Canonical.keys c))
  /\ (forall now, store_ok (snd (Canonical.list_ now c)))
  /\ (forall ks now, store_ok (snd (Canonical.mget ks now c)))
  /\ (forall key, store_ok (snd (Canonical.del key c)))
  /\ (forall ks, store_ok (snd (Canonical.mdel ks c)))
  /\ store_ok (snd (Canonical.flush c)).
Proof.
  intros Hok. split; [intros; now apply set_store_ok|].
  repeat split_and; intros; apply (keeps_store_ok c _ Hok).
  - apply read_only_get.
  - apply read_only_exists.
  - apply read_only_ttl.
  - apply read_only_keys.
  - apply read_only_list.
  - apply read_only_mget.
  - apply read_only_del.
  - apply read_only_mdel.
  - apply read_only_nc_flushAll.
Qed.

(** X17: in the variant of [src/index.ts], [set] and [del] of a present
    key take effect although they never return.  For every amount of
    fuel, [set(k, x, ttl)] runs out of fuel in the forwarding of the
    store's [set] notification, after the entry was written: the store
    holds the token of [x] under the default time to live (the [ttl]
    given is never applied) and nothing was emitted.  [del(k)] of a key
    that is present runs out of fuel after the entry was removed. *)
Theorem X17_index_set_del_take_effect (fuel : nat) (c : cache) (k x : value)
    (tok s : string) (ttl0 : option Z) (now : Z) :
  JSON_stringify k = SText tok -> JSON_stringify x = SText s ->
  IndexTs.set fuel k x ttl0 now c
  = (OutOfFuel,
     Cache (m_ttl c) (m_checkPeriod c)
       (<[tok := wrap (Some s) (m_ttl c) now]> (data c)) (emitted c))
  /\ (forall e, data c !! tok = Some e ->
                IndexTs.del fuel k c
                = (OutOfFuel,
                   Cache (m_ttl c) (m_checkPeriod c) (delete tok (data c))
                     (emitted c))).
Proof.
  intros Hk Hx. split.
  - unfold IndexTs.set, set. rewrite bind_read. cbv beta zeta.
    rewrite (bind_ret _ _ _ _ _ (stringify_token k tok c Hk)).
    rewrite (bind_ret _ _ _ _ _ (stringify_token x s c Hx)).
    unfold nc_set, on_set, bind, read, set_data, lift. simpl.
    now rewrite index_unstringify_loops.
  - intros e He. unfold IndexTs.del, del.
    rewrite (bind_ret _ _ _ _ _ (stringify_token k tok c Hk)).
    unfold nc_del, on_del, bind, read, set_data, lift. simpl. rewrite He. simpl.
    now rewrite index_unstringify_loops.
Qed.


(** X19: what the cache hands out went through [JSON.parse].  Whatever
    the instance holds, a value [get] returns, the keys [keys] returns,
    and the keys and values of the mappings [mget] and [list] return
    contain no [undefined] and no BigInt, and no object with a repeated
    property name. *)
Theorem X19_results_are_plain (c : cache) (now : Z) :
  (forall key x, fst (Canonical.get key now c) = Ret x -> is_plain x = true)
  /\ (forall ks, fst (Canonical.keys c) = Ret ks ->
                 Forall (fun k => is_plain k = true) ks)
  /\ (forall ks m, fst (Canonical.mget ks now c) = Ret m ->
                   Forall (fun p => is_plain p.1 = true /\ is_plain p.2 = true) m)
  /\ (forall m, fst (Canonical.list_ now c) = Ret m ->
                Forall (fun p => is_plain p.1 = true /\ is_plain p.2 = true) m).
Proof.
  assert (Hmget : forall ks m c0,
            fst (Canonical.mget ks now c0) = Ret m ->
            Forall (fun p => is_plain p.1 = true /\ is_plain p.2 = true) m).
  { intros ks m c0 Hr. unfold Canonical.mget, mget in Hr.
    apply bind_inv in Hr as (toks & c1 & _ & Hr).
    apply bind_inv in Hr as (o & c2 & _ & Hr).
    apply (mget_values_plain _ _ _ _ Hr). constructor. }
  split; [|split; [|split]].
  - intros key x Hr. unfold Canonical.get, get in Hr.
    apply bind_inv in Hr as (k & c1 & _ & Hr).
    apply bind_inv in Hr as (value & c2 & _ & Hr).
    destruct (truthy value); [|discriminate].
    now apply unstringify_plain in Hr.
  - intros ks Hr. unfold Canonical.keys, keys in Hr.
    apply bind_inv in Hr as (toks & c1 & _ & Hr).
    now apply mapM_unstringify_plain in Hr.
  - intros ks m. apply Hmget.
  - intros m Hr. unfold Canonical.list_, list_ in Hr.
    apply bind_inv in Hr as (ks & c1 & _ & Hr). now apply Hmget in Hr.
Qed.


(** X21: a negative time to live deletes.  [set(k, x, ttl)] with
    [ttl < 0], on a cache whose default time to live is not negative,
    returns normally and leaves no entry for [k]: the entry is written
    and removed again, a previous entry of [k] is lost with it, and a
    [set] and a [del] notification are emitted. *)
Theorem X21_set_negative_ttl_deletes (c : cache) (k x : value) (ttl0 now : Z) :
  supported k -> supported x -> 0 <= m_ttl c -> ttl0 < 0 ->
  let c1 := snd (Canonical.set k x (Some ttl0) now c) in
  fst (Canonical.set k x (Some ttl0) now c) = Ret tt
  /\ data c1 = delete (text k) (data c)
  /\ emitted c1 = emitted c ++ [EvSet k x; EvDel k x]
  /\ forall now', Canonical.get k now' c1 = (Throw KeyNotFound, c1).
Proof.
  intros Hk Hx Hdef Httl c1.
  assert (Hrun : Canonical.set k x (Some ttl0) now c
                 = (Ret tt,
                    Cache (m_ttl c) (m_checkPeriod c) (delete (text k) (data c))
                      (emitted c ++ [EvSet k x; EvDel k x]))).
  { unfold Canonical.set, set. rewrite bind_read. cbv beta zeta.
    rewrite (bind_ret _ _ _ _ _ (stringify_supported k c Hk)).
    rewrite (bind_ret _ _ _ _ _ (stringify_supported x c Hx)).
    rewrite (bind_ret _ _ _ _ _ (nc_set_supported c k x now Hk Hx)).
    erewrite bind_ret.
    2:{ apply (nc_ttl_negative _ k x (wrap (Some (text x)) (m_ttl c) now));
          [assumption | assumption | apply lookup_insert_eq | apply v_wrap
          | now apply wrap_default_live | exact Httl]. }
    unfold ret, after_nc_set. simpl.
    now rewrite delete_insert_eq, <- app_assoc. }
  subst c1. rewrite Hrun. simpl.
  split; [reflexivity|]. split; [reflexivity|]. split; [reflexivity|].
  intros now'. apply get_absent_token with (text k);
    [now apply serialize_supported | apply lookup_delete_eq].
Qed.

(** X22: [get] is idempotent at a fixed time.  On a well-formed store
    and for a supported key, a second [get(k)] at the same time, on the
    instance the first one left, has the outcome of the first and
    changes nothing any more (an entry past its time was evicted by the
    first). *)
Theorem X22_get_idempotent (c : cache) (k : value) (now : Z) :
  store_ok c -> supported k ->
  Canonical.get k now (snd (Canonical.get k now c)) = Canonical.get k now c.
Proof.
  intros Hok Hk. destruct (data c !! text k) as [e|] eqn:He.
  - destruct (store_ok_lookup c _ e Hok He) as (k' & x & Hk' & Ht & Hx & Hv).
    apply text_inj in Ht; [|assumption..]. subst k'.
    destruct (expired now e) eqn:Hp.
    + rewrite (get_past c k x e now Hk Hx He Hv Hp). simpl.
      apply get_absent_token with (text k);
        [now apply serialize_supported | apply lookup_delete_eq].
    + assert (Hget : Canonical.get k now c = (Ret x, c)).
      { unfold Canonical.get.
        rewrite (get_hit _ c k (text k) e now (serialize_supported k Hk) He Hp).
        now rewrite Hv, (text_truthy x Hx), unstringify_text. }
      now rewrite Hget.
  - assert (Hget : Canonical.get k now c = (Throw KeyNotFound, c)).
    { apply get_absent_token with (text k);
        [now apply serialize_supported | assumption]. }
    now rewrite Hget.
Qed.

(** X23: what was set is visible everywhere.  After [set(k, x, ttl)]
    with a supported key and value on a well-formed store (default and
    given time to live not negative), at the same time: [exists(k)]
    answers [true], [keys()] contains [k], and [list()] contains the
    pair [(k, x)]. *)
Theorem X23_set_then_visible (c : cache) (k x : value) (ttl0 : option Z) (now : Z) :
  store_ok c -> supported k -> supported x ->
  0 <= m_ttl c -> 0 <= default (m_ttl c) ttl0 ->
  let c1 := snd (Canonical.set k x ttl0 now c) in
  Canonical.exists_ k now c1 = (Ret true, c1)
  /\ (exists ks, Canonical.keys c1 = (Ret ks, c1) /\ k ∈ ks)
  /\ (exists m c2, Canonical.list_ now c1 = (Ret m, c2) /\ (k, x) ∈ m).
Proof.
  intros Hok Hk Hx Hdef Httl c1.
  assert (Hok1 : store_ok c1) by now apply set_store_ok.
  assert (Hget : Canonical.get k now c1 = (Ret x, c1)).
  { subst c1. rewrite (set_run c k x ttl0 now Hk Hx Hdef Httl). simpl.
    apply get_after_set with (wrap (Some (text x)) (effective_ttl c ttl0) now);
      [assumption | assumption | simpl; apply lookup_insert_eq | apply v_wrap |].
    apply wrap_default_live. now apply effective_ttl_nonneg. }
  split; [|split].
  - unfold Canonical.exists_, exists_, try_catch.
    now rewrite (bind_ret _ _ _ _ _ Hget).
  - eexists. split; [now apply keys_ok|].
    apply (keys_members c1 Hok1). split; [assumption|].
    pose proof (get_outcome c1 k now Hok1 Hk) as Ho. rewrite Hget in Ho.
    destruct (data c1 !! text k) as [e|]; [now exists e | discriminate].
  - destruct (list_agrees c1 now Hok1) as (m & c2 & Hrun & Hspec).
    exists m, c2. split; [assumption|]. apply Hspec. split; [assumption|].
    now rewrite Hget.
Qed.

(** X24: what was deleted is gone everywhere.  [del(k)] of a supported
    key on a well-formed store returns normally, whether [k] was stored
    or not; afterwards [get(k)] fails with the key-not-found error and
    [exists(k)] answers [false] at any time, [keys()] does not contain
    [k], and [list()] holds no pair for [k]. *)
Theorem X24_del_then_invisible (c : cache) (k : value) :
  store_ok c -> supported k ->
  let c1 := snd (Canonical.del k c) in
  fst (Canonical.del k c) = Ret tt
  /\ (forall now, Canonical.get k now c1 = (Throw KeyNotFound, c1)
                  /\ Canonical.exists_ k now c1 = (Ret false, c1))
  /\ (exists ks, Canonical.keys c1 = (Ret ks, c1) /\ k ∉ ks)
  /\ (forall now, exists m c2,
        Canonical.list_ now c1 = (Ret m, c2) /\ forall x, (k, x) ∉ m).
Proof.
  intros Hok Hk c1. subst c1.
  destruct (del_run c k Hok Hk) as (c1 & Hrun & Hd & Hok1). rewrite Hrun. simpl.
  assert (Hnone : data c1 !! text k = None).
  { rewrite Hd. apply lookup_delete_eq. }
  assert (Hget : forall now, Canonical.get k now c1 = (Throw KeyNotFound, c1)).
  { intros now. apply get_absent_token with (text k);
      [now apply serialize_supported | assumption]. }
  split; [reflexivity|]. split; [|split].
  - intros now. split; [apply Hget|].
    unfold Canonical.exists_, exists_, try_catch.
    erewrite bind_throw by apply Hget. reflexivity.
  - eexists. split; [now apply keys_ok|].
    intros Hin. apply (keys_members c1 Hok1) in Hin as [_ [e He]]. congruence.
  - intros now. destruct (list_agrees c1 now Hok1) as (m & c2 & Hl & Hspec).
    exists m, c2. split; [assumption|].
    intros x Hin. apply Hspec in Hin as [_ Hin]. rewrite Hget in Hin. discriminate.
Qed.


(** X26: [mdel] is [del] key after key.  When no key of the sequence
    makes the encoding throw, [mdel(keys)] has the outcome of, and
    leaves the instance exactly as, deleting the keys one after the
    other with [del], in both variants and on every instance. *)
Theorem X26_mdel_is_del_in_turn (u : option string -> outcome value)
    (ks : list value) (c : cache) :
  existsb throws ks = false ->
  mdel u ks c = del_each u ks c.
Proof.
  intros Hks. revert c.
  induction ks as [|k ks IH]; intros c; [reflexivity|].
  simpl in Hks. apply orb_false_elim in Hks as [Hk Hks].
  destruct (stringify_pure k Hk) as (tok & Htok).
  destruct (mapM_stringify_pure ks Hks) as (toks & Htoks).
  assert (Hm : forall c0, mdel u ks c0 = (nc_del u toks ;;; ret tt) c0).
  { intros c0. unfold mdel. now rewrite (bind_ret _ _ _ _ _ (Htoks c0)). }
  assert (Hd : del u k c = (nc_del u [tok] ;;; ret tt) c).
  { unfold del. now rewrite (bind_ret _ _ _ _ _ (Htok c)). }
  transitivity ((nc_del u (tok :: toks) ;;; ret tt) c).
  - unfold mdel. simpl mapM.
    erewrite bind_ret; [reflexivity|].
    rewrite (bind_ret _ _ _ _ _ (Htok c)).
    now rewrite (bind_ret _ _ _ _ _ (Htoks c)).
  - rewrite nc_del_cons. simpl del_each. unfold bind at 1 4. rewrite <- Hd.
    destruct (del u k c) as [[[]|err|] c1]; [|reflexivity..].
    now rewrite <- Hm, (IH Hks).
Qed.

(* ===================================================================== *)
(** ** The further properties at concrete inputs *)
(* ===================================================================== *)

Lemma X1_set_effect_witness :
  supported (JStr "a") /\ supported (JNum 7)
  /\ 0 <= m_ttl (new None None) /\ 0 <= default (m_ttl (new None None)) (Some 5)
  /\ exists c',
       Canonical.set (JStr "a") (JNum 7) (Some 5) 1000 (new None None) = (Ret tt, c')
       /\ data c' = <[text (JStr "a") := Entry 6000 (Some (text (JNum 7)))]> ∅
       /\ emitted c' = [EvSet (JStr "a") (JNum 7)]
       /\ m_ttl c' = 300 /\ m_checkPeriod c' = 30.
Proof.
  split; [reflexivity|]. split; [reflexivity|].
  split; [simpl; lia|]. split; [simpl; lia|].
  apply (X1_set_effect (new None None) (JStr "a") (JNum 7) (Some 5) 1000);
    [reflexivity | reflexivity | simpl; lia | simpl; lia].
Defined.


Lemma X3_set_leaves_other_keys_witness :
  store_ok sample
  /\ supported (JStr "b") /\ supported (JStr "a") /\ supported (JNum 2)
  /\ JStr "b" <> JStr "a"
  /\ 0 <= m_ttl sample /\ 0 <= default (m_ttl sample) None
  /\ let c1 := snd (Canonical.set (JStr "b") (JNum 2) None 2000 sample) in
     data c1 !! text (JStr "a") = data sample !! text (JStr "a")
     /\ fst (Canonical.get (JStr "a") 3000 c1)
        = fst (Canonical.get (JStr "a") 3000 sample).
Proof.
  split; [vm_compute; reflexivity|].
  split; [reflexivity|]. split; [reflexivity|]. split; [reflexivity|].
  split; [discriminate|].
  split; [vm_compute; discriminate|]. split; [vm_compute; discriminate|].
  apply (X3_set_leaves_other_keys sample (JStr "b") (JStr "a") (JNum 2) None 2000 3000);
    [vm_compute; reflexivity | reflexivity | reflexivity | reflexivity
    | discriminate | vm_compute; discriminate | vm_compute; discriminate].
Defined.

Lemma X4_get_hit_is_pure_witness :
  JSON_stringify (JStr "a") = SText (text (JStr "a"))
  /\ data sample !! text (JStr "a")
     = Some (Entry 301000 (Some (text (JObj [("x", JNum 1)]))))
  /\ expired 2000 (Entry 301000 (Some (text (JObj [("x", JNum 1)])))) = false
  /\ truthy (v (Entry 301000 (Some (text (JObj [("x", JNum 1)]))))) = true
  /\ Canonical.get (JStr "a") 2000 sample
     = (Canonical.unstringify (v (Entry 301000 (Some (text (JObj [("x", JNum 1)]))))),
        sample).
Proof.
  split; [reflexivity|]. split; [vm_compute; reflexivity|].
  split; [reflexivity|]. split; [reflexivity|].
  apply (X4_get_hit_is_pure sample (JStr "a") (text (JStr "a"))
           (Entry 301000 (Some (text (JObj [("x", JNum 1)])))) 2000);
    [reflexivity | vm_compute; reflexivity | reflexivity | reflexivity].
Defined.

Lemma X5_get_past_time_evicts_witness :
  store_ok sample /\ supported (JStr "a")
  /\ data sample !! text (JStr "a")
     = Some (Entry 301000 (Some (text (JObj [("x", JNum 1)]))))
  /\ expired 400000 (Entry 301000 (Some (text (JObj [("x", JNum 1)])))) = true
  /\ exists x c',
       v (Entry 301000 (Some (text (JObj [("x", JNum 1)])))) = Some (text x)
       /\ Canonical.get (JStr "a") 400000 sample = (Throw KeyNotFound, c')
       /\ data c' = delete (text (JStr "a")) (data sample)
       /\ emitted c' = emitted sample ++ [EvDel (JStr "a") x; EvExpired (JStr "a") x].
Proof.
  split; [vm_compute; reflexivity|]. split; [reflexivity|].
  split; [vm_compute; reflexivity|]. split; [reflexivity|].
  apply (X5_get_past_time_evicts sample (JStr "a")
           (Entry 301000 (Some (text (JObj [("x", JNum 1)])))) 400000);
    [vm_compute; reflexivity | reflexivity | vm_compute; reflexivity | reflexivity].
Defined.

Lemma X6_del_present_witness :
  store_ok sample /\ supported (JStr "a")
  /\ data sample !! text (JStr "a")
     = Some (Entry 301000 (Some (text (JObj [("x", JNum 1)]))))
  /\ exists x c',
       v (Entry 301000 (Some (text (JObj [("x", JNum 1)])))) = Some (text x)
       /\ Canonical.del (JStr "a") sample = (Ret tt, c')
       /\ data c' = delete (text (JStr "a")) (data sample)
       /\ emitted c' = emitted sample ++ [EvDel (JStr "a") x]
       /\ forall now, Canonical.get (JStr "a") now c' = (Throw KeyNotFound, c').
Proof.
  split; [vm_compute; reflexivity|]. split; [reflexivity|].
  split; [vm_compute; reflexivity|].
  apply (X6_del_present sample (JStr "a")
           (Entry 301000 (Some (text (JObj [("x", JNum 1)])))));
    [vm_compute; reflexivity | reflexivity | vm_compute; reflexivity].
Defined.

Lemma X7_del_absent_is_noop_witness :
  JSON_stringify (JStr "b") = SText (text (JStr "b"))
  /\ data sample !! text (JStr "b") = None
  /\ Canonical.del (JStr "b") sample = (Ret tt, sample)
  /\ forall fuel, IndexTs.del fuel (JStr "b") sample = (Ret tt, sample).
Proof.
  split; [reflexivity|]. split; [vm_compute; reflexivity|].
  apply (X7_del_absent_is_noop sample (JStr "b") (text (JStr "b")));
    [reflexivity | vm_compute; reflexivity].
Defined.


Lemma X9_ttl_miss_witness :
  supported (JStr "a") /\ supported (JNum 7)
  /\ m_ttl (new (Some 0) None) = 0 /\ default (m_ttl (new (Some 0) None)) None = 0
  /\ let c1 := snd (Canonical.set (JStr "a") (JNum 7) None 1000 (new (Some 0) None)) in
     Canonical.get (JStr "a") 999999 c1 = (Ret (JNum 7), c1)
     /\ ttl Canonical.unstringify (JStr "a") 999999 c1 = (Throw KeyNotFound, c1)
     /\ (forall c0 key tok,
           JSON_stringify key = SText tok -> data c0 !! tok = None ->
           ttl Canonical.unstringify key 999999 c0 = (Throw KeyNotFound, c0)).
Proof.
  split; [reflexivity|]. split; [reflexivity|].
  split; [reflexivity|]. split; [reflexivity|].
  apply (X9_ttl_miss (new (Some 0) None) (JStr "a") (JNum 7) None 1000 999999);
    reflexivity.
Defined.

Lemma X10_encoding_failure_witness :
  throws (JArr [JNum 1; JBigInt 2]) = true
  /\ Canonical.get (JArr [JNum 1; JBigInt 2]) 1000 sample = (Throw TypeError, sample)
  /\ Canonical.del (JArr [JNum 1; JBigInt 2]) sample = (Throw TypeError, sample)
  /\ ttl Canonical.unstringify (JArr [JNum 1; JBigInt 2]) 1000 sample
     = (Throw TypeError, sample)
  /\ Canonical.exists_ (JArr [JNum 1; JBigInt 2]) 1000 sample = (Ret false, sample)
  /\ (forall x ttl0,
        Canonical.set (JArr [JNum 1; JBigInt 2]) x ttl0 1000 sample
        = (Throw TypeError, sample))
  /\ (forall k ttl0, throws k = false ->
                     Canonical.set k (JArr [JNum 1; JBigInt 2]) ttl0 1000 sample
                     = (Throw TypeError, sample))
  /\ (forall ks, In (JArr [JNum 1; JBigInt 2]) ks ->
                 Canonical.mget ks 1000 sample = (Throw TypeError, sample)
                 /\ Canonical.mdel ks sample = (Throw TypeError, sample)).
Proof.
  split; [reflexivity|].
  apply (X10_encoding_failure sample (JArr [JNum 1; JBigInt 2]) 1000). reflexivity.
Defined.

Lemma X11_flush_then_miss_witness :
  JSON_stringify (JStr "a") = SText (text (JStr "a"))
  /\ forallb encodes [JStr "a"; JNum 3] = true
  /\ Canonical.get (JStr "a") 1000 (snd (Canonical.flush sample))
     = (Throw KeyNotFound, snd (Canonical.flush sample))
  /\ Canonical.mget [JStr "a"; JNum 3] 1000 (snd (Canonical.flush sample))
     = (Ret [], snd (Canonical.flush sample)).
Proof.
  split; [reflexivity|]. split; [reflexivity|].
  destruct (X11_flush_then_miss sample) as (Hget & Hmget & _).
  split; [apply (Hget (JStr "a") (text (JStr "a")) 1000); reflexivity|].
  apply (Hmget [JStr "a"; JNum 3] 1000). reflexivity.
Defined.

Lemma X12_keys_lists_every_entry_witness :
  store_ok sample
  /\ exists ks,
       Canonical.keys sample = (Ret ks, sample)
       /\ NoDup ks
       /\ (forall k, k ∈ ks <-> supported k /\ is_Some (data sample !! text k))
       /\ (forall k e now,
             supported k -> data sample !! text k = Some e -> expired now e = true ->
             k ∈ ks /\ fst (Canonical.get k now sample) = Throw KeyNotFound).
Proof.
  split; [vm_compute; reflexivity|].
  apply (X12_keys_lists_every_entry sample). vm_compute; reflexivity.
Defined.

Lemma X13_mget_agrees_with_get_witness :
  store_ok sample /\ Forall supported [JStr "a"; JStr "b"]
  /\ exists m c',
       Canonical.mget [JStr "a"; JStr "b"] 1000 sample = (Ret m, c')
       /\ forall k x,
            (k, x) ∈ m
            <-> In k [JStr "a"; JStr "b"]
                /\ fst (Canonical.get k 1000 sample) = Ret x.
Proof.
  split; [vm_compute; reflexivity|].
  split; [repeat constructor|].
  apply (X13_mget_agrees_with_get sample [JStr "a"; JStr "b"] 1000);
    [vm_compute; reflexivity | repeat constructor].
Defined.

Lemma X14_list_agrees_with_get_witness :
  store_ok sample
  /\ exists m c',
       Canonical.list_ 1000 sample = (Ret m, c')
       /\ forall k x,
            (k, x) ∈ m
            <-> supported k /\ fst (Canonical.get k 1000 sample) = Ret x.
Proof.
  split; [vm_compute; reflexivity|].
  apply (X14_list_agrees_with_get sample 1000). vm_compute; reflexivity.
Defined.

Lemma X16_store_ok_invariant_witness :
  store_ok sample
  /\ store_ok (snd (Canonical.set (JStr "b") (JNum 2) None 2000 sample))
  /\ store_ok (snd (Canonical.get (JStr "a") 400000 sample))
  /\ store_ok (snd (Canonical.mdel [JStr "a"; JBigInt 1] sample)).
Proof.
  split; [vm_compute; reflexivity|].
  destruct (X16_store_ok_invariant sample) as (Hset & Hget & _ & _ & _ & _ & _ & _ & Hmdel & _);
    [vm_compute; reflexivity|].
  split; [apply Hset; reflexivity|]. split; [apply Hget | apply Hmdel].
Defined.

Lemma X17_index_set_del_take_effect_witness :
  JSON_stringify (JStr "a") = SText (text (JStr "a"))
  /\ JSON_stringify (JNum 7) = SText (text (JNum 7))
  /\ data index_sample !! text (JStr "a")
     = Some (Entry 301000 (Some (text (JObj [("x", JNum 1)]))))
  /\ IndexTs.set 100 (JStr "a") (JNum 7) (Some 5) 2000 index_sample
     = (OutOfFuel,
        Cache 300 30
          (<[text (JStr "a") := Entry 302000 (Some (text (JNum 7)))]> (data index_sample))
          [])
  /\ IndexTs.del 100 (JStr "a") index_sample
     = (OutOfFuel, Cache 300 30 (delete (text (JStr "a")) (data index_sample)) []).
Proof.
  split; [reflexivity|]. split; [reflexivity|]. split; [vm_compute; reflexivity|].
  destruct (X17_index_set_del_take_effect 100 index_sample (JStr "a") (JNum 7)
              (text (JStr "a")) (text (JNum 7)) (Some 5) 2000 eq_refl eq_refl)
    as [Hset Hdel].
  split; [exact Hset|].
  apply (Hdel (Entry 301000 (Some (text (JObj [("x", JNum 1)]))))).
  vm_compute; reflexivity.
Defined.


Lemma X19_results_are_plain_witness :
  fst (Canonical.get (JStr "a") 2000 sample) = Ret (JObj [("x", JNum 1)])
  /\ is_plain (JObj [("x", JNum 1)]) = true.
Proof.
  split; [vm_compute; reflexivity|].
  apply (proj1 (X19_results_are_plain sample 2000) (JStr "a")).
  vm_compute; reflexivity.
Defined.


Lemma X21_set_negative_ttl_deletes_witness :
  supported (JStr "a") /\ supported (JNum 2) /\ 0 <= m_ttl sample /\ -1 < 0
  /\ let c1 := snd (Canonical.set (JStr "a") (JNum 2) (Some (-1)) 2000 sample) in
     fst (Canonical.set (JStr "a") (JNum 2) (Some (-1)) 2000 sample) = Ret tt
     /\ data c1 = delete (text (JStr "a")) (data sample)
     /\ emitted c1
        = emitted sample ++ [EvSet (JStr "a") (JNum 2); EvDel (JStr "a") (JNum 2)]
     /\ forall now', Canonical.get (JStr "a") now' c1 = (Throw KeyNotFound, c1).
Proof.
  split; [reflexivity|]. split; [reflexivity|].
  split; [vm_compute; discriminate|]. split; [lia|].
  apply (X21_set_negative_ttl_deletes sample (JStr "a") (JNum 2) (-1) 2000);
    [reflexivity | reflexivity | vm_compute; discriminate | lia].
Defined.

Lemma X22_get_idempotent_witness :
  store_ok sample /\ supported (JStr "a")
  /\ Canonical.get (JStr "a") 400000 (snd (Canonical.get (JStr "a") 400000 sample))
     = Canonical.get (JStr "a") 400000 sample.
Proof.
  split; [vm_compute; reflexivity|]. split; [reflexivity|].
  apply (X22_get_idempotent sample (JStr "a") 400000);
    [vm_compute; reflexivity | reflexivity].
Defined.

Lemma X23_set_then_visible_witness :
  store_ok sample /\ supported (JStr "b") /\ supported (JNum 2)
  /\ 0 <= m_ttl sample /\ 0 <= default (m_ttl sample) (Some 5)
  /\ let c1 := snd (Canonical.set (JStr "b") (JNum 2) (Some 5) 2000 sample) in
     Canonical.exists_ (JStr "b") 2000 c1 = (Ret true, c1)
     /\ (exists ks, Canonical.keys c1 = (Ret ks, c1) /\ JStr "b" ∈ ks)
     /\ (exists m c2, Canonical.list_ 2000 c1 = (Ret m, c2) /\ (JStr "b", JNum 2) ∈ m).
Proof.
  split; [vm_compute; reflexivity|]. split; [reflexivity|]. split; [reflexivity|].
  split; [vm_compute; discriminate|]. split; [simpl; lia|].
  apply (X23_set_then_visible sample (JStr "b") (JNum 2) (Some 5) 2000);
    [vm_compute; reflexivity | reflexivity | reflexivity
    | vm_compute; discriminate | simpl; lia].
Defined.

Lemma X24_del_then_invisible_witness :
  store_ok sample /\ supported (JStr "a")
  /\ let c1 := snd (Canonical.del (JStr "a") sample) in
     fst (Canonical.del (JStr "a") sample) = Ret tt
     /\ (forall now, Canonical.get (JStr "a") now c1 = (Throw KeyNotFound, c1)
                     /\ Canonical.exists_ (JStr "a") now c1 = (Ret false, c1))
     /\ (exists ks, Canonical.keys c1 = (Ret ks, c1) /\ JStr "a" ∉ ks)
     /\ (forall now, exists m c2,
           Canonical.list_ now c1 = (Ret m, c2) /\ forall x, (JStr "a", x) ∉ m).
Proof.
  split; [vm_compute; reflexivity|]. split; [reflexivity|].
  apply (X24_del_then_invisible sample (JStr "a"));
    [vm_compute; reflexivity | reflexivity].
Defined.


Lemma X26_mdel_is_del_in_turn_witness :
  existsb throws [JStr "a"; JUndefined; JStr "b"] = false
  /\ Canonical.mdel [JStr "a"; JUndefined; JStr "b"] sample
     = del_each Canonical.unstringify [JStr "a"; JUndefined; JStr "b"] sample.
Proof.
  split; [reflexivity|].
  apply (X26_mdel_is_del_in_turn Canonical.unstringify
           [JStr "a"; JUndefined; JStr "b"] sample).
  reflexivity.
Defined.
